(** * PII redaction proxy: entity location, replacement, redaction,
      streaming and session risk

    A shallow embedding of the TypeScript sources
    [engine/inference-runner.ts], [engine/model-loader.ts],
    [features/redaction/*], [features/proxy/stream.transformer.ts],
    [features/session/*], [infrastructure/store/store-client.ts] and
    [shared/types/*], followed by the properties established about
    them. *)

From Stdlib Require Import List NArith ZArith Bool Lia Ascii.
From Stdlib Require Import Sorted Permutation.
From Stdlib Require DecimalZ DecimalPos.
From Stdlib Require String.
Import String.StringSyntax.
Delimit Scope string_scope with string.
From Stdlib Require Import Floats.
Import ListNotations.

Set Implicit Arguments.

(* ================================================================= *)
(** ** JavaScript strings *)

(** A JavaScript string is a sequence of UTF-16 code units; [length],
    [slice], [indexOf] and friends all count code units. *)
Definition jsstring := list N.

(** The code units of an ASCII literal. *)
Definition js (s : String.string) : jsstring :=
  map N_of_ascii (String.list_ascii_of_string s).
Arguments js s%_string.

Module JsString.

Fixpoint eqb (a b : jsstring) : bool :=
  match a, b with
  | [], [] => true
  | x :: a', y :: b' => N.eqb x y && eqb a' b'
  | _, _ => false
  end.

(** [s.startsWith(p)] *)
Fixpoint startsWith (s p : jsstring) : bool :=
  match p, s with
  | [], _ => true
  | x :: p', y :: s' => N.eqb x y && startsWith s' p'
  | _ :: _, [] => false
  end.

(** [s.slice(a)] and [s.slice(a, b)] for non-negative integer offsets. *)
Definition sliceFrom (s : jsstring) (a : nat) : jsstring := skipn a s.
Definition slice (s : jsstring) (a b : nat) : jsstring :=
  firstn (b - a) (skipn a s).

(** ECMAScript WhiteSpace and LineTerminator code units, the ones
    [trim] strips. *)
Definition isWhiteSpace (c : N) : bool :=
  ((9 <=? c) && (c <=? 13) || (c =? 32) || (c =? 160) || (c =? 5760)
   || (8192 <=? c) && (c <=? 8202) || (c =? 8232) || (c =? 8233)
   || (c =? 8239) || (c =? 8287) || (c =? 12288) || (c =? 65279))%N.

Fixpoint trimStart (s : jsstring) : jsstring :=
  match s with
  | c :: s' => if isWhiteSpace c then trimStart s' else s
  | [] => []
  end.

Definition trimEnd (s : jsstring) : jsstring :=
  rev (trimStart (rev s)).

Definition trim (s : jsstring) : jsstring := trimEnd (trimStart s).

(** [scan target s pos]: [s] is the suffix of the searched string that
    starts at offset [pos]. *)
Fixpoint scan (target s : jsstring) (pos : nat) : option nat :=
  if startsWith s target then Some pos
  else match s with
       | [] => None
       | _ :: s' => scan target s' (S pos)
       end.

(** [s.indexOf(target, from)]; [None] stands for [-1]. *)
Definition indexOf (s target : jsstring) (from : nat) : option nat :=
  scan target (skipn from s) (Nat.min from (length s)).

(** [s.split(sep)] for a one-unit separator: never empty, the last
    element is what follows the last separator. *)
Fixpoint split (sep : N) (s : jsstring) : list jsstring :=
  match s with
  | [] => [[]]
  | c :: s' =>
      if N.eqb c sep then [] :: split sep s'
      else match split sep s' with
           | l :: ls => (c :: l) :: ls
           | [] => [[c]]
           end
  end.

(** One code unit of [String.prototype.toLowerCase]: the ASCII letters,
    and U+0130 (capital I with dot above) whose lower-case form is the
    two code units U+0069 U+0307.  Other code units are kept. *)
Definition lowerUnit (c : N) : jsstring :=
  (if (65 <=? c) && (c <=? 90) then [c + 32]
   else if c =? 304 then [105; 775]
   else [c])%N.

Definition toLowerCase (s : jsstring) : jsstring := flat_map lowerUnit s.

End JsString.

(* ================================================================= *)
(** ** shared/types/pii.types.ts *)

Definition PII_ENTITY_TYPES : list jsstring :=
  map js ["PERSON"; "EMAIL"; "PHONE"; "ADDRESS"; "SSN"; "CREDIT_CARD";
          "BANK_ACCOUNT"; "DATE_OF_BIRTH"; "PASSPORT"; "DRIVER_LICENSE";
          "IP_ADDRESS"; "URL"; "USERNAME"; "PASSWORD"; "MEDICAL_ID";
          "NATIONAL_ID"; "TAX_ID"]%string.

(** [type] is a [PiiEntityType] for the type checker and, at run time,
    whatever a table gave: a string, or a member of [Object.prototype]
    when a label names one (see [getProperty]).  The program compares
    [type] with string literals, puts it into a template literal and uses
    it as a property key, and in each of these a member behaves as the
    string it converts to: that string is what [type] holds then. *)
Record PiiEntity : Type := mkPiiEntity {
  type : jsstring;
  text : jsstring;
  start : nat;
  end_ : nat;
  confidence : float
}.

(** The own properties of an object literal used as a table. *)
Fixpoint lookup {A : Type} (tbl : list (jsstring * A)) (k : jsstring)
  : option A :=
  match tbl with
  | [] => None
  | (k', v) :: tbl' => if JsString.eqb k' k then Some v else lookup tbl' k
  end.

(** The names of the properties every object literal inherits from
    [Object.prototype]: eleven functions, and the accessor [__proto__],
    which returns [Object.prototype] itself. *)
Definition OBJECT_PROTOTYPE : list jsstring :=
  map js ["constructor"; "__defineGetter__"; "__defineSetter__";
          "hasOwnProperty"; "__lookupGetter__"; "__lookupSetter__";
          "isPrototypeOf"; "propertyIsEnumerable"; "toString"; "valueOf";
          "__proto__"; "toLocaleString"]%string.

Definition inherited (key : jsstring) : bool :=
  existsb (JsString.eqb key) OBJECT_PROTOTYPE.

(** [obj[key]] on an object literal: the own property, or else the member
    of [Object.prototype] of that name, or else [undefined]. *)
Inductive Property (A : Type) : Type :=
| Own (value : A)
| Inherited (name : jsstring)
| Absent.
Arguments Own {A} value.
Arguments Inherited {A} name.
Arguments Absent {A}.

Definition getProperty {A : Type} (tbl : list (jsstring * A))
    (key : jsstring) : Property A :=
  match lookup tbl key with
  | Some v => Own v
  | None => if inherited key then Inherited key else Absent
  end.

(** [String(Object.prototype[name])] as Node prints it: the source text
    of a built-in function ([constructor] is the function [Object]), and
    ["[object Object]"] for [Object.prototype]. *)
Definition inheritedToString (name : jsstring) : jsstring :=
  if JsString.eqb name (js "__proto__") then js "[object Object]"
  else js "function "
       ++ (if JsString.eqb name (js "constructor") then js "Object"
           else name)
       ++ js "() { [native code] }".

(** [obj[key]] when it is truthy, for a table of strings: an own string
    that is not empty, or an inherited member, held as the string it
    converts to. *)
Definition truthyProperty (p : Property jsstring) : option jsstring :=
  match p with
  | Own [] | Absent => None
  | Own v => Some v
  | Inherited name => Some (inheritedToString name)
  end.

Definition PII_RISK_POINTS : list (jsstring * Z) :=
  map (fun p => (js (fst p), snd p))
    [("PERSON", 5); ("EMAIL", 5); ("PHONE", 10); ("ADDRESS", 10);
     ("SSN", 25); ("CREDIT_CARD", 25); ("BANK_ACCOUNT", 20);
     ("DATE_OF_BIRTH", 5); ("PASSPORT", 20); ("DRIVER_LICENSE", 15);
     ("IP_ADDRESS", 5); ("URL", 2); ("USERNAME", 5); ("PASSWORD", 30);
     ("MEDICAL_ID", 20); ("NATIONAL_ID", 20); ("TAX_ID", 20)]%string%Z.

(* ================================================================= *)
(** ** engine/inference-runner.ts *)

Definition LABEL_TO_PII_TYPE : list (jsstring * jsstring) :=
  map (fun p => (js (fst p), js (snd p)))
    [("ACCOUNTNUM", "BANK_ACCOUNT"); ("BUILDINGNUM", "ADDRESS");
     ("CITY", "ADDRESS"); ("CREDITCARDNUMBER", "CREDIT_CARD");
     ("DATEOFBIRTH", "DATE_OF_BIRTH");
     ("DRIVERLICENSENUM", "DRIVER_LICENSE"); ("EMAIL", "EMAIL");
     ("GIVENNAME", "PERSON"); ("IDCARDNUM", "NATIONAL_ID");
     ("PASSWORD", "PASSWORD"); ("SOCIALNUM", "SSN"); ("STREET", "ADDRESS");
     ("SURNAME", "PERSON"); ("TAXNUM", "TAX_ID");
     ("TELEPHONENUM", "PHONE"); ("USERNAME", "USERNAME");
     ("ZIPCODE", "ADDRESS")]%string.

Record RawToken : Type := mkRawToken {
  entity : jsstring;
  word : jsstring;
  score : float;
  index : Z
}.

Record Group : Type := mkGroup {
  label : jsstring;
  words : list jsstring;
  scores : list float;
  lastIdx : Z
}.

Definition parseLabel (entity : jsstring) : option jsstring :=
  if JsString.eqb entity [] || JsString.eqb entity (js "O") then None
  else if JsString.startsWith entity (js "B-")
          || JsString.startsWith entity (js "I-")
       then Some (JsString.sliceFrom entity 2)
       else Some entity.

(** The [for (const w of group.words)] loop of [finalizeGroup]. *)
Fixpoint joinWords (joined : jsstring) (ws : list jsstring) : jsstring :=
  match ws with
  | [] => joined
  | w :: ws' =>
      let joined' :=
        if JsString.startsWith w (js "##") then
          joined ++ JsString.sliceFrom w 2
        else if JsString.startsWith w (js " ") then
          joined ++ (match joined with
                     | [] => JsString.sliceFrom w 1
                     | _ => w
                     end)
        else joined ++ w in
      joinWords joined' ws'
  end.

(** [usedRanges.some(([s, e]) => start < e && end > s)] *)
Definition overlapsUsed (usedRanges : list (nat * nat)) (start end_ : nat)
  : bool :=
  existsb (fun r => (start <? snd r) && (fst r <? end_)) usedRanges.

(** [scores.reduce((a, b) => a + b, 0) / scores.length] *)
Definition mean (scores : list float) : float :=
  PrimFloat.div (fold_left PrimFloat.add scores PrimFloat.zero)
                (PrimFloat.of_uint63 (Uint63.of_Z (Z.of_nat (length scores)))).

Section Locator.

(** [String.prototype.toLowerCase], the full Unicode case mapping of the
    host.  The locator is kept generic in it; [JsString.toLowerCase] is
    the instance used on concrete inputs. *)
Variable toLowerCase : jsstring -> jsstring.

(** The [while (from < text.length)] loop of [findPosition].  Every
    iteration moves [from] forward, so [text.length] iterations exhaust
    the loop condition; [fuel] counts them. *)
Fixpoint findPosition_loop (fuel : nat) (search lower target : jsstring)
    (textLength : nat) (usedRanges : list (nat * nat)) (from : nat)
  : option (nat * nat) :=
  match fuel with
  | O => None
  | S fuel' =>
      if from <? textLength then
        match JsString.indexOf lower target from with
        | None => None
        | Some start =>
            let end_ := start + length search in
            if negb (overlapsUsed usedRanges start end_) then
              Some (start, end_)
            else
              findPosition_loop fuel' search lower target textLength
                                usedRanges (start + 1)
        end
      else None
  end.

Definition findPosition (search text : jsstring)
    (usedRanges : list (nat * nat)) : option (nat * nat) :=
  let lower := toLowerCase text in
  let target := toLowerCase search in
  findPosition_loop (length text) search lower target (length text)
                    usedRanges 0.

Definition finalizeGroup (group : Group) (text : jsstring)
    (usedRanges : list (nat * nat)) : option PiiEntity :=
  match truthyProperty (getProperty LABEL_TO_PII_TYPE (label group)) with
  | None => None
  | Some piiType =>
      let joined := JsString.trim (joinWords [] (words group)) in
      if length joined <? 2 then None
      else
        match findPosition joined text usedRanges with
        | None => None
        | Some pos =>
            Some {| type := piiType;
                    text := JsString.slice text (fst pos) (snd pos);
                    start := fst pos;
                    end_ := snd pos;
                    confidence := mean (scores group) |}
        end
  end.

(** The locals of [groupAndLocateEntities]. *)
Record LocatorState : Type := mkLocatorState {
  entities : list PiiEntity;
  usedRanges : list (nat * nat);
  group : option Group
}.

(** [finalizeGroup] followed by the two [push]es, as the loop body does
    it each time a group is closed. *)
Definition closeGroup (st : LocatorState) (text : jsstring)
  : list PiiEntity * list (nat * nat) :=
  match group st with
  | None => (entities st, usedRanges st)
  | Some g =>
      match finalizeGroup g text (usedRanges st) with
      | Some e => (entities st ++ [e],
                   usedRanges st ++ [(start e, end_ e)])
      | None => (entities st, usedRanges st)
      end
  end.

(** One iteration of [for (const token of tokens)]. *)
Definition locateStep (text : jsstring) (st : LocatorState)
    (token : RawToken) : LocatorState :=
  let mapped :=
    match parseLabel (entity token) with
    | None => None
    | Some l =>
        match l, truthyProperty (getProperty LABEL_TO_PII_TYPE l) with
        | _ :: _, Some _ => Some l
        | _, _ => None
        end
    end in
  match mapped with
  | None =>
      let (es, used) := closeGroup st text in
      {| entities := es; usedRanges := used; group := None |}
  | Some l =>
      let continues :=
        match group st with
        | None => false
        | Some g =>
            JsString.eqb (label g) l
            && negb (lastIdx g + 1 <? index token)%Z
        end in
      if continues then
        {| entities := entities st;
           usedRanges := usedRanges st;
           group := option_map
                      (fun g => {| label := label g;
                                   words := words g ++ [word token];
                                   scores := scores g ++ [score token];
                                   lastIdx := index token |})
                      (group st) |}
      else
        let (es, used) := closeGroup st text in
        {| entities := es;
           usedRanges := used;
           group := Some {| label := l;
                            words := [word token];
                            scores := [score token];
                            lastIdx := index token |} |}
  end.

Definition groupAndLocateEntities (tokens : list RawToken)
    (text : jsstring) : list PiiEntity :=
  let st := fold_left (locateStep text) tokens
              {| entities := []; usedRanges := []; group := None |} in
  match group st with
  | None => entities st
  | Some g =>
      match finalizeGroup g text (usedRanges st) with
      | Some e => entities st ++ [e]
      | None => entities st
      end
  end.

End Locator.


(* ================================================================= *)
(** ** Stateful computations *)

(** The singletons and stores of the program are threaded explicitly: a
    computation takes the state and returns its result with the new
    state. *)
Definition State (S A : Type) : Type := S -> A * S.

Definition ret {S A : Type} (a : A) : State S A := fun s => (a, s).

Definition bind {S A B : Type} (m : State S A) (k : A -> State S B)
  : State S B :=
  fun s => let (a, s') := m s in k a s'.

Declare Scope state_scope.
Delimit Scope state_scope with state.
Notation "x <- m ;; k" := (bind m (fun x => k))
  (at level 61, m at next level, right associativity) : state_scope.
Notation "m ;;; k" := (bind m (fun _ => k))
  (at level 61, right associativity) : state_scope.

(* ================================================================= *)
(** ** features/redaction/replacement.utils.ts *)

(** The part of [@faker-js/faker] the generator calls.  [faker] is a
    module-level singleton holding the state of a pseudo-random generator:
    [faker.seed(n)] replaces that state, every generator reads it and
    leaves a new one.  The generators themselves are the library's and are
    kept abstract.

    [date_birthdate min max refDate] is
    [faker.date.birthdate({ min, max, mode: 'age' })]: in age mode the
    library draws a date between [refDate] minus [max + 1] years and
    [refDate] minus [min] years, and, no [refDate] option being passed and
    [faker.setDefaultRefDate] never being called by this program, [refDate]
    is the current time, [new Date()].  The result is a time value in
    milliseconds. *)
Record FakerLib : Type := mkFakerLib {
  rng : Type;
  faker_seed : option N -> rng;
  person_fullName : rng -> jsstring * rng;
  internet_email : rng -> jsstring * rng;
  phone_number : rng -> jsstring * rng;
  location_streetAddress : rng -> jsstring * rng;
  string_numeric : nat -> rng -> jsstring * rng;
  string_alpha_upper : nat -> rng -> jsstring * rng;
  finance_accountNumber : rng -> jsstring * rng;
  date_birthdate : Z -> Z -> Z -> rng -> Z * rng;
  internet_ipv4 : rng -> jsstring * rng;
  internet_url : rng -> jsstring * rng;
  internet_username : rng -> jsstring * rng
}.

(** What the generator reads from the host besides its arguments: the
    singleton's generator state, the clock ([Date.now()], in
    milliseconds), and the two library functions
    [createHmac('sha256', salt).update(text).digest('hex')] and
    [Date.prototype.toLocaleDateString('en-US')], the latter rendering a
    time value in the time zone of the process. *)
Record Host (F : FakerLib) : Type := mkHost {
  fakerState : rng F;
  now : Z;
  hmacSha256Hex : jsstring -> jsstring -> jsstring;
  toLocaleDateString_enUS : Z -> jsstring
}.

Definition withFakerState {F : FakerLib} (h : Host F) (r : rng F) : Host F :=
  {| fakerState := r;
     now := now h;
     hmacSha256Hex := hmacSha256Hex h;
     toLocaleDateString_enUS := toLocaleDateString_enUS h |}.

(** A computation that uses the faker singleton. *)
Definition Gen (F : FakerLib) (A : Type) : Type := State (rng F) A.

(** The value of one hexadecimal digit. *)
Definition hexDigit (c : N) : option N :=
  (if (48 <=? c) && (c <=? 57) then Some (c - 48)
   else if (97 <=? c) && (c <=? 102) then Some (c - 87)
   else if (65 <=? c) && (c <=? 70) then Some (c - 55)
   else None)%N.

Fixpoint parseHexDigits (acc : option N) (s : jsstring) : option N :=
  match s with
  | [] => acc
  | c :: s' =>
      match hexDigit c with
      | None => acc
      | Some d =>
          parseHexDigits
            (Some (match acc with Some a => 16 * a + d | None => d end)%N) s'
      end
  end.

(** [parseInt(s, 16)] on a string that starts with its digits, as a slice
    of a hexadecimal digest does; [None] is [NaN]. *)
Definition parseInt16 (s : jsstring) : option N := parseHexDigits None s.

Definition dash : jsstring := js "-".

(** The [switch (type)] of [getDeterministicReplacement], after
    [faker.seed(seed)]. *)
Definition replacementFor (F : FakerLib) (h : Host F) (type : jsstring)
  : Gen F jsstring :=
  (if JsString.eqb type (js "PERSON") then person_fullName F
   else if JsString.eqb type (js "EMAIL") then internet_email F
   else if JsString.eqb type (js "PHONE") then phone_number F
   else if JsString.eqb type (js "ADDRESS") then location_streetAddress F
   else if JsString.eqb type (js "SSN") then
     a <- string_numeric F 3 ;; b <- string_numeric F 2 ;;
     c <- string_numeric F 4 ;;
     ret (a ++ dash ++ b ++ dash ++ c)
   else if JsString.eqb type (js "CREDIT_CARD") then
     a <- string_numeric F 4 ;; b <- string_numeric F 4 ;;
     c <- string_numeric F 4 ;; d <- string_numeric F 4 ;;
     ret (a ++ dash ++ b ++ dash ++ c ++ dash ++ d)
   else if JsString.eqb type (js "BANK_ACCOUNT") then
     finance_accountNumber F
   else if JsString.eqb type (js "DATE_OF_BIRTH") then
     d <- date_birthdate F 18 80 (now h) ;;
     ret (toLocaleDateString_enUS h d)
   else if JsString.eqb type (js "PASSPORT") then
     a <- string_alpha_upper F 2 ;; n <- string_numeric F 7 ;;
     ret (a ++ n)
   else if JsString.eqb type (js "DRIVER_LICENSE") then
     a <- string_alpha_upper F 1 ;; n <- string_numeric F 7 ;;
     ret (a ++ n)
   else if JsString.eqb type (js "IP_ADDRESS") then internet_ipv4 F
   else if JsString.eqb type (js "URL") then internet_url F
   else if JsString.eqb type (js "USERNAME") then
     u <- internet_username F ;; ret (js "@" ++ u)
   else if JsString.eqb type (js "PASSWORD") then
     ret (js "[REDACTED_PASSWORD]")
   else if JsString.eqb type (js "MEDICAL_ID") then
     n <- string_numeric F 8 ;; ret (js "MED" ++ n)
   else if JsString.eqb type (js "NATIONAL_ID") then string_numeric F 10
   else if JsString.eqb type (js "TAX_ID") then
     a <- string_numeric F 2 ;; b <- string_numeric F 7 ;;
     ret (a ++ dash ++ b)
   else ret (js "[REDACTED]"))%state.

(** [getDeterministicReplacement(originalText, type, salt)], run on a host:
    the result and the host with the singleton's new state. *)
Definition getDeterministicReplacement (F : FakerLib) (h : Host F)
    (originalText type salt : jsstring) : jsstring * Host F :=
  let hash := hmacSha256Hex h salt originalText in
  let seed := parseInt16 (JsString.slice hash 0 8) in
  let (s, r) := replacementFor h type (faker_seed F seed) in
  (s, withFakerState h r).

Definition getSimpleRedaction (type : jsstring) : jsstring :=
  js "[" ++ type ++ js "]".

(* ================================================================= *)
(** ** features/redaction/redaction.service.ts *)

Inductive FailStrategy : Type := closed | open.

Record RedactionOptions : Type := mkRedactionOptions {
  useDeterministicReplacement : bool;
  salt : jsstring;
  timeoutMs : Z;
  failStrategy : FailStrategy
}.

(** What [redact] can throw: its own [InferenceTimeoutError], carrying the
    timeout, or whatever the inference collaborator rejected with. *)
Inductive RedactError : Type :=
| InferenceTimeoutError (timeoutMs : Z)
| CollaboratorError (reason : jsstring).

Record RedactionResult : Type := mkRedactionResult {
  resultText : jsstring;
  resultEntities : list PiiEntity;
  processingTimeMs : Z
}.

Record InferenceResult : Type := mkInferenceResult {
  inferredEntities : list PiiEntity;
  inferenceTimeMs : Z
}.

(** How a promise of the collaborator ends: fulfilled or rejected after
    [elapsed] milliseconds, or never settled. *)
Inductive Promise (T : Type) : Type :=
| Fulfilled (elapsed : Z) (value : T)
| Rejected (elapsed : Z) (reason : jsstring)
| Pending.
Arguments Fulfilled {T} elapsed value.
Arguments Rejected {T} elapsed reason.
Arguments Pending {T}.

(** [modelSession.pipeline]: the token classifier, an opaque service.
    [pipeline text] is how the one call that a run of [redact] or [detect]
    makes on [text] ends. *)
Definition Pipeline : Type := jsstring -> Promise (list RawToken).

(** [runInference]: awaits the classifier and locates the entities; the
    reported time is the time the classifier took. *)
Definition runInference (toLowerCase : jsstring -> jsstring)
    (pipeline : Pipeline) (text : jsstring) : Promise InferenceResult :=
  match pipeline text with
  | Fulfilled d tokens =>
      Fulfilled d
        {| inferredEntities := groupAndLocateEntities toLowerCase tokens text;
           inferenceTimeMs := d |}
  | Rejected d reason => Rejected d reason
  | Pending => Pending
  end.

(** [runWithTimeout]: the race between the promise and a timer of
    [timeoutMs].  The timer wins exactly when the promise has not settled
    after [timeoutMs] milliseconds. *)
Definition runWithTimeout {T : Type} (promise : Promise T) (timeoutMs : Z)
  : RedactError + T :=
  match promise with
  | Fulfilled d v =>
      if (d <=? timeoutMs)%Z then inr v
      else inl (InferenceTimeoutError timeoutMs)
  | Rejected d reason =>
      if (d <=? timeoutMs)%Z then inl (CollaboratorError reason)
      else inl (InferenceTimeoutError timeoutMs)
  | Pending => inl (InferenceTimeoutError timeoutMs)
  end.

(** [Array.prototype.sort] is stable; insertion from the right is one
    stable sort, and every stable sort returns the same array.
    [compare a b <= 0] keeps [a] before [b]. *)
Fixpoint insertSorted {A : Type} (compare : A -> A -> Z) (x : A)
    (l : list A) : list A :=
  match l with
  | [] => [x]
  | y :: l' =>
      if (compare x y <=? 0)%Z then x :: l
      else y :: insertSorted compare x l'
  end.

Definition sort {A : Type} (compare : A -> A -> Z) (l : list A) : list A :=
  fold_right (insertSorted compare) [] l.

Section RedactionService.

Variable toLowerCase : jsstring -> jsstring.
Variable F : FakerLib.
Variable pipeline : Pipeline.
Variable options : RedactionOptions.

(** The replacement of one entity, as the loop of [applyRedactions]
    computes it. *)
Definition replacementOf (h : Host F) (entity : PiiEntity)
  : jsstring * Host F :=
  if useDeterministicReplacement options then
    getDeterministicReplacement h (text entity) (type entity) (salt options)
  else (getSimpleRedaction (type entity), h).

(** The [for (const entity of sortedEntities)] loop. *)
Fixpoint applyLoop (h : Host F) (result : jsstring)
    (sortedEntities : list PiiEntity) : jsstring * Host F :=
  match sortedEntities with
  | [] => (result, h)
  | entity :: rest =>
      let (replacement, h') := replacementOf h entity in
      applyLoop h'
        (JsString.slice result 0 (start entity) ++ replacement
         ++ JsString.sliceFrom result (end_ entity))
        rest
  end.

Definition sortedEntities (entities : list PiiEntity) : list PiiEntity :=
  sort (fun a b => Z.of_nat (start b) - Z.of_nat (start a))%Z entities.

Definition applyRedactions (h : Host F) (text : jsstring)
    (entities : list PiiEntity) : jsstring * Host F :=
  applyLoop h text (sortedEntities entities).

(** [!text || text.trim().length === 0] *)
Definition isBlank (text : jsstring) : bool :=
  match text with
  | [] => true
  | _ => match JsString.trim text with [] => true | _ => false end
  end.

Definition redact (h : Host F) (text : jsstring)
  : (RedactError + RedactionResult) * Host F :=
  if isBlank text then
    (inr {| resultText := text; resultEntities := [];
            processingTimeMs := 0 |}, h)
  else
    match runWithTimeout (runInference toLowerCase pipeline text)
                         (timeoutMs options) with
    | inr detection =>
        match inferredEntities detection with
        | [] =>
            (inr {| resultText := text; resultEntities := [];
                    processingTimeMs := inferenceTimeMs detection |}, h)
        | _ :: _ =>
            let (redactedText, h') :=
              applyRedactions h text (inferredEntities detection) in
            (inr {| resultText := redactedText;
                    resultEntities := inferredEntities detection;
                    processingTimeMs := inferenceTimeMs detection |}, h')
        end
    | inl (InferenceTimeoutError t) =>
        match failStrategy options with
        | closed => (inl (InferenceTimeoutError t), h)
        | open =>
            (inr {| resultText := text; resultEntities := [];
                    processingTimeMs := timeoutMs options |}, h)
        end
    | inl error => (inl error, h)
    end.

(** [detect]: entities only. *)
Definition detect (text : jsstring) : Promise InferenceResult :=
  if isBlank text then
    Fulfilled 0%Z {| inferredEntities := []; inferenceTimeMs := 0 |}
  else runInference toLowerCase pipeline text.

End RedactionService.

(* ================================================================= *)
(** ** features/proxy/stream.transformer.ts *)

(** The parts of an [OpenAiChatCompletionChunk] the transformer reads.
    [None] stands for an absent, [undefined] or [null] property;
    [deltaContent] is [Some s] exactly when [typeof delta.content] is
    ['string']. *)
Record Delta : Type := mkDelta {
  deltaRole : option jsstring;
  deltaContent : option jsstring
}.

Record ChunkChoice : Type := mkChunkChoice {
  choiceIndex : option Z;
  choiceDelta : option Delta
}.

Record OpenAiChatCompletionChunk : Type := mkChunk {
  chunkId : option jsstring;
  chunkModel : option jsstring;
  chunkCreated : option Z;
  choices : option (list (option ChunkChoice))
}.

Record StreamTransformerOptions : Type := mkStreamOptions {
  maxTokens : nat;
  maxDelayMs : Z
}.

Definition DEFAULT_OPTIONS : StreamTransformerOptions :=
  {| maxTokens := 20; maxDelayMs := 200 |}.

Record Meta : Type := mkMeta {
  metaId : option jsstring;
  metaModel : option jsstring;
  metaCreated : option Z;
  metaIndex : option Z;
  metaRole : option jsstring
}.

(** The object [formatAsOpenAiSSE] serialises; a pushed frame is the
    string [data: ${JSON.stringify(response)}] followed by two line feeds.
    [object] is always ['chat.completion.chunk'] and [finish_reason]
    always [null]. *)
Record DeltaFrame : Type := mkDeltaFrame {
  frameId : option jsstring;
  frameCreated : option Z;
  frameModel : option jsstring;
  frameIndex : Z;
  frameRole : option jsstring;
  frameContent : jsstring
}.

(** What [this.push] is given: a string passed on as it is, or the
    serialisation of a redacted delta. *)
Inductive Pushed : Type :=
| Raw (s : jsstring)
| Frame (f : DeltaFrame).

Definition LF : N := 10.
Definition CR : N := 13.

(** [a ?? b] *)
Definition orElse {A : Type} (a b : option A) : option A :=
  match a with Some _ => a | None => b end.

(** [rawLine.replace(/\r$/, '')] *)
Definition stripCR (rawLine : jsstring) : jsstring :=
  match rev rawLine with
  | c :: r => if N.eqb c CR then rev r else rawLine
  | [] => rawLine
  end.

Definition isTerminal (c : N) : bool :=
  ((c =? 46) || (c =? 33) || (c =? 63))%N.

(** [SENTENCE_BOUNDARY.test(s)] for [/[.!?]\s+|[.!?]$/]. *)
Fixpoint SENTENCE_BOUNDARY (s : jsstring) : bool :=
  match s with
  | [] => false
  | c :: s' =>
      if isTerminal c then
        match s' with
        | [] => true
        | d :: _ => JsString.isWhiteSpace d || SENTENCE_BOUNDARY s'
        end
      else SENTENCE_BOUNDARY s'
  end.

(** [Math.ceil(text.length / 4)] *)
Definition estimateTokens (text : jsstring) : nat := (length text + 3) / 4.

Section PiiRedactionStream.

(** The collaborators of a stream: the redaction service, whose [redact]
    may read and change the state [W] of its host and may throw; the
    clock, given as the sequence of the values that successive calls of
    [Date.now()] return; the scheduler, given by the flushes in flight
    that settle during each awaited call of [redact] (see [flushBuffer]);
    [JSON.parse], where [None] stands for a thrown [SyntaxError] (a value
    that is not an object behaves as a chunk without [choices]). *)
Variable W : Type.
Variable redact : W -> jsstring -> (RedactError + RedactionResult) * W.
Variable clock : nat -> Z.
Variable settles : nat -> list nat.
Variable JSON_parse : jsstring -> option OpenAiChatCompletionChunk.
Variable options : StreamTransformerOptions.

(** The fields of a [PiiRedactionStream], what it has pushed, the
    number of readings of the clock, the state of the host, and the
    flushes in flight: the callback of the flush timer calls [flushBuffer]
    without awaiting it, so the text such a flush has taken from the
    buffer is with [redact] until that call settles, while chunks go on
    being handled.  [flushTimer] says whether a timer is pending. *)
Record StreamState : Type := mkStreamState {
  buffer : jsstring;
  tokenCount : nat;
  lastFlushTime : Z;
  flushTimer : bool;
  lineBuffer : jsstring;
  lastMeta : Meta;
  roleEmitted : bool;
  pushed : list Pushed;
  tick : nat;
  world : W;
  inFlight : list jsstring
}.

(** The fields of a new [PiiRedactionStream]. *)
Definition newStream (w : W) : StreamState :=
  {| buffer := []; tokenCount := 0; lastFlushTime := clock 0;
     flushTimer := false; lineBuffer := [];
     lastMeta := {| metaId := None; metaModel := None; metaCreated := None;
                    metaIndex := None; metaRole := None |};
     roleEmitted := false; pushed := []; tick := 1; world := w;
     inFlight := [] |}.

(** [this.push(x)] *)
Definition push (st : StreamState) (x : Pushed) : StreamState :=
  {| buffer := buffer st; tokenCount := tokenCount st;
     lastFlushTime := lastFlushTime st; flushTimer := flushTimer st;
     lineBuffer := lineBuffer st; lastMeta := lastMeta st;
     roleEmitted := roleEmitted st; pushed := pushed st ++ [x];
     tick := tick st; world := world st; inFlight := inFlight st |}.

(** [extractDeltaContent]: the content, and the metadata as the call
    leaves it. *)
Definition extractDeltaContent (meta : Meta)
    (data : OpenAiChatCompletionChunk) : jsstring * Meta :=
  match choices data with
  | None | Some [] | Some (None :: _) => ([], meta)
  | Some (Some choice :: _) =>
      let meta' :=
        {| metaId := orElse (chunkId data) (metaId meta);
           metaModel := orElse (chunkModel data) (metaModel meta);
           metaCreated := orElse (chunkCreated data) (metaCreated meta);
           metaIndex := orElse (choiceIndex choice) (metaIndex meta);
           metaRole :=
             orElse (match choiceDelta choice with
                     | Some delta => deltaRole delta
                     | None => None
                     end) (metaRole meta) |} in
      match choiceDelta choice with
      | Some {| deltaContent := Some content |} => (content, meta')
      | _ => ([], meta')
      end
  end.

(** [shouldFlush]: the clock is read only when the first two tests
    fail. *)
Definition shouldFlush (st : StreamState) : bool * StreamState :=
  if SENTENCE_BOUNDARY (buffer st) then (true, st)
  else if maxTokens options <=? tokenCount st then (true, st)
  else
    (Z.leb (maxDelayMs options) (clock (tick st) - lastFlushTime st),
     {| buffer := buffer st; tokenCount := tokenCount st;
        lastFlushTime := lastFlushTime st; flushTimer := flushTimer st;
        lineBuffer := lineBuffer st; lastMeta := lastMeta st;
        roleEmitted := roleEmitted st; pushed := pushed st;
        tick := S (tick st); world := world st;
        inFlight := inFlight st |}).

(** [formatAsOpenAiSSE]: the frame, and whether the role has now been
    emitted. *)
Definition formatAsOpenAiSSE (meta : Meta) (roleEmitted : bool)
    (text : jsstring) : DeltaFrame * bool :=
  let injectRole :=
    match metaRole meta with
    | Some (_ :: _) => negb roleEmitted
    | _ => false
    end in
  ({| frameId := metaId meta;
      frameCreated := metaCreated meta;
      frameModel := metaModel meta;
      frameIndex := match metaIndex meta with Some i => i | None => 0%Z end;
      frameRole := if injectRole then metaRole meta else None;
      frameContent := text |},
   if injectRole then true else roleEmitted).

(** The first three statements of [flushBuffer] on a buffer that holds
    text: the text is taken out of the buffer before [redact] is
    called. *)
Definition takeBuffer (st : StreamState) : StreamState :=
  {| buffer := []; tokenCount := 0; lastFlushTime := clock (tick st);
     flushTimer := flushTimer st; lineBuffer := lineBuffer st;
     lastMeta := lastMeta st; roleEmitted := roleEmitted st;
     pushed := pushed st; tick := S (tick st); world := world st;
     inFlight := inFlight st |}.

(** The last three statements of [flushBuffer], from the moment the call
    of [redact] on [textToProcess] settles: the frame is built from the
    metadata of that moment and pushed; the error, if any, is the one
    [redact] threw. *)
Definition emitRedacted (st : StreamState) (textToProcess : jsstring)
  : StreamState * option RedactError :=
  let (result, w') := redact (world st) textToProcess in
  match result with
  | inl error =>
      ({| buffer := buffer st; tokenCount := tokenCount st;
          lastFlushTime := lastFlushTime st; flushTimer := flushTimer st;
          lineBuffer := lineBuffer st; lastMeta := lastMeta st;
          roleEmitted := roleEmitted st; pushed := pushed st;
          tick := tick st; world := w'; inFlight := inFlight st |},
       Some error)
  | inr r =>
      let (frame, emitted) :=
        formatAsOpenAiSSE (lastMeta st) (roleEmitted st) (resultText r) in
      ({| buffer := buffer st; tokenCount := tokenCount st;
          lastFlushTime := lastFlushTime st; flushTimer := flushTimer st;
          lineBuffer := lineBuffer st; lastMeta := lastMeta st;
          roleEmitted := emitted; pushed := pushed st ++ [Frame frame];
          tick := tick st; world := w'; inFlight := inFlight st |},
       None)
  end.

(** A flush the timer started settles: the one at [position] among the
    flushes in flight.  Its frame is pushed now, whatever was pushed since
    the flush took its text; its error, if any, is emitted on the stream.
    A position that names no flush in flight is no event. *)
Definition flushSettled (st : StreamState) (position : nat)
  : StreamState * option RedactError :=
  match nth_error (inFlight st) position with
  | None => (st, None)
  | Some textToProcess =>
      emitRedacted
        {| buffer := buffer st; tokenCount := tokenCount st;
           lastFlushTime := lastFlushTime st; flushTimer := flushTimer st;
           lineBuffer := lineBuffer st; lastMeta := lastMeta st;
           roleEmitted := roleEmitted st; pushed := pushed st;
           tick := tick st; world := world st;
           inFlight := firstn position (inFlight st)
                       ++ skipn (S position) (inFlight st) |}
        textToProcess
  end.

(** Flushes in flight settle one after the other, until one fails. *)
Fixpoint settleAll (st : StreamState) (positions : list nat)
  : StreamState * option RedactError :=
  match positions with
  | [] => (st, None)
  | position :: rest =>
      match flushSettled st position with
      | (st', Some error) => (st', Some error)
      | (st', None) => settleAll st' rest
      end
  end.

(** How an awaited [flushBuffer] ends: it returns; it throws the error of
    its call of [redact]; or, while it waits for [redact], a flush in
    flight fails, and the error emitted ends the stream. *)
Inductive Flush : Type :=
| Returned
| Threw (error : RedactError)
| StreamFailed (error : RedactError).

(** [await this.flushBuffer()] in [_transform] and [_flush].  While the
    call of [redact] is awaited, the flushes in flight that [settles]
    names for this reading of the clock settle, before the awaited call
    does. *)
Definition flushBuffer (st : StreamState) : StreamState * Flush :=
  match buffer st with
  | [] => (st, Returned)
  | _ :: _ =>
      let textToProcess := buffer st in
      match settleAll (takeBuffer st) (settles (tick st)) with
      | (st1, Some error) => (st1, StreamFailed error)
      | (st1, None) =>
          match emitRedacted st1 textToProcess with
          | (st2, Some error) => (st2, Threw error)
          | (st2, None) => (st2, Returned)
          end
      end
  end.

Definition DONE_FRAME : jsstring := js "data: [DONE]" ++ [LF; LF].

(** The body of the [for (const rawLine of lines)] loop of [_transform].
    An error comes out of it from the flush before the terminator, or from
    a flush in flight that fails meanwhile; the inner [try] turns any
    other into a pass-through of the line. *)
Definition processLine (st : StreamState) (rawLine : jsstring)
  : StreamState * option RedactError :=
  let line := stripCR rawLine in
  if negb (JsString.startsWith line (js "data:")) then
    match line with
    | [] => (push st (Raw [LF]), None)
    | _ => (push st (Raw (line ++ [LF])), None)
    end
  else
    let jsonStr := JsString.trim (JsString.sliceFrom line 5) in
    if JsString.eqb jsonStr (js "[DONE]") then
      match flushBuffer st with
      | (st', Returned) => (push st' (Raw DONE_FRAME), None)
      | (st', Threw error) | (st', StreamFailed error) => (st', Some error)
      end
    else
      match JSON_parse jsonStr with
      | None => (push st (Raw (line ++ [LF])), None)
      | Some data =>
          let (content, meta) := extractDeltaContent (lastMeta st) data in
          let st1 :=
            {| buffer := buffer st; tokenCount := tokenCount st;
               lastFlushTime := lastFlushTime st;
               flushTimer := flushTimer st; lineBuffer := lineBuffer st;
               lastMeta := meta; roleEmitted := roleEmitted st;
               pushed := pushed st; tick := tick st; world := world st;
               inFlight := inFlight st |} in
          match content with
          | [] => (push st1 (Raw (line ++ [LF])), None)
          | _ :: _ =>
              let st2 :=
                {| buffer := buffer st1 ++ content;
                   tokenCount := tokenCount st1 + estimateTokens content;
                   lastFlushTime := lastFlushTime st1;
                   flushTimer := flushTimer st1;
                   lineBuffer := lineBuffer st1; lastMeta := lastMeta st1;
                   roleEmitted := roleEmitted st1; pushed := pushed st1;
                   tick := tick st1; world := world st1;
                   inFlight := inFlight st1 |} in
              let (flush, st3) := shouldFlush st2 in
              if flush then
                match flushBuffer st3 with
                | (st4, Returned) => (st4, None)
                | (st4, Threw _) => (push st4 (Raw (line ++ [LF])), None)
                | (st4, StreamFailed error) => (st4, Some error)
                end
              else (st3, None)
          end
      end.

Fixpoint processLines (st : StreamState) (lines : list jsstring)
  : StreamState * option RedactError :=
  match lines with
  | [] => (st, None)
  | rawLine :: rest =>
      match processLine st rawLine with
      | (st', Some error) => (st', Some error)
      | (st', None) => processLines st' rest
      end
  end.

(** [scheduleFlush]: the pending timer, if any, is cancelled, and one is
    armed when the buffer holds text. *)
Definition scheduleFlush (st : StreamState) : StreamState :=
  {| buffer := buffer st; tokenCount := tokenCount st;
     lastFlushTime := lastFlushTime st;
     flushTimer := match buffer st with [] => false | _ => true end;
     lineBuffer := lineBuffer st; lastMeta := lastMeta st;
     roleEmitted := roleEmitted st; pushed := pushed st;
     tick := tick st; world := world st; inFlight := inFlight st |}.

(** [_transform(chunk)]: [chunkStr] is [chunk.toString('utf-8')], the
    chunk decoded on its own.  The error, if any, is the one handed to the
    callback or emitted meanwhile.  The timer armed by the previous call
    can fire while this one awaits [redact]: it then finds the buffer
    empty and does nothing. *)
Definition _transform (st : StreamState) (chunkStr : jsstring)
  : StreamState * option RedactError :=
  let lines := JsString.split LF (lineBuffer st ++ chunkStr) in
  let st1 :=
    {| buffer := buffer st; tokenCount := tokenCount st;
       lastFlushTime := lastFlushTime st; flushTimer := flushTimer st;
       lineBuffer := last lines [];
       lastMeta := lastMeta st; roleEmitted := roleEmitted st;
       pushed := pushed st; tick := tick st; world := world st;
       inFlight := inFlight st |} in
  match processLines st1 (removelast lines) with
  | (st2, Some error) => (st2, Some error)
  | (st2, None) => (scheduleFlush st2, None)
  end.

(** The callback of the timer armed by [scheduleFlush], between two
    chunks: [flushBuffer] is called and not awaited.  The text leaves the
    buffer at once and is in flight from then on. *)
Definition timerFired (st : StreamState) : StreamState :=
  if flushTimer st then
    match buffer st with
    | [] =>
        {| buffer := buffer st; tokenCount := tokenCount st;
           lastFlushTime := lastFlushTime st; flushTimer := false;
           lineBuffer := lineBuffer st; lastMeta := lastMeta st;
           roleEmitted := roleEmitted st; pushed := pushed st;
           tick := tick st; world := world st; inFlight := inFlight st |}
    | _ :: _ =>
        {| buffer := []; tokenCount := 0; lastFlushTime := clock (tick st);
           flushTimer := false; lineBuffer := lineBuffer st;
           lastMeta := lastMeta st; roleEmitted := roleEmitted st;
           pushed := pushed st; tick := S (tick st); world := world st;
           inFlight := inFlight st ++ [buffer st] |}
    end
  else st.

(** [_flush]: the end of the upstream.  What is still in flight when it
    returns is pushed after the end of the stream, if ever, and reaches
    nobody. *)
Definition _flush (st : StreamState) : StreamState * option RedactError :=
  let st1 :=
    {| buffer := buffer st; tokenCount := tokenCount st;
       lastFlushTime := lastFlushTime st; flushTimer := false;
       lineBuffer := [];
       lastMeta := lastMeta st; roleEmitted := roleEmitted st;
       pushed := match lineBuffer st with
                 | [] => pushed st
                 | _ => pushed st ++ [Raw (lineBuffer st)]
                 end;
       tick := tick st; world := world st; inFlight := inFlight st |} in
  match flushBuffer st1 with
  | (st2, Returned) => (st2, None)
  | (st2, Threw error) | (st2, StreamFailed error) => (st2, Some error)
  end.

(** What happens to a stream between its creation and its end: a chunk
    arrives, the flush timer fires, or a flush the timer started
    settles. *)
Inductive StreamEvent : Type :=
| Chunk (chunkStr : jsstring)
| TimerFired
| FlushSettled (position : nat).

Definition streamStep (st : StreamState) (ev : StreamEvent)
  : StreamState * option RedactError :=
  match ev with
  | Chunk chunkStr => _transform st chunkStr
  | TimerFired => (timerFired st, None)
  | FlushSettled position => flushSettled st position
  end.

(** Events are handled one after the other; an error ends the stream. *)
Fixpoint runEvents (st : StreamState) (events : list StreamEvent)
  : StreamState * option RedactError :=
  match events with
  | [] => (st, None)
  | ev :: rest =>
      match streamStep st ev with
      | (st', Some error) => (st', Some error)
      | (st', None) => runEvents st' rest
      end
  end.

(** A whole stream: the events, then the end of the upstream. *)
Definition runStream (w : W) (events : list StreamEvent)
  : StreamState * option RedactError :=
  match runEvents (newStream w) events with
  | (st, Some error) => (st, Some error)
  | (st, None) => _flush st
  end.

End PiiRedactionStream.

(* ================================================================= *)
(** ** Numbers kept as decimal strings *)

(** The scores are integers, or [NaN] when a stored string is not a
    numeral; [None] is [NaN].  The program computes with doubles: its
    sums, and the decimal strings [toString] writes and [parseInt] reads,
    are those of the integers as long as the numbers stay within the safe
    range ([safeInteger]). *)
Definition JsNum : Type := option Z.

(** [Number.isSafeInteger(n)] for an integer: at most 2^53 - 1 in
    absolute value. *)
Definition safeInteger (n : Z) : Prop :=
  (- 9007199254740991 <= n <= 9007199254740991)%Z.

Definition numAdd (a : JsNum) (b : Z) : JsNum :=
  match a with Some x => Some (x + b)%Z | None => None end.

(** [a >= b], false on [NaN]. *)
Definition numGe (a : JsNum) (b : Z) : bool :=
  match a with Some x => (b <=? x)%Z | None => false end.

Fixpoint digitsOfUint (d : Decimal.uint) : jsstring :=
  match d with
  | Decimal.Nil => []
  | Decimal.D0 d' => 48%N :: digitsOfUint d'
  | Decimal.D1 d' => 49%N :: digitsOfUint d'
  | Decimal.D2 d' => 50%N :: digitsOfUint d'
  | Decimal.D3 d' => 51%N :: digitsOfUint d'
  | Decimal.D4 d' => 52%N :: digitsOfUint d'
  | Decimal.D5 d' => 53%N :: digitsOfUint d'
  | Decimal.D6 d' => 54%N :: digitsOfUint d'
  | Decimal.D7 d' => 55%N :: digitsOfUint d'
  | Decimal.D8 d' => 56%N :: digitsOfUint d'
  | Decimal.D9 d' => 57%N :: digitsOfUint d'
  end.

(** [n.toString()] *)
Definition numberToString (n : JsNum) : jsstring :=
  match n with
  | None => js "NaN"
  | Some z =>
      match Z.to_int z with
      | Decimal.Pos d => digitsOfUint d
      | Decimal.Neg d => 45%N :: digitsOfUint d
      end
  end.

(** The longest prefix of decimal digits. *)
Fixpoint parseDigits (s : jsstring) : Decimal.uint :=
  match s with
  | [] => Decimal.Nil
  | c :: s' =>
      match c with
      | 48 => Decimal.D0 (parseDigits s')
      | 49 => Decimal.D1 (parseDigits s')
      | 50 => Decimal.D2 (parseDigits s')
      | 51 => Decimal.D3 (parseDigits s')
      | 52 => Decimal.D4 (parseDigits s')
      | 53 => Decimal.D5 (parseDigits s')
      | 54 => Decimal.D6 (parseDigits s')
      | 55 => Decimal.D7 (parseDigits s')
      | 56 => Decimal.D8 (parseDigits s')
      | 57 => Decimal.D9 (parseDigits s')
      | _ => Decimal.Nil
      end%N
  end.

Definition signedDigits (negative : bool) (body : jsstring) : JsNum :=
  match parseDigits body with
  | Decimal.Nil => None
  | d => Some (Z.of_int (if negative then Decimal.Neg d else Decimal.Pos d))
  end.

(** [parseInt(s, 10)]: leading white space, an optional sign, then the
    digits up to the first other character; [NaN] without a digit. *)
Definition parseInt10 (s : jsstring) : JsNum :=
  match JsString.trimStart s with
  | 45%N :: r => signedDigits true r
  | 43%N :: r => signedDigits false r
  | s' => signedDigits false s'
  end.

(** A total of risk points, [pointsToAdd]: a number, or, from the first
    summand on that is no number, a string.  The only summands that are
    no numbers are members of [Object.prototype]; the string then holds
    the text of a function or ["[object Object]"] and is no numeral: where
    a number is expected it counts as [NaN]. *)
Inductive Points : Type :=
| PNumber (n : Z)
| PString (s : jsstring).

Bind Scope Z_scope with Points.
Coercion PNumber : Z >-> Points.

Definition pointsToString (p : Points) : jsstring :=
  match p with
  | PNumber n => numberToString (Some n)
  | PString s => s
  end.

(** [a + b]: the sum of two numbers, the concatenation of the strings
    the operands convert to otherwise. *)
Definition pointsPlus (a b : Points) : Points :=
  match a, b with
  | PNumber x, PNumber y => PNumber (x + y)
  | _, _ => PString (pointsToString a ++ pointsToString b)
  end.

(* ================================================================= *)
(** ** infrastructure/store/store-client.ts *)

Record Entry : Type := mkEntry {
  value : jsstring;
  expiresAt : option Z
}.

(** A JavaScript [Map] with string keys: the entries in insertion order,
    one per key. *)
Definition JsMap : Type := list (jsstring * Entry).

Fixpoint mapGet (m : JsMap) (key : jsstring) : option Entry :=
  match m with
  | [] => None
  | (k, e) :: m' => if JsString.eqb k key then Some e else mapGet m' key
  end.

(** [m.set(key, e)]: an existing key keeps its place. *)
Fixpoint mapSet (m : JsMap) (key : jsstring) (e : Entry) : JsMap :=
  match m with
  | [] => [(key, e)]
  | (k, e') :: m' =>
      if JsString.eqb k key then (k, e) :: m'
      else (k, e') :: mapSet m' key e
  end.

(** [m.delete(key)]: a key occurs at most once, this removes its entry. *)
Fixpoint mapDelete (m : JsMap) (key : jsstring) : JsMap :=
  match m with
  | [] => []
  | (k, e) :: m' =>
      if JsString.eqb k key then mapDelete m' key
      else (k, e) :: mapDelete m' key
  end.

Definition mapHas (m : JsMap) (key : jsstring) : bool :=
  match mapGet m key with Some _ => true | None => false end.

(** The operations of [StoreClient] over a store of state [S]. *)
Record StoreClient (S : Type) : Type := mkStoreClient {
  get : jsstring -> State S (option jsstring);
  set : jsstring -> jsstring -> option Z -> State S unit;
  incr : jsstring -> State S JsNum;
  expire : jsstring -> Z -> State S bool;
  hincrby : jsstring -> jsstring -> Z -> State S JsNum;
  hget : jsstring -> jsstring -> State S (option jsstring);
  del : jsstring -> State S Z
}.

(** An in-memory store and the clock it reads: [reads] counts the calls
    of [Date.now()] made so far. *)
Record InMemoryStore : Type := mkInMemoryStore {
  store : JsMap;
  reads : nat
}.

Definition maxSize : N := 10000.

(** Truthiness of a number that may be absent: neither [null] /
    [undefined] nor zero. *)
Definition truthy (n : option Z) : bool :=
  match n with Some z => negb (z =? 0)%Z | None => false end.

Section InMemoryStoreOps.

(** The values successive calls of [Date.now()] return. *)
Variable clock : nat -> Z.

Definition Date_now : State InMemoryStore Z :=
  fun s => (clock (reads s), {| store := store s; reads := S (reads s) |}).

Definition getStore : State InMemoryStore JsMap := fun s => (store s, s).

Definition putStore (m : JsMap) : State InMemoryStore unit :=
  fun s => (tt, {| store := m; reads := reads s |}).

Definition mem_get (key : jsstring) : State InMemoryStore (option jsstring) :=
  (m <- getStore ;;
   match mapGet m key with
   | None => ret None
   | Some entry =>
       if truthy (expiresAt entry) then
         now <- Date_now ;;
         if (match expiresAt entry with
             | Some e => (e <? now)%Z
             | None => false
             end)
         then putStore (mapDelete m key) ;;; ret None
         else ret (Some (value entry))
       else ret (Some (value entry))
   end)%state.

Definition mem_set (key value : jsstring) (ttlSeconds : option Z)
  : State InMemoryStore unit :=
  (m <- getStore ;;
   (if (maxSize <=? N.of_nat (length m))%N then
      match m with
      | (firstKey, _) :: _ => putStore (mapDelete m firstKey)
      | [] => ret tt
      end
    else ret tt) ;;;
   m' <- getStore ;;
   if truthy ttlSeconds then
     now <- Date_now ;;
     putStore (mapSet m' key
                 {| value := value;
                    expiresAt :=
                      match ttlSeconds with
                      | Some t => Some (now + t * 1000)%Z
                      | None => None
                      end |})
   else putStore (mapSet m' key {| value := value; expiresAt := None |}))%state.

Definition mem_incr (key : jsstring) : State InMemoryStore JsNum :=
  (current <- mem_get key ;;
   let newValue :=
     numberToString
       (numAdd (parseInt10 (match current with
                            | Some ((_ :: _) as c) => c
                            | _ => js "0"
                            end)) 1) in
   m <- getStore ;;
   ttlSeconds <-
     match mapGet m key with
     | Some entry =>
         if truthy (expiresAt entry) then
           now <- Date_now ;;
           ret (match expiresAt entry with
                | Some e => Some (Z.max 0 ((e - now) / 1000))
                | None => None
                end)
         else ret None
     | None => ret None
     end ;;
   mem_set key newValue ttlSeconds ;;;
   ret (parseInt10 newValue))%state.

Definition mem_expire (key : jsstring) (ttlSeconds : Z)
  : State InMemoryStore bool :=
  (m <- getStore ;;
   match mapGet m key with
   | None => ret false
   | Some entry =>
       now <- Date_now ;;
       putStore (mapSet m key
                   {| value := value entry;
                      expiresAt := Some (now + ttlSeconds * 1000)%Z |}) ;;;
       ret true
   end)%state.

Definition hashKey (key field : jsstring) : jsstring :=
  key ++ js ":" ++ field.

Definition mem_hincrby (key field : jsstring) (increment : Z)
  : State InMemoryStore JsNum :=
  (current <- mem_get (hashKey key field) ;;
   let newValue :=
     numAdd (parseInt10 (match current with
                         | Some ((_ :: _) as c) => c
                         | _ => js "0"
                         end)) increment in
   mem_set (hashKey key field) (numberToString newValue) None ;;;
   ret newValue)%state.

Definition mem_hget (key field : jsstring)
  : State InMemoryStore (option jsstring) :=
  mem_get (hashKey key field).

Definition mem_del (key : jsstring) : State InMemoryStore Z :=
  (m <- getStore ;;
   putStore (mapDelete m key) ;;;
   ret (if mapHas m key then 1 else 0)%Z)%state.

(** [new InMemoryStore()] behind the [StoreClient] interface. *)
Definition inMemoryClient : StoreClient InMemoryStore :=
  {| get := mem_get; set := mem_set; incr := mem_incr;
     expire := mem_expire; hincrby := mem_hincrby; hget := mem_hget;
     del := mem_del |}.

End InMemoryStoreOps.

(* ================================================================= *)
(** ** features/session/session.store.ts *)

Definition keyPrefix : jsstring := js "session:".
Definition riskPrefix : jsstring := js "risk:".

(** [k] times the same computation, one after the other. *)
Fixpoint repeatM {S A : Type} (k : nat) (m : State S A) : State S unit :=
  match k with
  | O => ret tt
  | S k' => (m ;;; repeatM k' m)%state
  end.

(** [Math.ceil(a / 1000)] on an integer. *)
Definition ceilDiv1000 (a : Z) : Z := (- ((- a) / 1000))%Z.

Section SessionStore.

Variable S : Type.
Variable client : StoreClient S.

(** [points > 1] is false for a [points] that is no number: see
    [Points]. *)
Definition incrementRisk (sessionId : jsstring) (points : Points)
    (windowMs : Z) : State S JsNum :=
  (let key := riskPrefix ++ sessionId in
   newScore <- incr client key ;;
   (match newScore with
    | Some 1%Z =>
        let windowSeconds := ceilDiv1000 windowMs in
        expire client key windowSeconds ;;; ret tt
    | _ => ret tt
    end) ;;;
   match points with
   | PNumber n =>
       if (1 <? n)%Z then
         repeatM (Z.to_nat (n - 1)) (incr client key) ;;;
         ret (numAdd (numAdd newScore n) (-1))
       else ret newScore
   | PString _ => ret newScore
   end)%state.

Definition getRiskScore (sessionId : jsstring) : State S JsNum :=
  (score <- get client (riskPrefix ++ sessionId) ;;
   ret (match score with
        | Some ((_ :: _) as s) => parseInt10 s
        | _ => Some 0%Z
        end))%state.

Definition storeIsBanned (sessionId : jsstring) (threshold : Z)
  : State S bool :=
  (score <- getRiskScore sessionId ;;
   ret (numGe score threshold))%state.

Definition storeClearRisk (sessionId : jsstring) : State S unit :=
  (del client (riskPrefix ++ sessionId) ;;; ret tt)%state.

Definition clearSession (sessionId : jsstring) : State S unit :=
  (del client (keyPrefix ++ sessionId) ;;;
   del client (riskPrefix ++ sessionId) ;;; ret tt)%state.

Definition sessionGet (sessionId field : jsstring)
  : State S (option jsstring) :=
  hget client (keyPrefix ++ sessionId) field.

Definition sessionIncrement (sessionId field : jsstring) (amount : Z)
  : State S JsNum :=
  hincrby client (keyPrefix ++ sessionId) field amount.

(* ================================================================= *)
(** ** features/session/risk-engine.service.ts *)

Record RiskConfig : Type := mkRiskConfig {
  threshold : Z;
  windowMs : Z
}.

Record RiskAssessment : Type := mkRiskAssessment {
  riskScore : JsNum;
  riskIsBanned : bool;
  pointsAdded : Points
}.

Variable config : RiskConfig.

(** [PII_RISK_POINTS[entity.type] || 5]: a weight of the table, 5 for a
    type the table has nothing under, and the member of
    [Object.prototype] for a type that names one (a function or an
    object, which is truthy). *)
Definition riskPoints (entity : PiiEntity) : Points :=
  match getProperty PII_RISK_POINTS (type entity) with
  | Own p => if (p =? 0)%Z then 5%Z else p
  | Inherited name => PString (inheritedToString name)
  | Absent => 5%Z
  end.

(** The [for (const entity of entities)] loop of [assessRisk]. *)
Definition pointsToAdd (entities : list PiiEntity) : Points :=
  fold_left (fun acc entity => pointsPlus acc (riskPoints entity))
            entities 0%Z.

Definition assessRisk (sessionId : jsstring) (entities : list PiiEntity)
  : State S RiskAssessment :=
  match entities with
  | [] =>
      (currentScore <- getRiskScore sessionId ;;
       ret {| riskScore := currentScore;
              riskIsBanned := numGe currentScore (threshold config);
              pointsAdded := 0 |})%state
  | _ :: _ =>
      (let points := pointsToAdd entities in
       newScore <- incrementRisk sessionId points (windowMs config) ;;
       ret {| riskScore := newScore;
              riskIsBanned := numGe newScore (threshold config);
              pointsAdded := points |})%state
  end.

Definition isBanned (sessionId : jsstring) : State S bool :=
  storeIsBanned sessionId (threshold config).

Definition clearRisk (sessionId : jsstring) : State S unit :=
  storeClearRisk sessionId.

End SessionStore.

(* ================================================================= *)
(** ** infrastructure/store/store-client.ts, continued *)

(** [quit]: [this.store.clear()]. *)
Definition mem_quit : State InMemoryStore unit := putStore [].

(* ================================================================= *)
(** ** Buffers of bytes *)

(** [Buffer.from(s)]: the UTF-8 encoding of a string.  A surrogate pair
    is one code point of four bytes; a surrogate without its partner is
    encoded as U+FFFD. *)
Fixpoint utf8 (s : jsstring) : list N :=
  match s with
  | [] => []
  | c :: s' =>
      (if c <? 128 then c :: utf8 s'
       else if c <? 2048 then
         (192 + c / 64) :: (128 + c mod 64) :: utf8 s'
       else if (55296 <=? c) && (c <=? 56319) then
         match s' with
         | d :: s'' =>
             if (56320 <=? d) && (d <=? 57343) then
               let cp := 65536 + (c - 55296) * 1024 + (d - 56320) in
               (240 + cp / 262144) :: (128 + (cp / 4096) mod 64)
               :: (128 + (cp / 64) mod 64) :: (128 + cp mod 64) :: utf8 s''
             else 239 :: 191 :: 189 :: utf8 s'
         | [] => [239; 191; 189]
         end
       else if (56320 <=? c) && (c <=? 57343) then
         239 :: 191 :: 189 :: utf8 s'
       else
         (224 + c / 4096) :: (128 + (c / 64) mod 64) :: (128 + c mod 64)
         :: utf8 s')%N
  end.

(** The character of a six-bit value in the base64 alphabet. *)
Definition base64Char (n : N) : N :=
  (if n <? 26 then 65 + n
   else if n <? 52 then 97 + (n - 26)
   else if n <? 62 then 48 + (n - 52)
   else if n =? 62 then 43
   else 47)%N.

(** [buffer.toString('base64')], with padding. *)
Fixpoint base64 (bytes : list N) : jsstring :=
  match bytes with
  | [] => []
  | [a] =>
      [base64Char (a / 4); base64Char ((a mod 4) * 16); 61; 61]%N
  | [a; b] =>
      [base64Char (a / 4); base64Char ((a mod 4) * 16 + b / 16);
       base64Char ((b mod 16) * 4); 61]%N
  | a :: b :: c :: rest =>
      (base64Char (a / 4) :: base64Char ((a mod 4) * 16 + b / 16)
       :: base64Char ((b mod 16) * 4 + c / 64) :: base64Char (c mod 64)
       :: base64 rest)%N
  end.

(* ================================================================= *)
(** ** features/session/risk-engine.service.ts, continued *)

(** The value of a request header: a string, or an array of strings. *)
Inductive HeaderValue : Type :=
| HeaderString (s : jsstring)
| HeaderArray (values : list jsstring).

(** The headers of a request: a header that is absent or [undefined] has
    no entry. *)
Definition Headers : Type := list (jsstring * HeaderValue).

(** The identifier made of an [Authorization] header. *)
Definition authSessionId (authStr : jsstring) : jsstring :=
  js "auth:" ++ JsString.slice (base64 (utf8 authStr)) 0 32.

(** [extractSessionId(headers, ip)]: the empty string is falsy, an array
    is truthy whatever it holds. *)
Definition extractSessionId (headers : Headers) (ip : jsstring) : jsstring :=
  match lookup headers (js "x-api-key") with
  | Some (HeaderString ((_ :: _) as apiKey)) => apiKey
  | Some (HeaderArray (first :: _)) => first
  | Some (HeaderArray []) => ip
  | _ =>
      match lookup headers (js "authorization") with
      | Some (HeaderString ((_ :: _) as auth)) => authSessionId auth
      | Some (HeaderArray (first :: _)) => authSessionId first
      | Some (HeaderArray []) => authSessionId []
      | _ => js "ip:" ++ ip
      end
  end.

(* ================================================================= *)
(** ** shared/types: the Gemini content types *)

Inductive GeminiRole : Type := user | model.

Record InlineData : Type := mkInlineData {
  mimeType : jsstring;
  data : jsstring
}.

Record GeminiPart : Type := mkGeminiPart {
  partText : option jsstring;
  inlineData : option InlineData
}.

Record GeminiContent : Type := mkGeminiContent {
  parts : list GeminiPart;
  role : option GeminiRole
}.

(** [parts.filter(...).map(...).join('')] *)
Definition extractTextFromParts (parts : list GeminiPart) : jsstring :=
  concat
    (map (fun part => match partText part with
                      | Some t => t
                      | None => []
                      end)
         (filter (fun part => match partText part with
                              | Some _ => true
                              | None => false
                              end) parts)).

(** [createTextContent(text, role = 'user')]; [None] is the argument
    left out. *)
Definition createTextContent (text : jsstring) (role : option GeminiRole)
  : GeminiContent :=
  {| role := Some (match role with Some r => r | None => user end);
     parts := [{| partText := Some text; inlineData := None |}] |}.

(* ================================================================= *)
(** ** engine/model-loader.ts *)

Section ModelLoader.

(** [TokenClassificationPipeline], and the factory [pipeline] of the
    transformers library called with the task 'token-classification', a
    model identifier and the [quantized] option: it resolves to a
    pipeline or rejects with a reason. *)
Variable TokenClassificationPipeline : Type.
Variable createPipeline :
  jsstring -> bool -> jsstring + TokenClassificationPipeline.
Variable clock : nat -> Z.

(** The module state, with what the module has done so far: the factory
    calls made, the lines written to the console, and the number of clock
    readings. *)
Record LoaderState : Type := mkLoaderState {
  pipelineInstance : option TokenClassificationPipeline;
  factoryCalls : list (jsstring * bool);
  console : list jsstring;
  clockReads : nat
}.

Definition log (line : jsstring) (st : LoaderState) : LoaderState :=
  {| pipelineInstance := pipelineInstance st;
     factoryCalls := factoryCalls st;
     console := console st ++ [line];
     clockReads := clockReads st |}.

Definition booleanToString (b : bool) : jsstring :=
  if b then js "true" else js "false".

(** [loadModel(modelId, options)], awaited: the session (its pipeline) or
    the rejection of the factory.  [quantized] is [options.quantized],
    [None] when it is absent. *)
Definition loadModel (modelId : jsstring) (quantized : option bool)
    (st : LoaderState)
  : (jsstring + TokenClassificationPipeline) * LoaderState :=
  match pipelineInstance st with
  | Some p => (inr p, log (js "[WARN] Model already loaded") st)
  | None =>
      let st1 :=
        log (js "[INFO] Loading PII detection model: " ++ modelId
             ++ js "...") st in
      let quantized' := match quantized with Some q => q | None => true end in
      let st2 :=
        log (js "[INFO] Quantized model: " ++ booleanToString quantized')
            st1 in
      let st3 :=
        log (js "   (First run will download and cache the model)") st2 in
      let startTime := clock (clockReads st3) in
      let st4 :=
        {| pipelineInstance := None;
           factoryCalls := factoryCalls st3 ++ [(modelId, quantized')];
           console := console st3;
           clockReads := S (clockReads st3) |} in
      match createPipeline modelId quantized' with
      | inl reason => (inl reason, st4)
      | inr p =>
          let loadTime := (clock (clockReads st4) - startTime)%Z in
          (inr p,
           log (js "[OK] Model loaded in " ++ numberToString (Some loadTime)
                ++ js "ms")
             {| pipelineInstance := Some p;
                factoryCalls := factoryCalls st4;
                console := console st4;
                clockReads := S (clockReads st4) |})
      end
  end.

(** [getModelPipeline()] *)
Definition getModelPipeline (st : LoaderState)
  : jsstring + TokenClassificationPipeline :=
  match pipelineInstance st with
  | Some p => inr p
  | None => inl (js "Model not loaded. Call loadModel() first.")
  end.

End ModelLoader.

(* ================================================================= *)
(** * Specification-level definitions *)

(** ** Entity spans *)

(** The interval test of the specification. *)
Definition overlaps (a b : PiiEntity) : Prop :=
  start a < end_ b /\ end_ a > start b.

Definition span (e : PiiEntity) : nat * nat := (start e, end_ e).

(** Pairwise disjointness, by positions, as the specification states it. *)
Definition nonOverlapping (es : list PiiEntity) : Prop :=
  forall i j a b, i <> j -> nth_error es i = Some a ->
                  nth_error es j = Some b -> ~ overlaps a b.

(** [entity.text], named for statements that bind a [text] of their own. *)
Definition entityText (entity : PiiEntity) : jsstring := text entity.

(** The invariant of the data model for one entity of [text]. *)
Definition inBounds (text : jsstring) (e : PiiEntity) : Prop :=
  0 <= start e < end_ e /\ end_ e <= length text.

(** The loop invariant of [groupAndLocateEntities]: [usedRanges] lists the
    spans of [entities], which are pairwise disjoint and each satisfy
    whatever [finalizeGroup] guarantees ([Q]). *)
Definition locatorInv (Q : PiiEntity -> Prop) (es : list PiiEntity)
    (used : list (nat * nat)) : Prop :=
  used = map span es /\
  ForallOrdPairs (fun a b => ~ overlaps a b) es /\
  Forall Q es.

(** ** Applying replacements *)

(** The text in which every span is replaced: [es] is in ascending order of
    offsets; the characters of [text] between [cursor] and [limit] that lie
    in no span are copied, each span is replaced by [repl]. *)
Fixpoint splice (repl : PiiEntity -> jsstring) (text : jsstring)
    (cursor limit : nat) (es : list PiiEntity) : jsstring :=
  match es with
  | [] => JsString.slice text cursor limit
  | e :: es' =>
      JsString.slice text cursor (start e) ++ repl e
      ++ splice repl text (end_ e) limit es'
  end.

(** The loop of [applyRedactions] with the replacements given by a
    function. *)
Fixpoint applyPure (repl : PiiEntity -> jsstring) (result : jsstring)
    (ds : list PiiEntity) : jsstring :=
  match ds with
  | [] => result
  | e :: ds' =>
      applyPure repl
        (JsString.slice result 0 (start e) ++ repl e
         ++ JsString.sliceFrom result (end_ e)) ds'
  end.

(** Processing order: every entity ends where the text is still
    untouched, at or before the start of the one processed before it. *)
Fixpoint descChain (limit : nat) (ds : list PiiEntity) : Prop :=
  match ds with
  | [] => True
  | e :: ds' => start e < end_ e /\ end_ e <= limit /\ descChain (start e) ds'
  end.

(** The collaborator has not answered [timeoutMs] milliseconds after the
    call. *)
Definition exceedsTimeout {T : Type} (p : Promise T) (timeoutMs : Z) : Prop :=
  match p with
  | Fulfilled d _ | Rejected d _ => (timeoutMs < d)%Z
  | Pending => True
  end.

(** ** Streams *)

(** [head ++ l] in front of the first line of [lines]. *)
Definition joinHead (head : jsstring) (lines : list jsstring)
  : list jsstring :=
  match lines with
  | l :: ls => (head ++ l) :: ls
  | [] => [head]
  end.

(** The contents of the redacted delta frames among what was pushed. *)
Definition frameContents (out : list Pushed) : list jsstring :=
  flat_map (fun x => match x with
                     | Frame f => [frameContent f]
                     | Raw _ => []
                     end) out.

Definition noMeta : Meta :=
  {| metaId := None; metaModel := None; metaCreated := None;
     metaIndex := None; metaRole := None |}.

(** Everything the upstream sent, as one string: the chunks, each
    decoded on its own, joined. *)
Definition received (events : list StreamEvent) : jsstring :=
  flat_map (fun ev => match ev with
                      | Chunk chunkStr => chunkStr
                      | TimerFired | FlushSettled _ => []
                      end) events.

(** Every flush the timer starts settles before anything else happens to
    the stream. *)
Inductive timely : list StreamEvent -> Prop :=
| timely_nil : timely []
| timely_chunk (chunkStr : jsstring) (rest : list StreamEvent) :
    timely rest -> timely (Chunk chunkStr :: rest)
| timely_timer (rest : list StreamEvent) :
    timely rest -> timely (TimerFired :: FlushSettled 0 :: rest).

(** This line is the terminator frame. *)
Definition isDoneLine (rawLine : jsstring) : bool :=
  JsString.startsWith (stripCR rawLine) (js "data:")
  && JsString.eqb (JsString.trim (JsString.sliceFrom (stripCR rawLine) 5))
                  (js "[DONE]").

Section StreamSpecification.

Variable W : Type.
Variable redact : W -> jsstring -> (RedactError + RedactionResult) * W.
Variable JSON_parse : jsstring -> option OpenAiChatCompletionChunk.

(** The text content of the delta a complete line carries: empty for a
    line that is no [data:] line, for the terminator, for a payload that
    does not parse and for a delta without text. *)
Definition lineDelta (rawLine : jsstring) : jsstring :=
  let line := stripCR rawLine in
  if negb (JsString.startsWith line (js "data:")) then []
  else
    let jsonStr := JsString.trim (JsString.sliceFrom line 5) in
    if JsString.eqb jsonStr (js "[DONE]") then []
    else match JSON_parse jsonStr with
         | None => []
         | Some data => fst (extractDeltaContent noMeta data)
         end.

(** The concatenation of the text contents of all input deltas: those of
    the complete lines of what was received. *)
Definition inputText (events : list StreamEvent) : jsstring :=
  concat (map lineDelta
            (removelast (JsString.split LF (received events)))).




End StreamSpecification.

(** ** Session risk *)

(** The record of [key] as a reader sees it at time [t]: nothing once the
    entry has expired. *)
Definition liveAt (m : JsMap) (key : jsstring) (t : Z) : option Entry :=
  match mapGet m key with
  | Some entry =>
      if truthy (expiresAt entry)
         && match expiresAt entry with
            | Some e => (e <? t)%Z
            | None => false
            end
      then None else Some entry
  | None => None
  end.

(** The score a stored value stands for, as [getRiskScore] reads it. *)
Definition scoreOf (v : option jsstring) : JsNum :=
  match v with
  | Some ((_ :: _) as s) => parseInt10 s
  | _ => Some 0%Z
  end.

(** The weight of a type: its entry in the table, 5 when it has none. *)
Definition weight (type : jsstring) : Z :=
  match lookup PII_RISK_POINTS type with
  | Some p => p
  | None => 5%Z
  end.

Definition sumOfWeights (entities : list PiiEntity) : Z :=
  fold_right Z.add 0%Z (map (fun e => weight (type e)) entities).

(** The session has no risk record a reader can see at time [t]: none was
    ever written, it was cleared, or it has expired. *)
Definition noRiskRecord (s : InMemoryStore) (sessionId : jsstring) (t : Z)
  : Prop :=
  liveAt (store s) (riskPrefix ++ sessionId) t = None.

(** The calls a program can make on a [SessionStore]. *)
Inductive SessionCall : Type :=
| CallGet (sessionId field : jsstring)
| CallIncrement (sessionId field : jsstring) (amount : Z)
| CallIncrementRisk (sessionId : jsstring) (points windowMs : Z)
| CallGetRiskScore (sessionId : jsstring)
| CallIsBanned (sessionId : jsstring) (threshold : Z)
| CallClearRisk (sessionId : jsstring)
| CallClearSession (sessionId : jsstring).

(** The store after a call, whatever it returned. *)
Definition runCall {S : Type} (client : StoreClient S) (c : SessionCall)
    (s : S) : S :=
  match c with
  | CallGet id field => snd (sessionGet client id field s)
  | CallIncrement id field amount =>
      snd (sessionIncrement client id field amount s)
  | CallIncrementRisk id points windowMs =>
      snd (incrementRisk client id points windowMs s)
  | CallGetRiskScore id => snd (getRiskScore client id s)
  | CallIsBanned id threshold => snd (storeIsBanned client id threshold s)
  | CallClearRisk id => snd (storeClearRisk client id s)
  | CallClearSession id => snd (clearSession client id s)
  end.

Definition runCalls {S : Type} (client : StoreClient S)
    (calls : list SessionCall) (s : S) : S :=
  fold_left (fun s c => runCall client c s) calls s.

(** No call of [calls] is [incrementRisk] on [sessionId]. *)
Definition neverIncremented (sessionId : jsstring)
    (calls : list SessionCall) : Prop :=
  forall points windowMs,
    ~ In (CallIncrementRisk sessionId points windowMs) calls.

(** [absent k s]: the map of [s] has no entry for [k]; a computation
    preserves this when it leaves no entry for [k] where it found none. *)
Definition absent (k : jsstring) (s : InMemoryStore) : Prop :=
  mapGet (store s) k = None.

Definition preserves {A : Type} (k : jsstring) (m : State InMemoryStore A)
  : Prop :=
  forall s, absent k s -> absent k (snd (m s)).

(** The premise of the property of never-seen sessions: [s] was reached
    from a new store without any [incrementRisk] on the session, or by
    clearing its risk, or it holds an entry of the session that has
    expired when the clock is read next. *)
Definition unseen (clock : nat -> Z) (sessionId : jsstring)
    (s : InMemoryStore) : Prop :=
  (exists calls,
     neverIncremented sessionId calls /\
     s = runCalls (inMemoryClient clock) calls {| store := []; reads := 0 |})
  \/ (exists s0, s = snd (clearRisk (inMemoryClient clock) sessionId s0))
  \/ (exists entry e,
        mapGet (store s) (riskPrefix ++ sessionId) = Some entry /\
        expiresAt entry = Some e /\ e <> 0%Z /\ (e < clock (reads s))%Z).

(** The map [set] writes into: a full map loses its oldest key first. *)
Definition evict (m : JsMap) : JsMap :=
  if (maxSize <=? N.of_nat (length m))%N then
    match m with
    | (firstKey, _) :: _ => mapDelete m firstKey
    | [] => m
    end
  else m.


(* ================================================================= *)
(** * Further specification-level definitions *)

(** ** Entity Locator *)

(** [target] occurs in [s] at offset [p]. *)
Definition occursAt (s target : jsstring) (p : nat) : Prop :=
  p <= length s /\ JsString.startsWith (skipn p s) target = true.

(** The token carries a label under which the table has a value, its own
    or an inherited one: it opens or continues a group. *)
Definition labelled (token : RawToken) : bool :=
  match parseLabel (entity token) with
  | Some ((_ :: _) as l) =>
      match truthyProperty (getProperty LABEL_TO_PII_TYPE l) with
      | Some _ => true
      | None => false
      end
  | _ => false
  end.

(** ** Streams *)

(** The strings that were pushed as they are, joined. *)
Definition rawText (out : list Pushed) : jsstring :=
  flat_map (fun x => match x with
                     | Raw s => s
                     | Frame _ => []
                     end) out.

(** The redacted delta frames that carry a role. *)
Definition roleFrames (out : list Pushed) : list DeltaFrame :=
  flat_map (fun x => match x with
                     | Frame f => match frameRole f with
                                  | Some _ => [f]
                                  | None => []
                                  end
                     | Raw _ => []
                     end) out.

(** What is pushed for a complete line that carries no text: the
    terminator frame for a terminator line, the line without its carriage
    return and with a line feed otherwise. *)
Definition passed (rawLine : jsstring) : jsstring :=
  if isDoneLine rawLine then DONE_FRAME else stripCR rawLine ++ [LF].

(** The state of a stream between two lines: at most one frame carried
    the role, the token count covers the buffer, and a buffer that holds
    text is below the token limit and holds no sentence boundary. *)
Definition tidy (W : Type) (options : StreamTransformerOptions)
    (st : StreamState W) : Prop :=
  length (roleFrames (pushed st)) = (if roleEmitted st then 1 else 0) /\
  length (buffer st) <= 4 * tokenCount st /\
  (buffer st = [] \/
   (tokenCount st < maxTokens options /\
    SENTENCE_BOUNDARY (buffer st) = false)).

(** A stream that has received [S], none of whose complete lines carried
    text: the partial last line is carried over, the complete lines have
    been passed on, nothing is buffered or in flight and the redaction
    service has not been called. *)
Definition quiet (W : Type) (w : W) (st : StreamState W) (S : jsstring)
  : Prop :=
  lineBuffer st = last (JsString.split LF S) [] /\
  buffer st = [] /\ flushTimer st = false /\ world st = w /\
  pushed st
  = map (fun l => Raw (passed l)) (removelast (JsString.split LF S)) /\
  inFlight st = [].

(** ** The in-memory store *)

(** The calls a program can make on an [InMemoryStore]. *)
Inductive StoreCall : Type :=
| OpGet (key : jsstring)
| OpSet (key value : jsstring) (ttlSeconds : option Z)
| OpIncr (key : jsstring)
| OpExpire (key : jsstring) (ttlSeconds : Z)
| OpHincrby (key field : jsstring) (increment : Z)
| OpHget (key field : jsstring)
| OpDel (key : jsstring)
| OpQuit.

(** The store after a call, whatever it returned. *)
Definition runStoreCall (clock : nat -> Z) (c : StoreCall)
    (s : InMemoryStore) : InMemoryStore :=
  match c with
  | OpGet key => snd (mem_get clock key s)
  | OpSet key value ttlSeconds => snd (mem_set clock key value ttlSeconds s)
  | OpIncr key => snd (mem_incr clock key s)
  | OpExpire key ttlSeconds => snd (mem_expire clock key ttlSeconds s)
  | OpHincrby key field increment =>
      snd (mem_hincrby clock key field increment s)
  | OpHget key field => snd (mem_hget clock key field s)
  | OpDel key => snd (mem_del key s)
  | OpQuit => snd (mem_quit s)
  end.

Definition runStoreCalls (clock : nat -> Z) (calls : list StoreCall)
    (s : InMemoryStore) : InMemoryStore :=
  fold_left (fun s c => runStoreCall clock c s) calls s.

(** A computation keeps a property of the map. *)
Definition keeps {A : Type} (P : JsMap -> Prop)
    (m : State InMemoryStore A) : Prop :=
  forall s, P (store s) -> P (store (snd (m s))).

(** The map holds at most [maxSize] entries, one per key. *)
Definition bounded (m : JsMap) : Prop :=
  (N.of_nat (length m) <= maxSize)%N /\ NoDup (map fst m).

(** The map has room for [key]: writing it evicts nothing. *)
Definition roomFor (key : jsstring) (m : JsMap) : Prop :=
  (N.of_nat (length m) < maxSize)%N /\
  (mapHas m key = false -> (N.of_nat (length m) + 1 < maxSize)%N).

(** The map still has what [m0] had under [k], and room for [key]. *)
Definition apartFrom (k key : jsstring) (m0 m : JsMap) : Prop :=
  mapGet m k = mapGet m0 k /\ roomFor key m.

(* ================================================================= *)
(** * Concrete inputs and stand-ins for the collaborators *)

Definition tokA : RawToken :=
  {| entity := js "B-EMAIL"; word := js " test@example.com";
     score := 0x1.e666666666666p-1%float; index := 0 |}.

Definition tokAlice (i : Z) : RawToken :=
  {| entity := js "B-GIVENNAME"; word := js " Alice";
     score := 0x1.e666666666666p-1%float; index := i |}.

(** The text "Ipek Bob" written with U+0130 (capital I with dot above)
    as its first letter. *)
Definition text_ipek : jsstring := 304%N :: js "pek Bob".

Definition tok_bob : RawToken :=
  {| entity := js "B-GIVENNAME"; word := js " Bob";
     score := 0x1.e666666666666p-1%float; index := 5 |}.

(** A stand-in for the faker library, to run the generator on concrete
    inputs: the generator state is a counter, the generated values are
    fixed, and the birth date drawn is the latest one the age window
    admits, [min] years of 365 days before the reference date.  No general
    statement depends on it. *)
Definition stubFaker : FakerLib :=
  {| rng := N;
     faker_seed := fun s => match s with Some n => n | None => 0%N end;
     person_fullName := fun r => (js "Jane Doe", N.succ r);
     internet_email := fun r => (js "jane@example.org", N.succ r);
     phone_number := fun r => (js "555-0100", N.succ r);
     location_streetAddress := fun r => (js "1 Main Street", N.succ r);
     string_numeric := fun n r => (repeat 48%N n, N.succ r);
     string_alpha_upper := fun n r => (repeat 65%N n, N.succ r);
     finance_accountNumber := fun r => (js "00000000", N.succ r);
     date_birthdate := fun min max refDate r =>
                         ((refDate - min * 31536000000)%Z, N.succ r);
     internet_ipv4 := fun r => (js "192.0.2.1", N.succ r);
     internet_url := fun r => (js "https://example.org", N.succ r);
     internet_username := fun r => (js "jane", N.succ r) |}.

(** [toLocaleDateString('en-US')] in a process whose time zone is UTC:
    month, day and year of the civil date of a time value. *)
Definition toLocaleDateString_UTC (timeValue : Z) : jsstring :=
  (let days := timeValue / 86400000 in
   let z := days + 719468 in
   let era := z / 146097 in
   let doe := z - era * 146097 in
   let yoe := (doe - doe / 1460 + doe / 36524 - doe / 146096) / 365 in
   let doy := doe - (365 * yoe + yoe / 4 - yoe / 100) in
   let mp := (5 * doy + 2) / 153 in
   let d := doy - (153 * mp + 2) / 5 + 1 in
   let m := if mp <? 10 then mp + 3 else mp - 9 in
   let y := yoe + era * 400 + (if m <=? 2 then 1 else 0) in
   numberToString (Some m) ++ js "/" ++ numberToString (Some d)
   ++ js "/" ++ numberToString (Some y))%Z.

(** A host whose clock shows [now] (1767225600000 is the first of
    January 2026, 0:00 UTC). *)
Definition stubHostAt (now : Z) : Host stubFaker :=
  @mkHost stubFaker 0%N now (fun salt text => js "00000000")
          toLocaleDateString_UTC.

Definition stubHost : Host stubFaker := stubHostAt 1767225600000.

Definition devSalt : jsstring := js "dev-salt-change-in-production-1234567890".

(** Stand-ins for the classifier: one that answers after a second, one
    that fails at once. *)
Definition slowPipeline : Pipeline := fun _ => Fulfilled 1000%Z [].

Definition failingPipeline : Pipeline :=
  fun _ => Rejected 10%Z (js "inference failed").

Definition openOptions : RedactionOptions :=
  {| useDeterministicReplacement := false; salt := devSalt;
     timeoutMs := 500; failStrategy := open |}.

Definition closedOptions : RedactionOptions :=
  {| useDeterministicReplacement := false; salt := devSalt;
     timeoutMs := 500; failStrategy := closed |}.

Definition ssnText : jsstring := js "My SSN is 123-45-6789".

Definition aliceMetBob : jsstring := js "Alice met Bob".

Definition aliceAndBob : list PiiEntity :=
  [ {| type := js "PERSON"; text := js "Alice"; start := 0; end_ := 5;
       confidence := 0x1.e666666666666p-1%float |};
    {| type := js "PERSON"; text := js "Bob"; start := 10; end_ := 13;
       confidence := 0x1.e666666666666p-1%float |} ].

(** The code units of a literal in which the apostrophe stands for the
    double quote. *)
Definition jsq (s : String.string) : jsstring :=
  map (fun c => if N.eqb c 39 then 34%N else c) (js s).
Arguments jsq s%_string.

Definition payloadMailA : jsstring :=
  jsq "{'choices':[{'index':0,'delta':{'content':'mail a.'}}]}".

Definition payloadBCD : jsstring :=
  jsq "{'choices':[{'index':0,'delta':{'content':'b@c.d'}}]}".

Definition contentChunk (content : jsstring) : OpenAiChatCompletionChunk :=
  {| chunkId := None; chunkModel := None; chunkCreated := None;
     choices :=
       Some [Some {| choiceIndex := Some 0%Z;
                     choiceDelta :=
                       Some {| deltaRole := None;
                               deltaContent := Some content |} |}] |}.

(** [JSON.parse] on the two payloads above; elsewhere it throws. *)
Definition parseTwoPayloads (s : jsstring)
  : option OpenAiChatCompletionChunk :=
  if JsString.eqb s payloadMailA then Some (contentChunk (js "mail a."))
  else if JsString.eqb s payloadBCD then Some (contentChunk (js "b@c.d"))
  else None.

(** A stand-in for the classifier that reports the e-mail address
    a.b@c.d in every text; the locator keeps it where the text holds
    it. *)
Definition emailPipeline : Pipeline :=
  fun _ => Fulfilled 1%Z
             [{| entity := js "B-EMAIL"; word := js " a.b@c.d";
                 score := 0x1.e666666666666p-1%float; index := 3 |}].

Definition emailRedact (h : Host stubFaker) (text : jsstring)
  : (RedactError + RedactionResult) * Host stubFaker :=
  redact JsString.toLowerCase emailPipeline openOptions h text.

Definition frozenClock (n : nat) : Z := 0%Z.

(** A scheduler under which no flush in flight settles while another
    call of [redact] is awaited. *)
Definition noneSettles (n : nat) : list nat := [].

Definition sseLine (payload : jsstring) : jsstring :=
  js "data: " ++ payload ++ [LF; LF].


(** The same stream with the flush timer firing after the second delta,
    its flush settling before the terminator arrives. *)
Definition timedEvents : list StreamEvent :=
  [Chunk (sseLine payloadMailA); Chunk (sseLine payloadBCD);
   TimerFired; FlushSettled 0; Chunk (sseLine (js "[DONE]"))].

(** A stream whose only delta is taken by the flush timer, the terminator
    arriving while that flush is in flight. *)
Definition overtakenEvents : list StreamEvent :=
  [Chunk (sseLine payloadBCD); TimerFired; Chunk (sseLine (js "[DONE]"))].

(** The stream of [splitEvents] before its terminator: the buffer holds
    the second half. *)
Definition beforeDone : StreamState (Host stubFaker) :=
  fst (runEvents emailRedact frozenClock noneSettles parseTwoPayloads
         DEFAULT_OPTIONS (newStream frozenClock stubHost)
         [Chunk (sseLine payloadMailA); Chunk (sseLine payloadBCD)]).

(** Scenario D of the specification: four deltas, one flush at the end of
    the first sentence and one at the end of the stream. *)
Definition scenarioD_parse (s : jsstring) : option OpenAiChatCompletionChunk :=
  if JsString.eqb s (js "1") then Some (contentChunk (js "Hi "))
  else if JsString.eqb s (js "2") then Some (contentChunk (js "there. "))
  else if JsString.eqb s (js "3") then Some (contentChunk (js "My SSN is "))
  else if JsString.eqb s (js "4") then Some (contentChunk (js "123-45-6789."))
  else None.

Definition ssnPipeline : Pipeline :=
  fun _ => Fulfilled 1%Z
             [{| entity := js "B-SOCIALNUM"; word := js " 123-45-6789";
                 score := 0x1.e666666666666p-1%float; index := 4 |}].

(** Scenario C of the specification, run on a new in-memory store with a
    clock that advances by one millisecond at each reading, a window of
    one hour and a threshold of 40. *)
Definition ssnEntity : PiiEntity :=
  {| type := js "SSN"; text := js "123-45-6789"; start := 10; end_ := 21;
     confidence := 0x1.e666666666666p-1%float |}.


Definition msClock (n : nat) : Z := (1767225600000 + Z.of_nat n)%Z.

Definition config40 : RiskConfig := {| threshold := 40; windowMs := 3600000 |}.

Definition newStore : InMemoryStore := {| store := []; reads := 0 |}.

Definition scenarioC : RiskAssessment * RiskAssessment :=
  let (first, s1) :=
    assessRisk (inMemoryClient msClock) config40 (js "session-1")
               [ssnEntity] newStore in
  let (second, _) :=
    assessRisk (inMemoryClient msClock) config40 (js "session-1")
               [ssnEntity] s1 in
  (first, second).

(** ** Further concrete inputs *)

Definition aliceMetAlice : jsstring := js "Alice met Alice".

Definition myEmailIs : jsstring := js "My email is test@example.com".

(** The token [ssnPipeline] answers with. *)
Definition ssnToken : RawToken :=
  {| entity := js "B-SOCIALNUM"; word := js " 123-45-6789";
     score := 0x1.e666666666666p-1%float; index := 4 |}.

(** A token whose label is the name of a member of [Object.prototype]. *)
Definition constructorToken : RawToken :=
  {| entity := js "B-constructor"; word := js " Bob";
     score := 0x1.e666666666666p-1%float; index := 1 |}.

(** A text of white space only: a space, a tab and a line feed. *)
Definition whiteSpaceOnly : jsstring := [32; 9; 10]%N.

(** A stream without text: a comment line ending in CR LF, a payload that
    does not parse, the terminator, and an unfinished line. *)
Definition textlessEvents : list StreamEvent :=
  [Chunk (js ": ping" ++ [CR; LF] ++ js "data: {");
   TimerFired; FlushSettled 0;
   Chunk (js "}" ++ [LF] ++ js "data: [DONE]" ++ [LF; LF] ++ js "tail")].

(** [JSON.parse] on two stand-in payloads: "r" is a first chunk, which
    carries the role and an empty text, "t" a chunk that carries a
    sentence. *)
Definition roleParse (s : jsstring) : option OpenAiChatCompletionChunk :=
  if JsString.eqb s (js "r") then
    Some {| chunkId := None; chunkModel := None; chunkCreated := None;
            choices :=
              Some [Some {| choiceIndex := Some 0%Z;
                            choiceDelta :=
                              Some {| deltaRole := Some (js "assistant");
                                      deltaContent := Some [] |} |}] |}
  else if JsString.eqb s (js "t") then Some (contentChunk (js "Hi."))
  else None.

(** A stream of comment and event lines, cut in the middle of a line. *)
Definition otherLinesEvents : list StreamEvent :=
  [Chunk (js ": ping" ++ [LF] ++ js "event: us");
   Chunk (js "age" ++ [LF; LF] ++ js "tail")].

(** A store whose only record has half a second left to live on a clock
    that shows 500. *)
Definition lastSecondStore : InMemoryStore :=
  {| store := [(js "risk:x", {| value := js "5"; expiresAt := Some 1000%Z |})];
     reads := 0 |}.

Definition clockAt500 (n : nat) : Z := 500%Z.

(** The store after one assessment of session-1. *)
Definition oneSessionStore : InMemoryStore :=
  snd (assessRisk (inMemoryClient msClock) config40 (js "session-1")
         [ssnEntity] newStore).

(** Two requests whose [Authorization] headers agree on their first 24
    bytes and differ after them. *)
Definition bearerA : Headers :=
  [(js "authorization", HeaderString (js "Bearer sk-proj-0123456789-alice"))].

Definition bearerB : Headers :=
  [(js "authorization", HeaderString (js "Bearer sk-proj-0123456789-bob"))].

(** A request that names its session itself. *)
Definition spoofedKey : Headers :=
  [(js "x-api-key", HeaderString (js "ip:203.0.113.7"))].

(** A factory that builds the pipeline named after the model. *)
Definition namedPipeline (modelId : jsstring) (quantized : bool)
  : jsstring + jsstring := inr modelId.

Definition newLoader : LoaderState jsstring :=
  {| pipelineInstance := None; factoryCalls := []; console := [];
     clockReads := 0 |}.

(** A redaction service that fails closed behind a classifier that is too
    slow. *)
Definition closedRedact (h : Host stubFaker) (text : jsstring)
  : (RedactError + RedactionResult) * Host stubFaker :=
  redact JsString.toLowerCase slowPipeline closedOptions h text.

(** A stream in front of that service, holding the text of one delta in
    its buffer. *)
Definition closedBeforeDone : StreamState (Host stubFaker) :=
  fst (runEvents closedRedact frozenClock noneSettles parseTwoPayloads
         DEFAULT_OPTIONS (newStream frozenClock stubHost)
         [Chunk (sseLine payloadBCD)]).

(** The line of the first delta of [splitEvents]. *)
Definition mailLine : jsstring := js "data: " ++ payloadMailA.

(* ================================================================= *)
(** * Properties *)

(** ** JavaScript strings *)

Lemma eqb_eq (a b : jsstring) : JsString.eqb a b = true <-> a = b.
Proof.
  revert b; induction a as [|x a IH]; intros [|y b]; simpl;
    try (split; [discriminate | congruence]); try tauto.
  rewrite andb_true_iff, N.eqb_eq, IH.
  split; [intros [-> ->]; reflexivity | intros H; inversion H; auto].
Qed.

Lemma eqb_refl (a : jsstring) : JsString.eqb a a = true.
Proof. apply eqb_eq; reflexivity. Qed.

Lemma eqb_neq (a b : jsstring) : JsString.eqb a b = false <-> a <> b.
Proof.
  rewrite <- eqb_eq. destruct (JsString.eqb a b); split;
    congruence.
Qed.

Lemma startsWith_app (s p : jsstring) :
  JsString.startsWith s p = true <-> exists r, s = p ++ r.
Proof.
  revert s; induction p as [|x p IH]; intros s; simpl.
  - split; [intros _; exists s; reflexivity | destruct s; reflexivity].
  - destruct s as [|y s]; cbn.
    + split; [discriminate | intros [r H]; discriminate].
    + rewrite andb_true_iff, N.eqb_eq, IH. split.
      * intros [-> [r ->]]. exists r; reflexivity.
      * intros [r H]. inversion H; subst.
        split; [reflexivity | exists r; reflexivity].
Qed.

Lemma startsWith_length (s p : jsstring) :
  JsString.startsWith s p = true -> length p <= length s.
Proof.
  intros H. apply startsWith_app in H as [r ->].
  rewrite length_app. lia.
Qed.

(** A hit of [scan] lies in the scanned suffix and the target fits after
    it. *)
Lemma scan_some (target s : jsstring) (pos i : nat) :
  JsString.scan target s pos = Some i ->
  pos <= i /\ i + length target <= pos + length s.
Proof.
  revert pos; induction s as [|c s IH]; intros pos; cbn [JsString.scan].
  - destruct (JsString.startsWith [] target) eqn:E; [|discriminate].
    intros [= <-]. apply startsWith_length in E. simpl in E. lia.
  - destruct (JsString.startsWith (c :: s) target) eqn:E.
    + intros [= <-]. apply startsWith_length in E. simpl in E. simpl. lia.
    + intros H. apply IH in H. simpl. lia.
Qed.

Lemma indexOf_some (s target : jsstring) (from i : nat) :
  JsString.indexOf s target from = Some i ->
  Nat.min from (length s) <= i /\ i + length target <= length s.
Proof.
  unfold JsString.indexOf. intros H. apply scan_some in H.
  rewrite length_skipn in H. lia.
Qed.

(** The model of [toLowerCase] never shortens a string, and keeps the
    length of one that holds no U+0130. *)
Lemma toLowerCase_length_le (s : jsstring) :
  length s <= length (JsString.toLowerCase s).
Proof.
  induction s as [|c s IH]; simpl; [lia|].
  rewrite length_app. unfold JsString.lowerUnit.
  destruct ((65 <=? c) && (c <=? 90))%N; [simpl; lia|].
  destruct (c =? 304)%N; simpl; lia.
Qed.

Lemma toLowerCase_length_eq (s : jsstring) :
  ~ In 304%N s -> length (JsString.toLowerCase s) = length s.
Proof.
  induction s as [|c s IH]; simpl; [reflexivity|].
  intros H. rewrite length_app, IH by tauto.
  unfold JsString.lowerUnit.
  destruct ((65 <=? c) && (c <=? 90))%N; [reflexivity|].
  destruct (N.eqb_spec c 304); [exfalso; apply H; left; congruence|reflexivity].
Qed.

(** ** Entity Locator *)

Lemma ForallOrdPairs_snoc {A : Type} (R : A -> A -> Prop) (l : list A) (x : A) :
  ForallOrdPairs R l -> Forall (fun a => R a x) l ->
  ForallOrdPairs R (l ++ [x]).
Proof.
  induction 1 as [|a l Ha Hl IH]; intros HF; simpl.
  - constructor; constructor.
  - inversion HF; subst. constructor.
    + apply Forall_app; split; [assumption|].
      constructor; [assumption | constructor].
    + apply IH; assumption.
Qed.

Lemma ForallOrdPairs_nth {A : Type} (R : A -> A -> Prop) (l : list A) :
  ForallOrdPairs R l ->
  forall i j a b, i < j -> nth_error l i = Some a -> nth_error l j = Some b ->
  R a b.
Proof.
  induction 1 as [|x l Hx Hl IH]; intros i j a b Hij Hi Hj.
  - destruct i; discriminate.
  - destruct j as [|j]; [lia|]. simpl in Hj. destruct i as [|i]; simpl in Hi.
    + injection Hi as <-. rewrite Forall_forall in Hx. apply Hx.
      eapply nth_error_In; eassumption.
    + apply (IH i j); [lia | assumption | assumption].
Qed.

Lemma overlapsUsed_false (used : list (nat * nat)) (s e : nat) :
  overlapsUsed used s e = false ->
  Forall (fun r => ~ (fst r < e /\ snd r > s)) used.
Proof.
  unfold overlapsUsed. intros H. apply Forall_forall. intros r Hr [H1 H2].
  assert (existsb (fun r => (s <? snd r) && (fst r <? e)) used = true) as C.
  { apply existsb_exists. exists r. split; [assumption|].
    apply andb_true_iff; split; apply Nat.ltb_lt; lia. }
  congruence.
Qed.

Section LocatorProperties.

Variable toLowerCase : jsstring -> jsstring.

(** More fuel than the loop can use changes nothing: the bound
    [text.length] of [findPosition] is enough, as long as lower-casing
    does not shorten the text (it never does: the search cursor then
    moves forward at every iteration). *)
Lemma findPosition_loop_fuel (search lower target : jsstring) (n : nat)
    (used : list (nat * nat)) (fuel fuel' from : nat) :
  n <= length lower ->
  n - from <= fuel -> n - from <= fuel' ->
  findPosition_loop fuel search lower target n used from
  = findPosition_loop fuel' search lower target n used from.
Proof.
  intros Hn.
  revert fuel' from; induction fuel as [|fuel IH]; intros fuel' from H1 H2.
  - destruct fuel' as [|fuel']; [reflexivity|]. simpl.
    destruct (Nat.ltb_spec from n); [lia | reflexivity].
  - destruct fuel' as [|fuel']; simpl.
    + destruct (Nat.ltb_spec from n); [lia | reflexivity].
    + destruct (Nat.ltb_spec from n) as [Hlt|]; [|reflexivity].
      destruct (JsString.indexOf lower target from) as [i|] eqn:E;
        [|reflexivity].
      destruct (negb _); [reflexivity|].
      apply indexOf_some in E. apply IH; lia.
Qed.

Lemma findPosition_loop_some (fuel : nat) (search lower target : jsstring)
    (n : nat) (used : list (nat * nat)) (from s e : nat) :
  findPosition_loop fuel search lower target n used from = Some (s, e) ->
  e = s + length search /\ s + length target <= length lower /\
  overlapsUsed used s e = false.
Proof.
  revert from; induction fuel as [|fuel IH]; intros from; simpl;
    [discriminate|].
  destruct (from <? n); [|discriminate].
  destruct (JsString.indexOf lower target from) as [i|] eqn:E; [|discriminate].
  destruct (overlapsUsed used i (i + length search)) eqn:O; simpl.
  - apply IH.
  - intros [= <- <-]. apply indexOf_some in E. tauto.
Qed.

Lemma findPosition_some (search text : jsstring) (used : list (nat * nat))
    (s e : nat) :
  findPosition toLowerCase search text used = Some (s, e) ->
  e = s + length search /\
  s + length (toLowerCase search) <= length (toLowerCase text) /\
  overlapsUsed used s e = false.
Proof. unfold findPosition. apply findPosition_loop_some. Qed.

(** What [finalizeGroup] guarantees of the entity it builds. *)
Lemma finalizeGroup_some (g : Group) (text : jsstring)
    (used : list (nat * nat)) (e : PiiEntity) :
  finalizeGroup toLowerCase g text used = Some e ->
  start e < end_ e /\
  Forall (fun r => ~ (fst r < end_ e /\ snd r > start e)) used /\
  (length (toLowerCase text) = length text ->
   (forall s, length s <= length (toLowerCase s)) ->
   end_ e <= length text).
Proof.
  unfold finalizeGroup.
  destruct (truthyProperty (getProperty LABEL_TO_PII_TYPE (label g)))
    as [ty|]; [|discriminate].
  set (joined := JsString.trim (joinWords [] (words g))).
  destruct (Nat.ltb_spec (length joined) 2) as [|Hlen]; [discriminate|].
  destruct (findPosition toLowerCase joined text used) as [[s e']|] eqn:F;
    [|discriminate].
  intros [= <-]; simpl. apply findPosition_some in F as (-> & Hfit & Hov).
  split; [lia|]. split; [apply overlapsUsed_false; assumption|].
  intros Htext Hgrow. specialize (Hgrow joined). lia.
Qed.

Lemma locatorInv_push (Q : PiiEntity -> Prop) (text : jsstring)
    (es : list PiiEntity) (used : list (nat * nat)) (g : Group)
    (e : PiiEntity) :
  (forall g u e, finalizeGroup toLowerCase g text u = Some e -> Q e) ->
  locatorInv Q es used ->
  finalizeGroup toLowerCase g text used = Some e ->
  locatorInv Q (es ++ [e]) (used ++ [(start e, end_ e)]).
Proof.
  intros HQ (Hu & Hp & Hq) F.
  pose proof (@finalizeGroup_some _ _ _ _ F) as (_ & Hov & _).
  repeat split.
  - rewrite map_app, Hu. reflexivity.
  - apply ForallOrdPairs_snoc; [assumption|].
    subst used. rewrite Forall_map in Hov.
    revert Hov. apply Forall_impl. intros a Ha [H1 H2]. apply Ha.
    unfold span; simpl. lia.
  - apply Forall_app; split; [assumption|].
    constructor; [eapply HQ; eassumption | constructor].
Qed.

Lemma closeGroup_inv (Q : PiiEntity -> Prop) (text : jsstring)
    (st : LocatorState) :
  (forall g u e, finalizeGroup toLowerCase g text u = Some e -> Q e) ->
  locatorInv Q (entities st) (usedRanges st) ->
  locatorInv Q (fst (closeGroup toLowerCase st text))
               (snd (closeGroup toLowerCase st text)).
Proof.
  intros HQ I. unfold closeGroup. destruct (group st) as [g|]; [|exact I].
  destruct (finalizeGroup toLowerCase g text (usedRanges st)) as [e|] eqn:F;
    [|exact I].
  simpl. eapply locatorInv_push; eassumption.
Qed.

Lemma locateStep_inv (Q : PiiEntity -> Prop) (text : jsstring)
    (st : LocatorState) (token : RawToken) :
  (forall g u e, finalizeGroup toLowerCase g text u = Some e -> Q e) ->
  locatorInv Q (entities st) (usedRanges st) ->
  locatorInv Q (entities (locateStep toLowerCase text st token))
               (usedRanges (locateStep toLowerCase text st token)).
Proof.
  intros HQ I. pose proof (@closeGroup_inv Q text st HQ I) as C.
  unfold locateStep.
  destruct (match parseLabel (entity token) with
            | Some l => _ | None => None end) as [l|].
  - destruct (match group st with Some g => _ | None => false end).
    + exact I.
    + destruct (closeGroup toLowerCase st text); exact C.
  - destruct (closeGroup toLowerCase st text); exact C.
Qed.

Lemma groupAndLocateEntities_inv (Q : PiiEntity -> Prop)
    (tokens : list RawToken) (text : jsstring) :
  (forall g u e, finalizeGroup toLowerCase g text u = Some e -> Q e) ->
  ForallOrdPairs (fun a b => ~ overlaps a b)
    (groupAndLocateEntities toLowerCase tokens text) /\
  Forall Q (groupAndLocateEntities toLowerCase tokens text).
Proof.
  intros HQ. unfold groupAndLocateEntities.
  set (st0 := {| entities := []; usedRanges := []; group := None |}).
  assert (locatorInv Q (entities st0) (usedRanges st0)) as I0.
  { repeat split; constructor. }
  revert I0. generalize st0. clear st0.
  induction tokens as [|t ts IH]; intros st I; simpl.
  - destruct (group st) as [g|]; [|destruct I as (_ & ? & ?); tauto].
    destruct (finalizeGroup toLowerCase g text (usedRanges st)) as [e|] eqn:F;
      [|destruct I as (_ & ? & ?); tauto].
    destruct (@locatorInv_push Q text _ _ g e HQ I F) as (_ & ? & ?). tauto.
  - apply IH. apply locateStep_inv; assumption.
Qed.

(** X1: for every token list and text, whatever the case mapping: located
    entities have non-empty spans and no two of them overlap. *)
Lemma groupAndLocateEntities_disjoint (tokens : list RawToken)
    (text : jsstring) :
  let es := groupAndLocateEntities toLowerCase tokens text in
  (forall e, In e es -> 0 <= start e < end_ e) /\
  (forall i j a b, i <> j -> nth_error es i = Some a ->
                   nth_error es j = Some b -> ~ overlaps a b).
Proof.
  intros es.
  destruct (@groupAndLocateEntities_inv
              (fun e => start e < end_ e) tokens text) as [Hp Hq].
  { intros g u e F. apply finalizeGroup_some in F. tauto. }
  fold es in Hp, Hq. split.
  - intros e He. rewrite Forall_forall in Hq. specialize (Hq e He). lia.
  - intros i j a b Hij Hi Hj.
    destruct (Nat.lt_total i j) as [L|[E|L]]; [|contradiction|].
    + exact (ForallOrdPairs_nth Hp L Hi Hj).
    + pose proof (ForallOrdPairs_nth Hp L Hj Hi) as N.
      intros [H1 H2]. apply N. split; lia.
Qed.

(** When lower-casing keeps the length of the text (and never shortens a
    string), the spans also lie inside the text. *)
Lemma groupAndLocateEntities_in_bounds (tokens : list RawToken)
    (text : jsstring) :
  length (toLowerCase text) = length text ->
  (forall s, length s <= length (toLowerCase s)) ->
  forall e, In e (groupAndLocateEntities toLowerCase tokens text) ->
  0 <= start e < end_ e /\ end_ e <= length text.
Proof.
  intros Htext Hgrow.
  destruct (@groupAndLocateEntities_inv
              (fun e => start e < end_ e /\ end_ e <= length text)
              tokens text) as [_ Hq].
  { intros g u e F. apply finalizeGroup_some in F as (? & _ & B).
    split; [assumption | apply B; assumption]. }
  intros e He. rewrite Forall_forall in Hq. specialize (Hq e He). lia.
Qed.

End LocatorProperties.

(** Scenario A of the specification (the span is [12, 28)). *)
Example scenarioA :
  map (fun e => (type e, text e, start e, end_ e))
      (groupAndLocateEntities JsString.toLowerCase [tokA]
         (js "My email is test@example.com"))
  = [(js "EMAIL", js "test@example.com", 12, 28)].
Proof. vm_compute. reflexivity. Qed.

(** Scenario B: two runs with a gap in the token indices resolve to the
    two occurrences of the name. *)
Example scenarioB :
  map span (groupAndLocateEntities JsString.toLowerCase
              [tokAlice 1; tokAlice 3] (js "Alice met Alice"))
  = [(0, 5); (10, 15)].
Proof. vm_compute. reflexivity. Qed.

(** On texts without U+0130 the modelled case mapping keeps lengths, and
    the full invariant of the data model holds. *)
Corollary groupAndLocateEntities_invariant_no_dotted_I
    (tokens : list RawToken) (text : jsstring) :
  ~ In 304%N text ->
  forall e, In e (groupAndLocateEntities JsString.toLowerCase tokens text) ->
  0 <= start e < end_ e /\ end_ e <= length text.
Proof.
  intros H. apply groupAndLocateEntities_in_bounds.
  - apply toLowerCase_length_eq; assumption.
  - apply toLowerCase_length_le.
Qed.

(** C1, at a text holding U+0130: the offsets are those of the match in the
    lower-cased copy, which is one code unit longer than the text, so the
    reported span ends past the end of the text. *)
Theorem groupAndLocateEntities_offsets_past_text :
  length text_ipek = 8 /\
  map (fun e => (text e, start e, end_ e))
      (groupAndLocateEntities JsString.toLowerCase [tok_bob] text_ipek)
  = [(js "ob", 6, 9)].
Proof. split; vm_compute; reflexivity. Qed.

(** ** Replacement Generator *)

Lemma scan_none (target s : jsstring) (pos : nat) :
  JsString.scan target s pos = None ->
  forall pre post, s <> pre ++ target ++ post.
Proof.
  revert pos; induction s as [|c s IH]; intros pos; cbn [JsString.scan].
  - destruct (JsString.startsWith [] target) eqn:E; [discriminate|].
    intros _ pre post H. destruct pre; [|discriminate].
    assert (JsString.startsWith [] target = true) as C
      by (apply startsWith_app; exists post; exact H).
    congruence.
  - destruct (JsString.startsWith (c :: s) target) eqn:E; [discriminate|].
    intros H pre post Heq. destruct pre as [|x pre].
    + assert (JsString.startsWith (c :: s) target = true) as C
        by (apply startsWith_app; exists post; exact Heq).
      congruence.
    + injection Heq as _ Heq. exact (IH _ H pre post Heq).
Qed.

Section ReplacementProperties.

Variable F : FakerLib.

Lemma replacementFor_faker_state (h : Host F) (r : rng F) (type : jsstring) :
  replacementFor (withFakerState h r) type = replacementFor h type.
Proof. reflexivity. Qed.

(** The generator state the singleton was left in by earlier calls does
    not matter: [faker.seed] replaces it. *)
Lemma getDeterministicReplacement_forgets_faker_state (h : Host F)
    (r : rng F) (originalText type salt : jsstring) :
  fst (getDeterministicReplacement (withFakerState h r) originalText type salt)
  = fst (getDeterministicReplacement h originalText type salt).
Proof.
  unfold getDeterministicReplacement. simpl.
  rewrite replacementFor_faker_state.
  destruct (replacementFor h type _). reflexivity.
Qed.

Lemma getDeterministicReplacement_host (h : Host F)
    (originalText type salt : jsstring) :
  exists r, snd (getDeterministicReplacement h originalText type salt)
            = withFakerState h r.
Proof.
  unfold getDeterministicReplacement.
  destruct (replacementFor h type _) as [s r]. exists r. reflexivity.
Qed.

(** For every type but DATE_OF_BIRTH the model of the generator reads
    neither the clock nor the time zone of the host: only that branch is
    given them. *)
Lemma getDeterministicReplacement_clock_free (h1 h2 : Host F)
    (originalText type salt : jsstring) :
  type <> js "DATE_OF_BIRTH" ->
  hmacSha256Hex h1 = hmacSha256Hex h2 ->
  fst (getDeterministicReplacement h1 originalText type salt)
  = fst (getDeterministicReplacement h2 originalText type salt).
Proof.
  intros Hty Hh. unfold getDeterministicReplacement. rewrite Hh.
  assert (replacementFor h1 type = replacementFor h2 type) as E.
  { unfold replacementFor.
    destruct (JsString.eqb type (js "DATE_OF_BIRTH")) eqn:D.
    - apply eqb_eq in D. contradiction.
    - reflexivity. }
  rewrite E. destruct (replacementFor h2 type _). reflexivity.
Qed.

(** C2, at DATE_OF_BIRTH: the replacement is the rendering of a birth date
    that faker draws relative to the current time of the host, so it is
    not a function of the triple alone. *)
Theorem getDeterministicReplacement_birthdate_reads_clock (h : Host F)
    (originalText salt : jsstring) :
  fst (getDeterministicReplacement h originalText (js "DATE_OF_BIRTH") salt)
  = toLocaleDateString_enUS h
      (fst (date_birthdate F 18 80 (now h)
              (faker_seed F
                 (parseInt16
                    (JsString.slice
                       (hmacSha256Hex h salt originalText) 0 8))))).
Proof.
  unfold getDeterministicReplacement.
  change (replacementFor h (js "DATE_OF_BIRTH"))
    with (bind (date_birthdate F 18 80 (now h))
                (fun d => ret (S:=rng F) (toLocaleDateString_enUS h d))).
  unfold bind, ret.
  destruct (date_birthdate F 18 80 (now h) _). reflexivity.
Qed.

Lemma replacementFor_unmapped (h : Host F) (type : jsstring) :
  ~ In type PII_ENTITY_TYPES ->
  replacementFor h type = ret (js "[REDACTED]").
Proof.
  intros H. unfold replacementFor.
  repeat match goal with
  | |- context [JsString.eqb type ?c] =>
      let E := fresh "E" in
      destruct (JsString.eqb type c) eqn:E;
      [ exfalso; apply eqb_eq in E; apply H; rewrite E;
        vm_compute; tauto | ]
  end.
  reflexivity.
Qed.

(** C9, as the code has it: PASSWORD yields the constant marker
    "[REDACTED_PASSWORD]" whatever the text and the salt, and a type
    outside the seventeen of the table yields the constant marker
    "[REDACTED]". *)
Theorem getDeterministicReplacement_markers (h : Host F)
    (originalText type salt : jsstring) :
  (type = js "PASSWORD" ->
   fst (getDeterministicReplacement h originalText type salt)
   = js "[REDACTED_PASSWORD]") /\
  (~ In type PII_ENTITY_TYPES ->
   fst (getDeterministicReplacement h originalText type salt)
   = js "[REDACTED]").
Proof.
  unfold getDeterministicReplacement. split.
  - intros ->. reflexivity.
  - intros H. rewrite (replacementFor_unmapped h H). reflexivity.
Qed.

End ReplacementProperties.

(** With the stand-in for faker, the same triple gives two different
    strings on two consecutive days. *)
Example getDeterministicReplacement_two_days :
  fst (getDeterministicReplacement (stubHostAt 1767225600000)
         (js "1990-01-01") (js "DATE_OF_BIRTH") devSalt) = js "1/6/2008" /\
  fst (getDeterministicReplacement (stubHostAt 1767312000000)
         (js "1990-01-01") (js "DATE_OF_BIRTH") devSalt) = js "1/7/2008".
Proof. split; vm_compute; reflexivity. Qed.

Lemma FOO_unmapped : ~ In (js "FOO") PII_ENTITY_TYPES.
Proof.
  vm_compute. intros H.
  repeat (destruct H as [H|H]; [discriminate H|]). exact H.
Defined.

Lemma getDeterministicReplacement_markers_witness :
  fst (getDeterministicReplacement stubHost (js "hunter2") (js "PASSWORD")
         devSalt) = js "[REDACTED_PASSWORD]" /\
  fst (getDeterministicReplacement stubHost (js "x") (js "FOO") devSalt)
  = js "[REDACTED]".
Proof.
  split.
  - apply (proj1 (getDeterministicReplacement_markers stubHost
                    (js "hunter2") (js "PASSWORD") devSalt)).
    reflexivity.
  - apply (proj2 (getDeterministicReplacement_markers stubHost
                    (js "x") (js "FOO") devSalt)).
    exact FOO_unmapped.
Defined.

(** C9 as stated fails at the unmapped type "FOO": the marker returned is
    not a bracketed string that contains "FOO". *)
Lemma getDeterministicReplacement_unmapped_lacks_type_name :
  ~ exists pre post,
      fst (getDeterministicReplacement stubHost (js "x") (js "FOO") devSalt)
      = js "[" ++ pre ++ js "FOO" ++ post ++ js "]".
Proof.
  intros (pre & post & H).
  change (js "[REDACTED]" = js "[" ++ pre ++ js "FOO" ++ (post ++ js "]")) in H.
  injection H as H.
  exact (@scan_none (js "FOO") (js "REDACTED]") 0 eq_refl pre
           (post ++ js "]") H).
Qed.

(** ** Redaction Orchestrator *)

Lemma nonOverlapping_ForallOrdPairs (es : list PiiEntity) :
  nonOverlapping es <-> ForallOrdPairs (fun a b => ~ overlaps a b) es.
Proof.
  split.
  - induction es as [|x es IH]; intros H; constructor.
    + apply Forall_forall. intros y Hy.
      apply In_nth_error in Hy as [k Hk].
      apply (H 0 (S k)); [lia | reflexivity | exact Hk].
    + apply IH. intros i j a b Hij Hi Hj.
      apply (H (S i) (S j)); [lia | exact Hi | exact Hj].
  - intros H i j a b Hij Hi Hj.
    destruct (Nat.lt_total i j) as [L|[E|L]]; [|contradiction|].
    + exact (ForallOrdPairs_nth H L Hi Hj).
    + pose proof (ForallOrdPairs_nth H L Hj Hi) as N.
      intros [H1 H2]. apply N. split; lia.
Qed.

Lemma ForallOrdPairs_Permutation {A : Type} (R : A -> A -> Prop)
    (l l' : list A) :
  (forall a b, R a b -> R b a) ->
  Permutation l l' -> ForallOrdPairs R l -> ForallOrdPairs R l'.
Proof.
  intros Hsym. induction 1 as [|x l l' HP IH|x y l|l l' l'' _ IH1 _ IH2];
    intros H.
  - exact H.
  - inversion H; subst. constructor.
    + eapply Permutation_Forall; eassumption.
    + apply IH; assumption.
  - inversion H as [|? ? Hy Hrest]; subst.
    inversion Hrest as [|? ? Hx Hl]; subst.
    inversion Hy as [|? ? Hyx Hyl]; subst.
    constructor; [constructor; [apply Hsym; assumption | assumption]|].
    constructor; assumption.
  - auto.
Qed.

Section SortProperties.

Variable A : Type.
Variable compare : A -> A -> Z.
Let before (a b : A) : Prop := (compare a b <= 0)%Z.
Hypothesis before_total : forall a b, before a b \/ before b a.
Hypothesis before_trans : forall a b c, before a b -> before b c -> before a c.

Lemma insertSorted_Permutation (x : A) (l : list A) :
  Permutation (x :: l) (insertSorted compare x l).
Proof.
  induction l as [|y l IH]; simpl; [reflexivity|].
  destruct (compare x y <=? 0)%Z; [reflexivity|].
  rewrite perm_swap. apply perm_skip. exact IH.
Qed.

Lemma sort_Permutation (l : list A) : Permutation l (sort compare l).
Proof.
  induction l as [|x l IH]; simpl; [reflexivity|].
  rewrite <- insertSorted_Permutation. apply perm_skip. exact IH.
Qed.

Lemma insertSorted_sorted (x : A) (l : list A) :
  StronglySorted before l -> StronglySorted before (insertSorted compare x l).
Proof.
  induction 1 as [|y l Hl IH Hy]; simpl.
  - repeat constructor.
  - destruct (Z.leb_spec (compare x y) 0) as [Hxy|Hxy].
    + constructor; [constructor; assumption|].
      constructor; [exact Hxy|].
      revert Hy. apply Forall_impl. intros z Hz.
      exact (before_trans Hxy Hz).
    + constructor; [exact IH|].
      eapply Permutation_Forall; [apply insertSorted_Permutation|].
      constructor; [|exact Hy].
      destruct (before_total x y) as [C|C]; [unfold before in C; lia | exact C].
Qed.

Lemma sort_sorted (l : list A) : StronglySorted before (sort compare l).
Proof.
  induction l as [|x l IH]; simpl; [constructor|].
  apply insertSorted_sorted. exact IH.
Qed.

End SortProperties.

Lemma StronglySorted_weaken {A : Type} (R R' : A -> A -> Prop)
    (l : list A) :
  (forall a b, R a b -> R' a b) ->
  StronglySorted R l -> StronglySorted R' l.
Proof.
  intros HR. induction 1 as [|x l Hl IH Hx]; constructor; [exact IH|].
  revert Hx. apply Forall_impl. exact (HR x).
Qed.

Lemma sortedEntities_Permutation (es : list PiiEntity) :
  Permutation es (sortedEntities es).
Proof. apply sort_Permutation. Qed.

(** [sortedEntities] is in descending order of [start]. *)
Lemma sortedEntities_descending (es : list PiiEntity) :
  StronglySorted (fun a b => start a >= start b) (sortedEntities es).
Proof.
  unfold sortedEntities.
  eapply StronglySorted_weaken;
    [| apply sort_sorted with
         (compare := fun a b : PiiEntity =>
                       (Z.of_nat (start b) - Z.of_nat (start a))%Z)].
  - intros a b H. simpl in H. lia.
  - intros a b. simpl. lia.
  - intros a b c. simpl. lia.
Qed.

Lemma splice_snoc (repl : PiiEntity -> jsstring) (text : jsstring)
    (limit : nat) (es : list PiiEntity) (e : PiiEntity) (cursor : nat) :
  splice repl text cursor limit (es ++ [e])
  = splice repl text cursor (start e) es ++ repl e
    ++ JsString.slice text (end_ e) limit.
Proof.
  revert cursor; induction es as [|x es IH]; intros cursor; simpl.
  - reflexivity.
  - rewrite IH, <- !app_assoc. reflexivity.
Qed.

Lemma slice_prefix (text tail : jsstring) (a limit : nat) :
  a <= limit -> limit <= length text ->
  JsString.slice (firstn limit text ++ tail) 0 a = firstn a text.
Proof.
  intros H1 H2. unfold JsString.slice. simpl. rewrite Nat.sub_0_r.
  rewrite firstn_app, firstn_firstn, length_firstn.
  replace (a - Nat.min limit (length text)) with 0 by lia.
  rewrite Nat.min_l by lia. simpl. apply app_nil_r.
Qed.

Lemma sliceFrom_prefix (text tail : jsstring) (b limit : nat) :
  b <= limit -> limit <= length text ->
  JsString.sliceFrom (firstn limit text ++ tail) b
  = JsString.slice text b limit ++ tail.
Proof.
  intros H1 H2. unfold JsString.sliceFrom, JsString.slice.
  rewrite skipn_app, length_firstn.
  replace (b - Nat.min limit (length text)) with 0 by lia. simpl.
  f_equal. rewrite skipn_firstn_comm. reflexivity.
Qed.

(** Replacing from the right leaves the offsets of the spans still to be
    processed valid. *)
Lemma applyPure_splice (repl : PiiEntity -> jsstring) (text : jsstring)
    (ds : list PiiEntity) :
  forall limit tail,
  limit <= length text -> descChain limit ds ->
  applyPure repl (firstn limit text ++ tail) ds
  = splice repl text 0 limit (rev ds) ++ tail.
Proof.
  induction ds as [|e ds IH]; intros limit tail Hl Hc; simpl.
  - unfold JsString.slice. rewrite Nat.sub_0_r. reflexivity.
  - destruct Hc as (Hse & Hel & Hc).
    rewrite slice_prefix, sliceFrom_prefix by lia.
    rewrite IH by (assumption || lia).
    rewrite splice_snoc, <- !app_assoc. reflexivity.
Qed.

Lemma descChain_of_sorted (text : jsstring) (ds : list PiiEntity) :
  forall limit,
  StronglySorted (fun a b => start a >= start b) ds ->
  ForallOrdPairs (fun a b => ~ overlaps a b) ds ->
  Forall (fun e => start e < end_ e /\ end_ e <= limit) ds ->
  descChain limit ds.
Proof.
  induction ds as [|e ds IH]; intros limit Hs Hp Hb; simpl; [exact I|].
  inversion Hs as [|? ? Hs' Hge]; subst.
  inversion Hp as [|? ? Hne Hp']; subst.
  inversion Hb as [|? ? [He1 He2] Hb']; subst.
  repeat split; [assumption | assumption |].
  apply IH; [assumption | assumption |].
  rewrite Forall_forall in *. intros x Hx.
  specialize (Hge x Hx). specialize (Hne x Hx). specialize (Hb' x Hx).
  unfold overlaps in Hne. lia.
Qed.

Section RedactionProperties.

Variable toLowerCase : jsstring -> jsstring.
Variable F : FakerLib.
Variable pipeline : Pipeline.
Variable options : RedactionOptions.

(** The replacement of an entity does not depend on the state the faker
    singleton is in, and leaves the rest of the host as it was. *)
Lemma replacementOf_faker_state (h : Host F) (r : rng F) (e : PiiEntity) :
  fst (replacementOf options (withFakerState h r) e)
  = fst (replacementOf options h e) /\
  exists r', snd (replacementOf options (withFakerState h r) e)
             = withFakerState h r'.
Proof.
  unfold replacementOf. destruct (useDeterministicReplacement options).
  - split; [apply getDeterministicReplacement_forgets_faker_state|].
    destruct (getDeterministicReplacement_host (withFakerState h r)
                (text e) (type e) (salt options)) as [r' ->].
    exists r'. reflexivity.
  - split; [reflexivity | exists r; reflexivity].
Qed.

Lemma applyLoop_pure (h : Host F) (ds : list PiiEntity) :
  forall r result,
  fst (applyLoop options (withFakerState h r) result ds)
  = applyPure (fun e => fst (replacementOf options h e)) result ds.
Proof.
  induction ds as [|e ds IH]; intros r result; simpl; [reflexivity|].
  destruct (replacementOf_faker_state h r e) as [E1 [r' E2]].
  destruct (replacementOf options (withFakerState h r) e) as [s h'].
  simpl in E1, E2. subst. apply IH.
Qed.

(** C4: on a list of entities that are within the bounds of [text] and
    pairwise disjoint, [applyRedactions] processes them in descending
    order of [start] (the list [ds], a rearrangement of the input), and
    returns [text] with each span replaced by the replacement generated for
    its entity, everything outside the spans being copied in order.  The
    replacement generated for an entity is what
    [getDeterministicReplacement] returns for its text, its type and the
    salt, or, when deterministic replacement is off, what
    [getSimpleRedaction] returns for its type. *)
Theorem applyRedactions_replaces_spans (h : Host F) (text : jsstring)
    (entities : list PiiEntity) :
  Forall (inBounds text) entities ->
  nonOverlapping entities ->
  let ds := sortedEntities entities in
  Permutation entities ds /\
  StronglySorted (fun a b => start a >= start b) ds /\
  fst (applyRedactions options h text entities)
  = splice (fun e => fst (replacementOf options h e)) text 0 (length text)
           (rev ds) /\
  forall e,
    fst (replacementOf options h e)
    = if useDeterministicReplacement options
      then fst (getDeterministicReplacement h (entityText e) (type e)
                  (salt options))
      else getSimpleRedaction (type e).
Proof.
  intros Hb Hn ds.
  pose proof (sortedEntities_Permutation entities) as HP.
  pose proof (sortedEntities_descending entities) as HS.
  fold ds in HP, HS. split; [exact HP|]. split; [exact HS|].
  split.
  2:{ intros e. unfold replacementOf.
      destruct (useDeterministicReplacement options); reflexivity. }
  unfold applyRedactions. fold ds.
  replace h with (withFakerState h (fakerState h)) at 1
    by (destruct h; reflexivity).
  rewrite applyLoop_pure.
  rewrite <- (app_nil_r text) at 1.
  rewrite <- (firstn_all text) at 1.
  rewrite applyPure_splice; [apply app_nil_r | lia |].
  apply descChain_of_sorted with (text := text); [exact HS | |].
  - apply ForallOrdPairs_Permutation with (l := entities);
      [| exact HP | apply nonOverlapping_ForallOrdPairs; exact Hn].
    unfold overlaps. intros a b H [H1 H2]. apply H. lia.
  - eapply Permutation_Forall; [exact HP|].
    revert Hb. apply Forall_impl. unfold inBounds. intros e He. lia.
Qed.

(** C3: on a non-blank text, when inference exceeds [timeoutMs], [redact]
    returns the input unchanged with no entity under fail-open and throws
    [InferenceTimeoutError] under fail-closed; an error the collaborator
    raises in time is rethrown whatever the strategy. *)
Theorem redact_timeout_policy (h : Host F) (text : jsstring) :
  isBlank text = false ->
  (exceedsTimeout (pipeline text) (timeoutMs options) ->
   redact toLowerCase pipeline options h text
   = match failStrategy options with
     | open => (inr {| resultText := text; resultEntities := [];
                       processingTimeMs := timeoutMs options |}, h)
     | closed => (inl (InferenceTimeoutError (timeoutMs options)), h)
     end) /\
  (forall d reason,
     pipeline text = Rejected d reason -> (d <= timeoutMs options)%Z ->
     redact toLowerCase pipeline options h text
     = (inl (CollaboratorError reason), h)).
Proof.
  intros Hb. unfold redact. rewrite Hb. split.
  - intros Hx. unfold runInference.
    destruct (pipeline text) as [d tokens|d reason|]; simpl in *.
    + destruct (Z.leb_spec d (timeoutMs options)); [lia|].
      destruct (failStrategy options); reflexivity.
    + destruct (Z.leb_spec d (timeoutMs options)); [lia|].
      destruct (failStrategy options); reflexivity.
    + destruct (failStrategy options); reflexivity.
  - intros d reason Hp Hd. unfold runInference. rewrite Hp. simpl.
    destruct (Z.leb_spec d (timeoutMs options)); [reflexivity | lia].
Qed.

(** Only the timeout is subject to the strategy: whenever [redact] throws
    under one strategy and returns under the other, what it throws is
    [InferenceTimeoutError]. *)
Lemma redact_error_cases (h : Host F) (text : jsstring) (e : RedactError) :
  fst (redact toLowerCase pipeline options h text) = inl e ->
  (e = InferenceTimeoutError (timeoutMs options)
   /\ failStrategy options = closed) \/
  (exists d reason, e = CollaboratorError reason
                    /\ pipeline text = Rejected d reason).
Proof.
  unfold redact. destruct (isBlank text); [discriminate|].
  unfold runInference.
  destruct (pipeline text) as [d tokens|d reason|]; simpl.
  - destruct (d <=? timeoutMs options)%Z.
    + simpl. destruct (groupAndLocateEntities toLowerCase tokens text);
        [discriminate|].
      destruct (applyRedactions _ _ _ _); discriminate.
    + destruct (failStrategy options) eqn:S; [|discriminate].
      intros [= <-]. left; auto.
  - destruct (d <=? timeoutMs options)%Z.
    + intros [= <-]. right. exists d, reason. auto.
    + destruct (failStrategy options) eqn:S; [|discriminate].
      intros [= <-]. left; auto.
  - destruct (failStrategy options) eqn:S; [|discriminate].
    intros [= <-]. left; auto.
Qed.

End RedactionProperties.

Lemma redact_timeout_policy_witness :
  redact JsString.toLowerCase slowPipeline openOptions stubHost ssnText
  = (inr {| resultText := ssnText; resultEntities := [];
            processingTimeMs := 500 |}, stubHost) /\
  redact JsString.toLowerCase slowPipeline closedOptions stubHost ssnText
  = (inl (InferenceTimeoutError 500), stubHost) /\
  redact JsString.toLowerCase failingPipeline openOptions stubHost ssnText
  = (inl (CollaboratorError (js "inference failed")), stubHost).
Proof.
  split; [|split].
  - apply (proj1 (@redact_timeout_policy JsString.toLowerCase stubFaker
                    slowPipeline openOptions stubHost ssnText eq_refl)).
    reflexivity.
  - apply (proj1 (@redact_timeout_policy JsString.toLowerCase stubFaker
                    slowPipeline closedOptions stubHost ssnText eq_refl)).
    reflexivity.
  - apply (proj2 (@redact_timeout_policy JsString.toLowerCase stubFaker
                    failingPipeline openOptions stubHost ssnText eq_refl)
             10%Z (js "inference failed")).
    + reflexivity.
    + discriminate.
Defined.

Lemma aliceAndBob_inBounds : Forall (inBounds aliceMetBob) aliceAndBob.
Proof. repeat constructor; simpl; lia. Defined.

Lemma aliceAndBob_nonOverlapping : nonOverlapping aliceAndBob.
Proof.
  apply nonOverlapping_ForallOrdPairs.
  repeat constructor. unfold overlaps; simpl; lia.
Defined.

Lemma applyRedactions_replaces_spans_witness :
  let ds := sortedEntities aliceAndBob in
  Permutation aliceAndBob ds /\
  StronglySorted (fun a b => start a >= start b) ds /\
  fst (applyRedactions openOptions stubHost aliceMetBob aliceAndBob)
  = splice (fun e => fst (replacementOf openOptions stubHost e))
           aliceMetBob 0 (length aliceMetBob) (rev ds) /\
  forall e,
    fst (replacementOf openOptions stubHost e)
    = if useDeterministicReplacement openOptions
      then fst (getDeterministicReplacement stubHost (text e) (type e)
                  (salt openOptions))
      else getSimpleRedaction (type e).
Proof.
  exact (@applyRedactions_replaces_spans stubFaker openOptions stubHost
           aliceMetBob aliceAndBob aliceAndBob_inBounds
           aliceAndBob_nonOverlapping).
Defined.

Example applyRedactions_aliceMetBob :
  fst (applyRedactions openOptions stubHost aliceMetBob aliceAndBob)
  = js "[PERSON] met [PERSON]".
Proof. vm_compute. reflexivity. Qed.

(** ** Streaming Redaction Transformer *)

(** *** Splitting into lines *)

Lemma split_cons (sep : N) (s : jsstring) :
  exists l ls, JsString.split sep s = l :: ls.
Proof.
  induction s as [|c s [l [ls IH]]]; simpl.
  - exists [], []. reflexivity.
  - destruct (N.eqb c sep).
    + eexists; eexists; reflexivity.
    + rewrite IH. eexists; eexists; reflexivity.
Qed.

Lemma split_nonempty (sep : N) (s : jsstring) : JsString.split sep s <> [].
Proof. destruct (split_cons sep s) as (l & ls & ->). discriminate. Qed.

Lemma split_app (sep : N) (a b : jsstring) :
  JsString.split sep (a ++ b)
  = removelast (JsString.split sep a)
    ++ joinHead (last (JsString.split sep a) []) (JsString.split sep b).
Proof.
  induction a as [|c a IH]; simpl.
  - destruct (split_cons sep b) as (l & ls & ->). reflexivity.
  - destruct (split_cons sep a) as (l0 & ls0 & Ha).
    destruct (N.eqb c sep).
    + rewrite IH, Ha. destruct ls0; reflexivity.
    + rewrite IH, Ha. simpl.
      destruct ls0 as [|l1 ls1]; simpl.
      * destruct (split_cons sep b) as (lb & lsb & ->). reflexivity.
      * reflexivity.
Qed.

(** What follows the last separator holds no separator. *)
Lemma split_last_free (sep : N) (s : jsstring) :
  JsString.split sep (last (JsString.split sep s) [])
  = [last (JsString.split sep s) []].
Proof.
  induction s as [|c s IH]; simpl; [reflexivity|].
  destruct (split_cons sep s) as (l0 & ls0 & Ha).
  destruct (N.eqb c sep) eqn:E.
  - rewrite Ha in *. exact IH.
  - rewrite Ha in *. destruct ls0 as [|l1 ls1].
    + simpl in *. rewrite E, IH. reflexivity.
    + exact IH.
Qed.

(** Line reassembly: splitting the carried-over partial line followed by
    the new chunk continues the splitting of everything received. *)
Lemma split_carry (sep : N) (a b : jsstring) :
  JsString.split sep (a ++ b)
  = removelast (JsString.split sep a)
    ++ JsString.split sep (last (JsString.split sep a) [] ++ b).
Proof.
  rewrite split_app.
  rewrite (split_app sep (last (JsString.split sep a) []) b).
  rewrite split_last_free. reflexivity.
Qed.

Lemma last_app_nonempty {A : Type} (l l' : list A) (d : A) :
  l' <> [] -> last (l ++ l') d = last l' d.
Proof.
  intros H. induction l as [|x l IH]; simpl; [reflexivity|].
  rewrite IH. destruct (l ++ l') eqn:E; [|reflexivity].
  apply app_eq_nil in E as [_ E]. contradiction.
Qed.

(** *** What a stream receives and emits *)

Lemma frameContents_app (a b : list Pushed) :
  frameContents (a ++ b) = frameContents a ++ frameContents b.
Proof. apply flat_map_app. Qed.

Lemma extractDeltaContent_content (m m' : Meta)
    (data : OpenAiChatCompletionChunk) :
  fst (extractDeltaContent m data) = fst (extractDeltaContent m' data).
Proof.
  unfold extractDeltaContent.
  destruct (choices data) as [[|[choice|] cs]|]; try reflexivity.
  destruct (choiceDelta choice) as [[role [content|]]|]; reflexivity.
Qed.

Section StreamProperties.

Variable W : Type.
Variable redact : W -> jsstring -> (RedactError + RedactionResult) * W.
Variable clock : nat -> Z.
Variable settles : nat -> list nat.
Variable JSON_parse : jsstring -> option OpenAiChatCompletionChunk.
Variable options : StreamTransformerOptions.


(** With no flush in flight nothing can settle. *)
Lemma settleAll_idle (st : StreamState W) (positions : list nat) :
  inFlight st = [] -> settleAll redact st positions = (st, None).
Proof.
  intros H. induction positions as [|k ks IH]; [reflexivity|].
  cbn [settleAll]. unfold flushSettled. rewrite H.
  destruct k; exact IH.
Qed.

(** An awaited flush with no flush in flight: the text goes to [redact]
    at once. *)
Lemma flushBuffer_idle (st : StreamState W) (c : N) (b : jsstring) :
  buffer st = c :: b -> inFlight st = [] ->
  flushBuffer redact clock settles st
  = match emitRedacted redact (takeBuffer clock st) (c :: b) with
    | (st2, Some error) => (st2, Threw error)
    | (st2, None) => (st2, Returned)
    end.
Proof.
  intros B H. unfold flushBuffer. rewrite B.
  rewrite settleAll_idle by exact H. reflexivity.
Qed.

Hypothesis redact_succeeds :
  forall w t, exists r w', redact w t = (inr r, w').












End StreamProperties.

Section DrainProperties.

Variable W : Type.
Variable redact : W -> jsstring -> (RedactError + RedactionResult) * W.
Variable clock : nat -> Z.
Variable settles : nat -> list nat.
Variable JSON_parse : jsstring -> option OpenAiChatCompletionChunk.
Variable options : StreamTransformerOptions.

(** C6, as the code has it: at the terminator frame, and at the end of the
    upstream, a non-empty buffer is sent whole through [redact], whatever
    the flush triggers say, and is left empty (no flush the timer started
    being in flight).  When [redact] returns, the frame carrying its text
    is pushed before the terminator (at the end of the upstream: as the
    last thing pushed, after the unfinished last line, if any); when
    [redact] throws, the error ends the stream: no frame is pushed for the
    text and no terminator. *)
Theorem drain_flushes_buffer_first (st : StreamState W) (rawLine : jsstring) :
  buffer st <> [] ->
  isDoneLine rawLine = true ->
  inFlight st = [] ->
  let unfinished :=
    match lineBuffer st with
    | [] => []
    | _ => [Raw (lineBuffer st)]
    end in
  match redact (world st) (buffer st) with
  | (inr r, _) =>
      (exists f st',
         processLine redact clock settles JSON_parse options st rawLine
         = (st', None)
         /\ pushed st' = pushed st ++ [Frame f; Raw DONE_FRAME]
         /\ frameContent f = resultText r /\ buffer st' = []) /\
      (exists f st',
         _flush redact clock settles st = (st', None)
         /\ pushed st' = pushed st ++ unfinished ++ [Frame f]
         /\ frameContent f = resultText r /\ buffer st' = [])
  | (inl error, _) =>
      (exists st',
         processLine redact clock settles JSON_parse options st rawLine
         = (st', Some error)
         /\ pushed st' = pushed st /\ buffer st' = []) /\
      (exists st',
         _flush redact clock settles st = (st', Some error)
         /\ pushed st' = pushed st ++ unfinished /\ buffer st' = [])
  end.
Proof.
  intros Hb Hd Hf unfinished. unfold isDoneLine in Hd.
  apply andb_true_iff in Hd as [Hd1 Hd2].
  unfold processLine, _flush. rewrite Hd1, Hd2. cbn [negb].
  destruct (buffer st) as [|c b] eqn:B; [congruence|].
  rewrite (flushBuffer_idle redact clock settles st B Hf).
  match goal with
  | |- context [flushBuffer redact clock settles ?s] =>
      rewrite (@flushBuffer_idle W redact clock settles s c b eq_refl Hf)
  end.
  unfold emitRedacted. cbn [world takeBuffer lastMeta roleEmitted].
  destruct (redact (world st) (c :: b)) as [[e|r] w'].
  - split; eexists; (split; [reflexivity|]); cbn [pushed buffer].
    + split; reflexivity.
    + split; [|reflexivity]. subst unfinished.
      destruct (lineBuffer st); [rewrite app_nil_r|]; reflexivity.
  - destruct (formatAsOpenAiSSE (lastMeta st) (roleEmitted st) (resultText r))
      as [frame emitted] eqn:Fm.
    assert (frameContent frame = resultText r) as Hc
      by (unfold formatAsOpenAiSSE in Fm; injection Fm as <- _; reflexivity).
    split; eexists; eexists; (split; [reflexivity|]); cbn [pushed buffer push].
    + rewrite <- app_assoc.
      split; [reflexivity | split; [exact Hc | reflexivity]].
    + subst unfinished. destruct (lineBuffer st); simpl;
        [| rewrite <- app_assoc];
        (split; [reflexivity | split; [exact Hc | reflexivity]]).
Qed.

End DrainProperties.

(** *** A stream on concrete inputs *)


Lemma timedEvents_timely : timely timedEvents.
Proof. repeat constructor. Defined.



(** What C5 leaves out: a flush the timer started is not awaited.  When
    the terminator arrives while it is in flight, the terminator is pushed
    first; the text comes after it if the flush settles before the end of
    the upstream, and reaches nobody otherwise. *)
Example runStream_flush_overtaken :
  let lost :=
    fst (runStream emailRedact frozenClock noneSettles parseTwoPayloads
           DEFAULT_OPTIONS stubHost overtakenEvents) in
  let late :=
    fst (runStream emailRedact frozenClock noneSettles parseTwoPayloads
           DEFAULT_OPTIONS stubHost (overtakenEvents ++ [FlushSettled 0])) in
  inputText parseTwoPayloads overtakenEvents = js "b@c.d" /\
  pushed lost = [Raw [LF]; Raw DONE_FRAME; Raw [LF]] /\
  inFlight lost = [js "b@c.d"] /\
  (exists f, pushed late = [Raw [LF]; Raw DONE_FRAME; Raw [LF]; Frame f] /\
             frameContent f = js "b@c.d") /\
  inFlight late = [].
Proof.
  vm_compute. repeat split. eexists. split; reflexivity.
Qed.

Lemma beforeDone_buffer : buffer beforeDone <> [].
Proof. vm_compute. discriminate. Defined.

Lemma drain_flushes_buffer_first_witness :
  match emailRedact (world beforeDone) (buffer beforeDone) with
  | (inr r, _) =>
      (exists f st',
         processLine emailRedact frozenClock noneSettles parseTwoPayloads
           DEFAULT_OPTIONS beforeDone (js "data: [DONE]") = (st', None)
         /\ pushed st' = pushed beforeDone ++ [Frame f; Raw DONE_FRAME]
         /\ frameContent f = resultText r /\ buffer st' = []) /\
      (exists f st',
         _flush emailRedact frozenClock noneSettles beforeDone = (st', None)
         /\ pushed st'
            = pushed beforeDone
              ++ match lineBuffer beforeDone with
                 | [] => []
                 | _ => [Raw (lineBuffer beforeDone)]
                 end
              ++ [Frame f]
         /\ frameContent f = resultText r /\ buffer st' = [])
  | (inl error, _) =>
      (exists st',
         processLine emailRedact frozenClock noneSettles parseTwoPayloads
           DEFAULT_OPTIONS beforeDone (js "data: [DONE]") = (st', Some error)
         /\ pushed st' = pushed beforeDone /\ buffer st' = []) /\
      (exists st',
         _flush emailRedact frozenClock noneSettles beforeDone
         = (st', Some error)
         /\ pushed st'
            = pushed beforeDone
              ++ match lineBuffer beforeDone with
                 | [] => []
                 | _ => [Raw (lineBuffer beforeDone)]
                 end
         /\ buffer st' = [])
  end.
Proof.
  exact (@drain_flushes_buffer_first (Host stubFaker) emailRedact frozenClock
           noneSettles parseTwoPayloads DEFAULT_OPTIONS beforeDone
           (js "data: [DONE]") beforeDone_buffer eq_refl eq_refl).
Defined.

(** C6 as stated fails behind a redaction service that fails closed on a
    slow classifier: the text held in the buffer when the terminator line
    arrives, or when the upstream ends, goes to [redact], which throws;
    the stream ends in error, the buffer is empty, and no frame was pushed
    for the text. *)
Lemma drain_drops_text_on_timeout :
  let atDone :=
    processLine closedRedact frozenClock noneSettles parseTwoPayloads
      DEFAULT_OPTIONS closedBeforeDone (js "data: [DONE]") in
  let atEnd := _flush closedRedact frozenClock noneSettles closedBeforeDone in
  buffer closedBeforeDone = js "b@c.d" /\
  inFlight closedBeforeDone = [] /\
  frameContents (pushed closedBeforeDone) = [] /\
  (snd atDone = Some (InferenceTimeoutError 500) /\
   frameContents (pushed (fst atDone)) = [] /\
   buffer (fst atDone) = [] /\ inFlight (fst atDone) = []) /\
  (snd atEnd = Some (InferenceTimeoutError 500) /\
   frameContents (pushed (fst atEnd)) = [] /\
   buffer (fst atEnd) = [] /\ inFlight (fst atEnd) = []).
Proof. vm_compute. repeat split. Qed.

Example scenarioD :
  frameContents
    (pushed
       (fst (runStream
               (redact JsString.toLowerCase ssnPipeline openOptions)
               frozenClock noneSettles scenarioD_parse DEFAULT_OPTIONS
               stubHost
               [Chunk (sseLine (js "1")); Chunk (sseLine (js "2"));
                Chunk (sseLine (js "3")); Chunk (sseLine (js "4"))])))
  = [js "Hi there. "; js "My SSN is [SSN]."].
Proof. vm_compute. reflexivity. Qed.

(** Names the result and the state a computation returns. *)
Ltac break_let :=
  match goal with
  | |- context [let (_, _) := ?e in _] =>
      let a := fresh "a" in
      let s := fresh "s" in
      destruct e as [a s]
  end.

(** ** Decimal strings *)

Lemma parseDigits_digitsOfUint (d : Decimal.uint) :
  parseDigits (digitsOfUint d) = d.
Proof. induction d; simpl; congruence. Qed.

Lemma digitsOfUint_head (d : Decimal.uint) :
  d <> Decimal.Nil ->
  exists c r, digitsOfUint d = c :: r /\ (48 <= c <= 57)%N.
Proof.
  destruct d; [congruence | ..]; intros _; simpl;
    eexists; eexists; (split; [reflexivity | lia]).
Qed.

Lemma signedDigits_digitsOfUint (negative : bool) (d : Decimal.uint) :
  d <> Decimal.Nil ->
  signedDigits negative (digitsOfUint d)
  = Some (Z.of_int (if negative then Decimal.Neg d else Decimal.Pos d)).
Proof.
  intros Hd. unfold signedDigits. rewrite parseDigits_digitsOfUint.
  destruct d; [congruence | ..]; reflexivity.
Qed.

Lemma parseInt10_digits (d : Decimal.uint) :
  d <> Decimal.Nil ->
  parseInt10 (digitsOfUint d) = Some (Z.of_int (Decimal.Pos d)).
Proof.
  intros Hd. rewrite <- (signedDigits_digitsOfUint false Hd).
  destruct d; [congruence | ..]; reflexivity.
Qed.

Lemma parseInt10_neg_digits (d : Decimal.uint) :
  d <> Decimal.Nil ->
  parseInt10 (45%N :: digitsOfUint d) = Some (Z.of_int (Decimal.Neg d)).
Proof.
  intros Hd. rewrite <- (signedDigits_digitsOfUint true Hd). reflexivity.
Qed.

(** Reading back what [toString] wrote gives the number written. *)
Lemma parseInt10_numberToString (n : JsNum) :
  parseInt10 (numberToString n) = n.
Proof.
  destruct n as [z|]; [|reflexivity].
  unfold numberToString. rewrite <- (DecimalZ.of_to z) at 2.
  destruct z as [|p|p]; simpl Z.to_int.
  - reflexivity.
  - apply parseInt10_digits. apply DecimalPos.Unsigned.to_uint_nonnil.
  - apply parseInt10_neg_digits. apply DecimalPos.Unsigned.to_uint_nonnil.
Qed.

(** ** The map of the in-memory store *)

Lemma mapGet_mapDelete_same (m : JsMap) (k : jsstring) :
  mapGet (mapDelete m k) k = None.
Proof.
  induction m as [|[k' e] m IH]; simpl; [reflexivity|].
  destruct (JsString.eqb k' k) eqn:E; [exact IH|].
  simpl. rewrite E. exact IH.
Qed.

Lemma mapGet_mapDelete_other (m : JsMap) (k k' : jsstring) :
  k <> k' -> mapGet (mapDelete m k) k' = mapGet m k'.
Proof.
  intros H. induction m as [|[k0 e] m IH]; simpl; [reflexivity|].
  destruct (JsString.eqb k0 k) eqn:E.
  - apply eqb_eq in E. subst k0.
    destruct (JsString.eqb k k') eqn:E'; [apply eqb_eq in E'; contradiction|].
    exact IH.
  - simpl. rewrite IH. reflexivity.
Qed.

Lemma mapGet_mapSet_same (m : JsMap) (k : jsstring) (e : Entry) :
  mapGet (mapSet m k e) k = Some e.
Proof.
  induction m as [|[k' e'] m IH]; simpl.
  - rewrite eqb_refl. reflexivity.
  - destruct (JsString.eqb k' k) eqn:E; simpl; rewrite E;
      [reflexivity | exact IH].
Qed.

Lemma mapGet_mapSet_other (m : JsMap) (k k' : jsstring) (e : Entry) :
  k <> k' -> mapGet (mapSet m k e) k' = mapGet m k'.
Proof.
  intros H. induction m as [|[k0 e0] m IH]; simpl.
  - destruct (JsString.eqb k k') eqn:E; [apply eqb_eq in E; contradiction|].
    reflexivity.
  - destruct (JsString.eqb k0 k) eqn:E; simpl.
    + apply eqb_eq in E. subst k0.
      destruct (JsString.eqb k k') eqn:E'; [apply eqb_eq in E'; contradiction|].
      reflexivity.
    + rewrite IH. reflexivity.
Qed.

(** ** Session Risk Engine *)

Example scoreOf_25 : scoreOf (Some (js "25")) = Some 25%Z.
Proof. reflexivity. Qed.

Lemma lookup_In {A : Type} (tbl : list (jsstring * A)) (k : jsstring) (v : A) :
  lookup tbl k = Some v -> exists k', In (k', v) tbl.
Proof.
  induction tbl as [|[k0 v0] tbl IH]; simpl; [discriminate|].
  destruct (JsString.eqb k0 k).
  - intros [= <-]. exists k0. left; reflexivity.
  - intros H. destruct (IH H) as [k' Hk]. exists k'. right; exact Hk.
Qed.

(** No weight of the table is below 2. *)
Lemma PII_RISK_POINTS_ge_2 (type : jsstring) (p : Z) :
  lookup PII_RISK_POINTS type = Some p -> (2 <= p)%Z.
Proof.
  intros L. apply lookup_In in L as [k Hk].
  assert (Forall (fun kv : jsstring * Z => (2 <= snd kv)%Z) PII_RISK_POINTS)
    as HF by (repeat constructor; simpl; lia).
  rewrite Forall_forall in HF. exact (HF _ Hk).
Qed.

(** No name of the table is inherited from [Object.prototype]. *)
Lemma lookup_not_inherited (type : jsstring) (p : Z) :
  lookup PII_RISK_POINTS type = Some p -> inherited type = false.
Proof.
  intros L.
  assert (forall tbl : list (jsstring * Z),
            forallb (fun kv => negb (inherited (fst kv))) tbl = true ->
            lookup tbl type = Some p -> inherited type = false) as G.
  { induction tbl as [|[k v] tbl IH]; simpl; [discriminate|].
    intros H. apply andb_true_iff in H as [Hk Ht].
    destruct (JsString.eqb k type) eqn:E; [|exact (IH Ht)].
    intros _. apply eqb_eq in E. subst k.
    apply negb_true_iff in Hk. exact Hk. }
  apply (G PII_RISK_POINTS); [vm_compute; reflexivity | exact L].
Qed.

(** The points of an entity whose type names no member of
    [Object.prototype]: its weight. *)
Lemma riskPoints_weight (e : PiiEntity) :
  inherited (type e) = false -> riskPoints e = PNumber (weight (type e)).
Proof.
  intros I. unfold riskPoints, weight, getProperty. rewrite I.
  destruct (lookup PII_RISK_POINTS (type e)) as [p|] eqn:L; [|reflexivity].
  apply PII_RISK_POINTS_ge_2 in L.
  destruct (Z.eqb_spec p 0); [lia | reflexivity].
Qed.

(** The points of an entity whose type names one: the member itself. *)
Lemma riskPoints_inherited (e : PiiEntity) :
  inherited (type e) = true ->
  riskPoints e = PString (inheritedToString (type e)).
Proof.
  intros I. unfold riskPoints, getProperty.
  destruct (lookup PII_RISK_POINTS (type e)) as [p|] eqn:L.
  - apply lookup_not_inherited in L. congruence.
  - rewrite I. reflexivity.
Qed.

Lemma weight_bounds (type : jsstring) : (2 <= weight type <= 30)%Z.
Proof.
  unfold weight.
  destruct (lookup PII_RISK_POINTS type) as [p|] eqn:L; [|lia].
  pose proof (PII_RISK_POINTS_ge_2 _ L).
  apply lookup_In in L as [k Hk].
  assert (Forall (fun kv : jsstring * Z => (snd kv <= 30)%Z) PII_RISK_POINTS)
    as HF by (repeat constructor; simpl; lia).
  rewrite Forall_forall in HF. specialize (HF _ Hk). simpl in HF. lia.
Qed.

Lemma sumOfWeights_bounds (es : list PiiEntity) :
  (2 * Z.of_nat (length es) <= sumOfWeights es
   <= 30 * Z.of_nat (length es))%Z.
Proof.
  unfold sumOfWeights. induction es as [|e es IH]; [simpl; lia|].
  pose proof (weight_bounds (type e)).
  cbn [map fold_right length]. lia.
Qed.




(** Once a summand was no number the total is a string, and stays one. *)
Lemma pointsToAdd_string (es : list PiiEntity) (s : jsstring) :
  exists s', fold_left (fun a e => pointsPlus a (riskPoints e)) es (PString s)
             = PString s'.
Proof.
  revert s; induction es as [|e es IH]; intros s; simpl; [eauto|].
  apply IH.
Qed.

(** The total is a number exactly when no type names a member of
    [Object.prototype]. *)
Lemma pointsToAdd_cases (es : list PiiEntity) :
  match pointsToAdd es with
  | PNumber n =>
      Forall (fun e => inherited (type e) = false) es /\ n = sumOfWeights es
  | PString _ => Exists (fun e => inherited (type e) = true) es
  end.
Proof.
  unfold pointsToAdd.
  assert (forall acc,
            match fold_left (fun a e => pointsPlus a (riskPoints e)) es
                            (PNumber acc) with
            | PNumber n =>
                Forall (fun e => inherited (type e) = false) es /\
                n = (acc + sumOfWeights es)%Z
            | PString _ => Exists (fun e => inherited (type e) = true) es
            end) as G.
  { induction es as [|e es IH]; intros acc; simpl.
    - split; [constructor | unfold sumOfWeights; simpl; lia].
    - destruct (inherited (type e)) eqn:I.
      + rewrite (riskPoints_inherited e I). cbn [pointsPlus].
        match goal with
        | |- context [fold_left _ es (PString ?t)] =>
            destruct (pointsToAdd_string es t) as [s' ->]
        end.
        left. exact I.
      + rewrite (riskPoints_weight e I). cbn [pointsPlus].
        specialize (IH (acc + weight (type e))%Z).
        destruct (fold_left _ es _).
        * destruct IH as [HF ->]. split; [constructor; assumption|].
          unfold sumOfWeights. simpl. lia.
        * right. exact IH. }
  specialize (G 0%Z). destruct (fold_left _ es _); [|exact G].
  destruct G as [HF ->]. split; [exact HF | lia].
Qed.

Section SessionProperties.

Variable clock : nat -> Z.
Variable config : RiskConfig.

Let client := inMemoryClient clock.

(** What [get] returns and does to the map: the value of a live entry,
    and an expired entry is dropped. *)
Lemma mem_get_spec (key : jsstring) (s : InMemoryStore) :
  let now := clock (reads s) in
  fst (mem_get clock key s)
  = option_map value (liveAt (store s) key now) /\
  (store (snd (mem_get clock key s)) = store s
   \/ (liveAt (store s) key now = None
       /\ store (snd (mem_get clock key s)) = mapDelete (store s) key)).
Proof.
  unfold mem_get, liveAt, bind, ret, getStore, putStore, Date_now. simpl.
  destruct (mapGet (store s) key) as [entry|]; simpl; [|auto].
  destruct (truthy (expiresAt entry)) eqn:T; simpl; [|auto].
  destruct (expiresAt entry) as [e|]; [|discriminate].
  destruct (e <? clock (reads s))%Z; simpl; auto.
Qed.

Lemma getRiskScore_eq (sessionId : jsstring) (s : InMemoryStore) :
  getRiskScore client sessionId s
  = (scoreOf (fst (mem_get clock (riskPrefix ++ sessionId) s)),
     snd (mem_get clock (riskPrefix ++ sessionId) s)).
Proof.
  unfold getRiskScore, bind, ret, client. cbn [get inMemoryClient].
  destruct (mem_get clock (riskPrefix ++ sessionId) s) as [v s'].
  reflexivity.
Qed.

(** [incr] returns one more than the score [get] reads at that time. *)
Lemma mem_incr_result (key : jsstring) (s : InMemoryStore) :
  fst (mem_incr clock key s)
  = numAdd (scoreOf (fst (mem_get clock key s))) 1.
Proof.
  unfold mem_incr, bind, ret.
  destruct (mem_get clock key s) as [current s1]. cbn [fst].
  repeat break_let. cbn [fst].
  rewrite parseInt10_numberToString.
  destruct current as [[|c r]|]; reflexivity.
Qed.


(** With points that are no number, [incrementRisk] adds exactly one. *)
Lemma incrementRisk_string (sessionId text : jsstring) (windowMs : Z)
    (s : InMemoryStore) :
  fst (incrementRisk client sessionId (PString text) windowMs s)
  = numAdd (fst (getRiskScore client sessionId s)) 1.
Proof.
  rewrite getRiskScore_eq. cbn [fst].
  unfold incrementRisk, bind, ret, client.
  cbn [incr expire inMemoryClient].
  pose proof (mem_incr_result (riskPrefix ++ sessionId) s) as HI.
  destruct (mem_incr clock (riskPrefix ++ sessionId) s) as [newScore s1].
  cbn [fst] in HI.
  repeat break_let. cbn [fst]. exact HI.
Qed.


(** C8: with no entity, [assessRisk] reports the current score, adds no
    point, and writes nothing: an entry of the store is kept as it is, and
    the only change there can be is that the entry of the session, if it
    had expired when it was read, is dropped; what a later reader sees of
    any key, value and expiry, is what it would have seen before. *)
Theorem assessRisk_empty_reads_only (sessionId : jsstring)
    (s : InMemoryStore) :
  let current := fst (getRiskScore client sessionId s) in
  let after := snd (assessRisk client config sessionId [] s) in
  let now := clock (reads s) in
  fst (assessRisk client config sessionId [] s)
  = {| riskScore := current;
       riskIsBanned := numGe current (threshold config);
       pointsAdded := 0 |} /\
  (store after = store s \/
   (liveAt (store s) (riskPrefix ++ sessionId) now = None /\
    store after = mapDelete (store s) (riskPrefix ++ sessionId))) /\
  (forall key t, (now <= t)%Z ->
     liveAt (store after) key t = liveAt (store s) key t).
Proof.
  intros current after now. subst current after.
  unfold assessRisk, bind, ret. rewrite getRiskScore_eq. cbn [fst snd].
  set (key := riskPrefix ++ sessionId).
  destruct (mem_get_spec key s) as [_ Hst]. fold now in Hst.
  split; [reflexivity|]. split; [exact Hst|].
  intros k t Ht. destruct Hst as [->|[Hdead ->]]; [reflexivity|].
  unfold liveAt in *.
  destruct (eqb_neq key k) as [_ Hn].
  destruct (JsString.eqb key k) eqn:E.
  - apply eqb_eq in E. subst k. rewrite mapGet_mapDelete_same.
    destruct (mapGet (store s) key) as [entry|]; [|reflexivity].
    destruct (truthy (expiresAt entry)); simpl in *; [|discriminate].
    destruct (expiresAt entry) as [e|]; [|discriminate].
    destruct (Z.ltb_spec e now); [|discriminate].
    destruct (Z.ltb_spec e t); [reflexivity | lia].
  - rewrite mapGet_mapDelete_other by (apply eqb_neq; exact E). reflexivity.
Qed.

(** A session without a risk record has score 0 and is not banned,
    whatever positive threshold is configured. *)
Lemma getRiskScore_noRiskRecord (sessionId : jsstring) (thresh : Z)
    (s : InMemoryStore) :
  (0 < thresh)%Z ->
  noRiskRecord s sessionId (clock (reads s)) ->
  fst (getRiskScore client sessionId s) = Some 0%Z /\
  fst (storeIsBanned client sessionId thresh s) = false.
Proof.
  intros Ht Hn. unfold storeIsBanned, bind, ret.
  rewrite getRiskScore_eq. cbn [fst].
  destruct (mem_get_spec (riskPrefix ++ sessionId) s) as [Hv _].
  rewrite Hv. unfold noRiskRecord in Hn. rewrite Hn. simpl.
  split; [reflexivity|]. destruct (Z.leb_spec thresh 0); [lia | reflexivity].
Qed.

(** A new store holds no record at all. *)
Lemma noRiskRecord_new (sessionId : jsstring) (n : nat) (t : Z) :
  noRiskRecord {| store := []; reads := n |} sessionId t.
Proof. reflexivity. Qed.

(** [clearRisk] leaves no record of the session. *)
Lemma noRiskRecord_clearRisk (sessionId : jsstring) (s : InMemoryStore)
    (t : Z) :
  noRiskRecord (snd (clearRisk client sessionId s)) sessionId t.
Proof.
  unfold noRiskRecord, clearRisk, storeClearRisk, bind, ret, client.
  cbn [del inMemoryClient]. unfold mem_del, bind, ret, getStore, putStore.
  cbn [fst snd store]. unfold liveAt. rewrite mapGet_mapDelete_same.
  reflexivity.
Qed.

(** An entry whose expiry time has passed is no record. *)
Lemma noRiskRecord_expired (sessionId : jsstring) (s : InMemoryStore)
    (entry : Entry) (e t : Z) :
  mapGet (store s) (riskPrefix ++ sessionId) = Some entry ->
  expiresAt entry = Some e -> e <> 0%Z -> (e < t)%Z ->
  noRiskRecord s sessionId t.
Proof.
  intros Hg He Hz Hlt. unfold noRiskRecord, liveAt. rewrite Hg, He. simpl.
  destruct (Z.eqb_spec e 0); [contradiction|].
  destruct (Z.ltb_spec e t); [reflexivity | lia].
Qed.

(** *** A session whose risk was never incremented has no record *)

Lemma mapGet_mapDelete_none (m : JsMap) (k k' : jsstring) :
  mapGet m k = None -> mapGet (mapDelete m k') k = None.
Proof.
  intros H. destruct (JsString.eqb k' k) eqn:E.
  - apply eqb_eq in E. subst. apply mapGet_mapDelete_same.
  - rewrite mapGet_mapDelete_other by (apply eqb_neq; exact E). exact H.
Qed.

Lemma mapGet_mapSet_none (m : JsMap) (k k' : jsstring) (e : Entry) :
  k' <> k -> mapGet m k = None -> mapGet (mapSet m k' e) k = None.
Proof. intros Hk H. rewrite mapGet_mapSet_other by exact Hk. exact H. Qed.

(** What [set] leaves in the map: the new entry, set after the oldest
    key was evicted from a full map. *)
Lemma mem_set_store (key v : jsstring) (ttl : option Z) (s : InMemoryStore) :
  exists m e,
    store (snd (mem_set clock key v ttl s)) = mapSet m key e /\
    value e = v /\
    (m = store s \/ exists k0, m = mapDelete (store s) k0).
Proof.
  destruct s as [m0 n].
  unfold mem_set, bind, ret, getStore, putStore, Date_now. cbn [store reads].
  destruct (maxSize <=? N.of_nat (length m0))%N.
  - destruct m0 as [|[k0 e0] m].
    + destruct (truthy ttl); eexists; eexists;
        (split; [reflexivity|]); split; auto.
    + destruct (truthy ttl); eexists; eexists;
        (split; [reflexivity|]); (split; [reflexivity|]);
        right; exists k0; reflexivity.
  - destruct (truthy ttl); eexists; eexists;
      (split; [reflexivity|]); split; auto.
Qed.

Lemma preserves_ret {A : Type} (k : jsstring) (a : A) :
  preserves k (ret a).
Proof. intros s H. exact H. Qed.

Lemma preserves_bind {A B : Type} (k : jsstring)
    (m : State InMemoryStore A) (f : A -> State InMemoryStore B) :
  preserves k m -> (forall a, preserves k (f a)) -> preserves k (bind m f).
Proof.
  intros Hm Hf s H. unfold bind. specialize (Hm s H).
  destruct (m s) as [a s1]. exact (Hf a s1 Hm).
Qed.

Lemma preserves_repeatM {A : Type} (k : jsstring)
    (m : State InMemoryStore A) (n : nat) :
  preserves k m -> preserves k (repeatM n m).
Proof.
  intros Hm. induction n as [|n IH]; simpl.
  - apply preserves_ret.
  - apply preserves_bind; [exact Hm | intros _; exact IH].
Qed.

Lemma preserves_getStore (k : jsstring) : preserves k getStore.
Proof. intros s H. exact H. Qed.

Lemma preserves_Date_now (k : jsstring) : preserves k (Date_now clock).
Proof. intros s H. exact H. Qed.

Lemma preserves_putStore (k : jsstring) (m : JsMap) :
  mapGet m k = None -> preserves k (putStore m).
Proof. intros Hm s _. exact Hm. Qed.

Lemma mem_get_absent (k k' : jsstring) : preserves k (mem_get clock k').
Proof.
  intros s H. unfold absent in *.
  destruct (mem_get_spec k' s) as [_ [-> | [_ ->]]];
    [exact H | apply mapGet_mapDelete_none; exact H].
Qed.

Lemma mem_set_absent (k k' v : jsstring) (ttl : option Z) :
  k' <> k -> preserves k (mem_set clock k' v ttl).
Proof.
  intros Hk s H. unfold absent in *.
  destruct (mem_set_store k' v ttl s) as (m & e & -> & _ & [-> | [k0 ->]]);
    apply mapGet_mapSet_none; try exact Hk; try exact H.
  apply mapGet_mapDelete_none. exact H.
Qed.

Lemma mem_incr_absent (k k' : jsstring) :
  k' <> k -> preserves k (mem_incr clock k').
Proof.
  intros Hk. unfold mem_incr.
  apply preserves_bind; [apply mem_get_absent | intros current].
  apply preserves_bind; [apply preserves_getStore | intros m].
  apply preserves_bind.
  - destruct (mapGet m k') as [entry|]; [|apply preserves_ret].
    destruct (truthy (expiresAt entry)); [|apply preserves_ret].
    apply preserves_bind; [apply preserves_Date_now|].
    intros now. apply preserves_ret.
  - intros ttl. apply preserves_bind; [apply mem_set_absent; exact Hk|].
    intros _. apply preserves_ret.
Qed.

Lemma mem_expire_absent (k k' : jsstring) (ttl : Z) :
  k' <> k -> preserves k (mem_expire clock k' ttl).
Proof.
  intros Hk s H. unfold absent in *.
  unfold mem_expire, bind, ret, getStore, putStore, Date_now.
  destruct (mapGet (store s) k'); cbn [fst snd store]; [|exact H].
  apply mapGet_mapSet_none; assumption.
Qed.

Lemma mem_del_absent (k k' : jsstring) : preserves k (mem_del k').
Proof.
  intros s H. unfold absent in *.
  unfold mem_del, bind, ret, getStore, putStore.
  cbn [fst snd store]. apply mapGet_mapDelete_none. exact H.
Qed.

Lemma mem_hincrby_absent (k key field : jsstring) (amount : Z) :
  hashKey key field <> k -> preserves k (mem_hincrby clock key field amount).
Proof.
  intros Hk. unfold mem_hincrby.
  apply preserves_bind; [apply mem_get_absent | intros current].
  apply preserves_bind; [apply mem_set_absent; exact Hk|].
  intros _. apply preserves_ret.
Qed.

Lemma riskKey_inj (id id' : jsstring) :
  id' <> id -> riskPrefix ++ id' <> riskPrefix ++ id.
Proof. intros H E. apply app_inv_head in E. contradiction. Qed.

Lemma sessionKey_not_riskKey (id id' field : jsstring) :
  hashKey (keyPrefix ++ id') field <> riskPrefix ++ id.
Proof. discriminate. Qed.

Lemma incrementRisk_absent (id id' : jsstring) (points : Points)
    (windowMs : Z) :
  id' <> id ->
  preserves (riskPrefix ++ id) (incrementRisk client id' points windowMs).
Proof.
  intros Hid. apply riskKey_inj in Hid.
  unfold incrementRisk, client. cbn [incr expire inMemoryClient].
  apply preserves_bind; [apply mem_incr_absent; exact Hid|].
  intros newScore. apply preserves_bind.
  - destruct newScore as [[|[p|p|]|p]|]; try apply preserves_ret.
    apply preserves_bind; [apply mem_expire_absent; exact Hid|].
    intros _. apply preserves_ret.
  - intros _. destruct points as [n|text]; [|apply preserves_ret].
    destruct (1 <? n)%Z; [|apply preserves_ret].
    apply preserves_bind;
      [apply preserves_repeatM; apply mem_incr_absent; exact Hid|].
    intros _. apply preserves_ret.
Qed.

Lemma getRiskScore_absent (k id : jsstring) :
  preserves k (getRiskScore client id).
Proof.
  unfold getRiskScore, client. cbn [get inMemoryClient].
  apply preserves_bind; [apply mem_get_absent|].
  intros v. apply preserves_ret.
Qed.

Lemma runCall_absent (id : jsstring) (c : SessionCall) (s : InMemoryStore) :
  (forall points windowMs, c <> CallIncrementRisk id points windowMs) ->
  absent (riskPrefix ++ id) s ->
  absent (riskPrefix ++ id) (runCall client c s).
Proof.
  intros Hc. revert s.
  destruct c as [i f|i f a|i p w|i|i t|i|i]; cbn [runCall].
  - unfold sessionGet, client. cbn [hget inMemoryClient]. unfold mem_hget.
    apply mem_get_absent.
  - unfold sessionIncrement, client. cbn [hincrby inMemoryClient].
    apply mem_hincrby_absent. apply sessionKey_not_riskKey.
  - apply incrementRisk_absent. intros ->. exact (Hc p w eq_refl).
  - apply getRiskScore_absent.
  - unfold storeIsBanned.
    apply preserves_bind; [apply getRiskScore_absent|].
    intros v. apply preserves_ret.
  - unfold storeClearRisk, client. cbn [del inMemoryClient].
    apply preserves_bind; [apply mem_del_absent|].
    intros _. apply preserves_ret.
  - unfold clearSession, client. cbn [del inMemoryClient].
    apply preserves_bind; [apply mem_del_absent|]. intros _.
    apply preserves_bind; [apply mem_del_absent|]. intros _.
    apply preserves_ret.
Qed.

(** Whatever was called on a new store, a session on which
    [incrementRisk] was never called has no risk record. *)
Lemma noRiskRecord_neverIncremented (sessionId : jsstring)
    (calls : list SessionCall) (t : Z) :
  neverIncremented sessionId calls ->
  noRiskRecord (runCalls client calls {| store := []; reads := 0 |})
               sessionId t.
Proof.
  intros Hn.
  assert (absent (riskPrefix ++ sessionId)
            (runCalls client calls {| store := []; reads := 0 |})) as H.
  { unfold runCalls.
    assert (absent (riskPrefix ++ sessionId) {| store := []; reads := 0 |})
      as H0 by reflexivity.
    revert H0. generalize {| store := []; reads := 0 |}.
    induction calls as [|c cs IH]; intros s H0; simpl; [exact H0|].
    apply IH.
    - intros p w Hin. apply (Hn p w). right. exact Hin.
    - apply runCall_absent; [|exact H0].
      intros p w ->. apply (Hn p w). left. reflexivity. }
  unfold noRiskRecord, liveAt. unfold absent in H. rewrite H. reflexivity.
Qed.

End SessionProperties.

(** C10: for a session on which [incrementRisk] was never called since
    the store was created, or whose risk key was just cleared, or whose
    risk entry has expired, [getRiskScore] returns 0 and [isBanned] is
    false for every threshold above 0. *)
Theorem getRiskScore_unseen_session (clock : nat -> Z)
    (sessionId : jsstring) (thresh : Z) (s : InMemoryStore) :
  (0 < thresh)%Z ->
  unseen clock sessionId s ->
  fst (getRiskScore (inMemoryClient clock) sessionId s) = Some 0%Z /\
  fst (storeIsBanned (inMemoryClient clock) sessionId thresh s) = false.
Proof.
  intros Ht Hu. apply getRiskScore_noRiskRecord; [exact Ht|].
  destruct Hu as [(calls & Hn & ->) | [(s0 & ->) | (entry & e & H)]].
  - apply noRiskRecord_neverIncremented. exact Hn.
  - apply noRiskRecord_clearRisk.
  - destruct H as (Hg & He & Hz & Hlt).
    exact (noRiskRecord_expired sessionId s Hg He Hz Hlt).
Qed.

Lemma getRiskScore_unseen_session_witness :
  fst (getRiskScore (inMemoryClient msClock) (js "session-1") newStore)
  = Some 0%Z /\
  fst (storeIsBanned (inMemoryClient msClock) (js "session-1") 40 newStore)
  = false.
Proof.
  apply (@getRiskScore_unseen_session msClock (js "session-1") 40 newStore).
  - reflexivity.
  - left. exists []. split; [intros p w H; exact H | reflexivity].
Defined.

(** ** Two assessments within one window *)


Section WindowProperties.

Variable clock : nat -> Z.

Lemma mem_set_eq (key v : jsstring) (ttl : option Z) (s : InMemoryStore) :
  mem_set clock key v ttl s
  = (tt,
     {| store :=
          mapSet (evict (store s)) key
            {| value := v;
               expiresAt :=
                 if truthy ttl then
                   match ttl with
                   | Some t => Some (clock (reads s) + t * 1000)%Z
                   | None => None
                   end
                 else None |};
        reads := if truthy ttl then S (reads s) else reads s |}).
Proof.
  destruct s as [m n].
  unfold mem_set, evict, bind, ret, getStore, putStore, Date_now.
  cbn [store reads].
  destruct (maxSize <=? N.of_nat (length m))%N.
  - destruct m as [|[k0 e0] m']; destruct (truthy ttl); reflexivity.
  - destruct (truthy ttl); reflexivity.
Qed.

Lemma mem_get_live_eq (key : jsstring) (s : InMemoryStore) (v : jsstring)
    (E : Z) :
  mapGet (store s) key = Some {| value := v; expiresAt := Some E |} ->
  E <> 0%Z -> (clock (reads s) <= E)%Z ->
  mem_get clock key s
  = (Some v, {| store := store s; reads := S (reads s) |}).
Proof.
  intros Hg Hz Hl. unfold mem_get, bind, ret, getStore, putStore, Date_now.
  rewrite Hg. cbn [expiresAt truthy value].
  destruct (Z.eqb_spec E 0); [contradiction|]. cbn [negb].
  destruct (Z.ltb_spec E (clock (reads s))); [lia | reflexivity].
Qed.






Let client := inMemoryClient clock.

Hypothesis clock_positive : forall n, (0 < clock n)%Z.
Hypothesis clock_monotone : forall n, (clock n <= clock (S n))%Z.





End WindowProperties.




Example scenarioC_evaluated :
  scenarioC
  = ({| riskScore := Some 25%Z; riskIsBanned := false; pointsAdded := 25 |},
     {| riskScore := Some 50%Z; riskIsBanned := true; pointsAdded := 25 |}).
Proof. vm_compute. reflexivity. Qed.

(* ================================================================= *)
(** * Further properties *)

(** ** Entity Locator: what every located entity looks like *)

Lemma LABEL_TO_PII_TYPE_range (l ty : jsstring) :
  lookup LABEL_TO_PII_TYPE l = Some ty -> In ty PII_ENTITY_TYPES.
Proof.
  intros H. apply lookup_In in H as [k H].
  repeat (destruct H as [H|H];
          [injection H as _ <-; vm_compute; tauto|]).
  destruct H.
Qed.

Lemma inherited_In (key : jsstring) :
  inherited key = true <-> In key OBJECT_PROTOTYPE.
Proof.
  unfold inherited. rewrite existsb_exists. split.
  - intros (k & Hk & E). apply eqb_eq in E. subst. exact Hk.
  - intros H. exists key. split; [exact H | apply eqb_refl].
Qed.

(** What a truthy value of the label table is: a type of the table, or
    the member of [Object.prototype] that the label names. *)
Lemma truthyProperty_cases (l ty : jsstring) :
  truthyProperty (getProperty LABEL_TO_PII_TYPE l) = Some ty ->
  (getProperty LABEL_TO_PII_TYPE l = Own ty /\ In ty PII_ENTITY_TYPES) \/
  (getProperty LABEL_TO_PII_TYPE l = Inherited l /\
   In l OBJECT_PROTOTYPE /\ ty = inheritedToString l).
Proof.
  unfold getProperty.
  destruct (lookup LABEL_TO_PII_TYPE l) as [v|] eqn:L.
  - intros H. assert (v = ty) as <-
      by (destruct v; [discriminate H | injection H as H; exact H]).
    left. split; [reflexivity | exact (LABEL_TO_PII_TYPE_range l L)].
  - destruct (inherited l) eqn:I; [|discriminate].
    intros [= <-]. right. apply inherited_In in I. auto.
Qed.

Lemma scan_first (target s : jsstring) (pos i : nat) :
  JsString.scan target s pos = Some i ->
  JsString.startsWith (skipn (i - pos) s) target = true /\
  forall j, j < i - pos -> JsString.startsWith (skipn j s) target = false.
Proof.
  revert pos; induction s as [|c s IH]; intros pos; cbn [JsString.scan].
  - destruct (JsString.startsWith [] target) eqn:E; [|discriminate].
    intros [= <-]. rewrite Nat.sub_diag. split; [exact E | intros j Hj; lia].
  - destruct (JsString.startsWith (c :: s) target) eqn:E.
    + intros [= <-]. rewrite Nat.sub_diag. split; [exact E | intros j Hj; lia].
    + intros H. pose proof (scan_some _ _ _ H) as [Hle _].
      apply IH in H as [H1 H2].
      replace (i - pos) with (S (i - S pos)) by lia. split; [exact H1|].
      intros [|j] Hj; [exact E | apply H2; lia].
Qed.

Lemma scan_nowhere (target s : jsstring) (pos : nat) :
  JsString.scan target s pos = None ->
  forall j, j <= length s -> JsString.startsWith (skipn j s) target = false.
Proof.
  revert pos; induction s as [|c s IH]; intros pos; cbn [JsString.scan].
  - destruct (JsString.startsWith [] target) eqn:E; [discriminate|].
    intros _ [|j] Hj; [exact E | simpl in Hj; lia].
  - destruct (JsString.startsWith (c :: s) target) eqn:E; [discriminate|].
    intros H [|j] Hj; [exact E|]. simpl in Hj. simpl.
    apply (IH _ H). lia.
Qed.

(** [indexOf] returns the first occurrence at or after [from]. *)
Lemma indexOf_first (s target : jsstring) (from i : nat) :
  JsString.indexOf s target from = Some i ->
  occursAt s target i /\
  forall p, from <= p -> p < i -> ~ occursAt s target p.
Proof.
  unfold JsString.indexOf. intros H.
  pose proof (scan_some _ _ _ H) as [Hlo Hhi].
  rewrite length_skipn in Hhi.
  apply scan_first in H as [H1 H2]. split.
  - split; [lia|].
    destruct (Nat.le_gt_cases from (length s)) as [Hf|Hf].
    + rewrite skipn_skipn in H1.
      replace (i - Nat.min from (length s) + from) with i in H1 by lia.
      exact H1.
    + rewrite (skipn_all2 s) in H1 by lia. rewrite skipn_nil in H1.
      rewrite skipn_all2 by lia. exact H1.
  - intros p Hp Hpi [_ Hocc].
    assert (from <= length s) as Hf by lia.
    specialize (H2 (p - from)).
    rewrite skipn_skipn in H2.
    replace (p - from + from) with p in H2 by lia.
    rewrite H2 in Hocc by lia. discriminate.
Qed.

Lemma indexOf_nowhere (s target : jsstring) (from : nat) :
  JsString.indexOf s target from = None ->
  forall p, from <= p -> ~ occursAt s target p.
Proof.
  unfold JsString.indexOf. intros H p Hp [Hle Hocc].
  pose proof (@scan_nowhere _ _ _ H (p - from)) as N.
  rewrite length_skipn, skipn_skipn in N.
  replace (p - from + from) with p in N by lia.
  rewrite N in Hocc by lia. discriminate.
Qed.

Section LocatorShape.

Variable toLowerCase : jsstring -> jsstring.

Lemma findPosition_loop_leftmost (search lower target : jsstring)
    (n : nat) (used : list (nat * nat)) (fuel : nat) :
  n <= length lower ->
  forall from,
  n <= fuel + from ->
  (forall p, p < from -> occursAt lower target p ->
             overlapsUsed used p (p + length search) = true) ->
  match findPosition_loop fuel search lower target n used from with
  | Some (s, e) =>
      e = s + length search /\ occursAt lower target s /\
      overlapsUsed used s e = false /\
      forall p, p < s -> occursAt lower target p ->
                overlapsUsed used p (p + length search) = true
  | None =>
      forall p, p < n -> occursAt lower target p ->
                overlapsUsed used p (p + length search) = true
  end.
Proof.
  intros Hn.
  induction fuel as [|fuel IH]; intros from Hfuel Hinv; simpl.
  - intros p Hp. apply Hinv. lia.
  - destruct (Nat.ltb_spec from n) as [Hlt|Hge];
      [|intros p Hp; apply Hinv; lia].
    destruct (JsString.indexOf lower target from) as [i|] eqn:E.
    + pose proof (indexOf_some _ _ _ E) as [Hmin _].
      apply indexOf_first in E as [Hocc Hfirst].
      assert (forall p, p < i -> occursAt lower target p ->
                        overlapsUsed used p (p + length search) = true) as Hp.
      { intros p Hpi Ho. destruct (Nat.lt_ge_cases p from) as [L|G].
        - apply Hinv; assumption.
        - exfalso. exact (Hfirst p G Hpi Ho). }
      destruct (overlapsUsed used i (i + length search)) eqn:O; simpl.
      * apply IH.
        -- destruct Hocc as [Hocc _]. lia.
        -- intros p Hpi Ho. destruct (Nat.eq_dec p i) as [->|Hne];
             [exact O | apply Hp; [lia | exact Ho]].
      * repeat split; try assumption; apply Hocc.
    + intros p Hpn Ho. destruct (Nat.lt_ge_cases p from) as [L|G].
      * apply Hinv; assumption.
      * exfalso. exact (@indexOf_nowhere _ _ _ E p G Ho).
Qed.

(** X4: [findPosition] returns the leftmost occurrence of the lower-cased
    search string in the lower-cased text that overlaps no used range;
    it returns nothing only when every occurrence that starts before
    [text.length] overlaps a used range.  Lower-casing is assumed not to
    shorten the text, as it never does: the cursor of the loop then moves
    forward at every iteration. *)
Theorem findPosition_leftmost (search text : jsstring)
    (used : list (nat * nat)) :
  length text <= length (toLowerCase text) ->
  let lower := toLowerCase text in
  let target := toLowerCase search in
  let busy p := overlapsUsed used p (p + length search) = true in
  match findPosition toLowerCase search text used with
  | Some (s, e) =>
      e = s + length search /\ occursAt lower target s /\ ~ busy s /\
      forall p, p < s -> occursAt lower target p -> busy p
  | None => forall p, p < length text -> occursAt lower target p -> busy p
  end.
Proof.
  intros Hlen lower target busy. unfold findPosition. fold lower target.
  pose proof (@findPosition_loop_leftmost search lower target (length text)
                used (length text) Hlen 0) as H.
  destruct (findPosition_loop _ _ _ _ _ _ _) as [[s e]|].
  - destruct H as (He & Ho & Hfree & Hleft); [lia | intros p Hp; lia |].
    repeat split; try assumption; try apply Ho.
    unfold busy. rewrite <- He, Hfree. discriminate.
  - apply H; [lia | intros p Hp; lia].
Qed.

(** X2: every located entity has a span of at least two code units and as
    its text the slice of the input at its span; its type is the value
    the table has under a label, one of the seventeen types, or, under a
    label that names a member of [Object.prototype], that member. *)
Theorem groupAndLocateEntities_entities_shape (tokens : list RawToken)
    (input : jsstring) :
  Forall (fun e =>
            (exists l,
               (getProperty LABEL_TO_PII_TYPE l = Own (type e) /\
                In (type e) PII_ENTITY_TYPES) \/
               (getProperty LABEL_TO_PII_TYPE l = Inherited l /\
                In l OBJECT_PROTOTYPE /\ type e = inheritedToString l)) /\
            text e = JsString.slice input (start e) (end_ e) /\
            start e + 2 <= end_ e)
         (groupAndLocateEntities toLowerCase tokens input).
Proof.
  apply groupAndLocateEntities_inv.
  intros g u e. unfold finalizeGroup.
  destruct (truthyProperty (getProperty LABEL_TO_PII_TYPE (label g)))
    as [ty|] eqn:L; [|discriminate].
  destruct (Nat.ltb_spec (length (JsString.trim (joinWords [] (words g)))) 2)
    as [|Hlen]; [discriminate|].
  destruct (findPosition toLowerCase _ input u) as [[s e']|] eqn:P;
    [|discriminate].
  intros [= <-]; simpl.
  apply findPosition_some in P as (-> & _ & _).
  split; [|split; [reflexivity | lia]].
  exists (label g). apply truthyProperty_cases in L as [[L I]|[L [I ->]]].
  - left. split; [exact L | exact I].
  - right. split; [exact L | split; [exact I | reflexivity]].
Qed.

(** X3: when lower-casing keeps the length of the text and never shortens a
    string, every span lies inside the text and the entity's text has
    exactly the length of its span. *)
Theorem groupAndLocateEntities_spans_within_text (tokens : list RawToken)
    (input : jsstring) :
  length (toLowerCase input) = length input ->
  (forall s, length s <= length (toLowerCase s)) ->
  Forall (fun e =>
            start e < end_ e /\ end_ e <= length input /\
            length (text e) = end_ e - start e)
         (groupAndLocateEntities toLowerCase tokens input).
Proof.
  intros Htext Hgrow.
  apply groupAndLocateEntities_inv.
  intros g u e F.
  pose proof (@finalizeGroup_some toLowerCase g input u e F)
    as (Hse & _ & Hin).
  specialize (Hin Htext Hgrow).
  split; [exact Hse|]. split; [exact Hin|].
  revert F. unfold finalizeGroup.
  destruct (truthyProperty (getProperty LABEL_TO_PII_TYPE (label g)));
    [|discriminate].
  destruct (_ <? 2); [discriminate|].
  destruct (findPosition toLowerCase _ input u) as [[s e']|]; [|discriminate].
  intros [= <-]. simpl in *. unfold JsString.slice.
  rewrite length_firstn, length_skipn. lia.
Qed.

Lemma closeGroup_count (st : LocatorState) (input : jsstring) :
  length (fst (closeGroup toLowerCase st input))
  <= length (entities st)
     + match group st with Some _ => 1 | None => 0 end.
Proof.
  unfold closeGroup. destruct (group st) as [g|]; simpl; [|lia].
  destruct (finalizeGroup toLowerCase g input (usedRanges st)); simpl;
    [rewrite length_app; simpl|]; lia.
Qed.

Lemma locateStep_count (st : LocatorState) (input : jsstring)
    (token : RawToken) :
  let st' := locateStep toLowerCase input st token in
  length (entities st') + match group st' with Some _ => 1 | None => 0 end
  <= length (entities st) + match group st with Some _ => 1 | None => 0 end
     + (if labelled token then 1 else 0).
Proof.
  pose proof (closeGroup_count st input) as C.
  unfold locateStep, labelled.
  destruct (parseLabel (entity token)) as [[|c l]|].
  - destruct (closeGroup toLowerCase st input); simpl in *. lia.
  - destruct (truthyProperty (getProperty LABEL_TO_PII_TYPE (c :: l))).
    + destruct (match group st with Some g => _ | None => false end) eqn:E.
      * destruct (group st); [simpl; lia | discriminate].
      * destruct (closeGroup toLowerCase st input); simpl in *. lia.
    + destruct (closeGroup toLowerCase st input); simpl in *. lia.
  - destruct (closeGroup toLowerCase st input); simpl in *. lia.
Qed.

(** X5: there are never more entities than tokens under whose label the
    table has a value, its own or one inherited from [Object.prototype];
    in particular tokens that are all unlabelled, or labelled with names
    the table has nothing under, yield no entity. *)
Theorem groupAndLocateEntities_count (tokens : list RawToken)
    (input : jsstring) :
  length (groupAndLocateEntities toLowerCase tokens input)
  <= length (filter labelled tokens).
Proof.
  unfold groupAndLocateEntities.
  set (st0 := {| entities := []; usedRanges := []; group := None |}).
  assert (forall st,
            let st' := fold_left (locateStep toLowerCase input) tokens st in
            length (entities st')
            + match group st' with Some _ => 1 | None => 0 end
            <= length (entities st)
               + match group st with Some _ => 1 | None => 0 end
               + length (filter labelled tokens)) as H.
  { induction tokens as [|t ts IH]; intros st; simpl; [lia|].
    specialize (IH (locateStep toLowerCase input st t)).
    pose proof (locateStep_count st input t) as S. simpl in IH, S.
    destruct (labelled t); simpl; lia. }
  specialize (H st0). simpl in H.
  destruct (group (fold_left _ tokens st0)) as [g|]; [|lia].
  destruct (finalizeGroup toLowerCase g input _);
    [rewrite length_app; simpl|]; lia.
Qed.

End LocatorShape.

(** The second "Alice" of the text, its first occurrence being taken. *)
Lemma findPosition_leftmost_witness :
  findPosition JsString.toLowerCase (js "alice") aliceMetAlice [(0, 5)]
  = Some (10, 15) /\
  forall p, p < 10 ->
    occursAt (JsString.toLowerCase aliceMetAlice) (js "alice") p ->
    overlapsUsed [(0, 5)] p (p + 5) = true.
Proof.
  pose proof (@findPosition_leftmost JsString.toLowerCase (js "alice")
                aliceMetAlice [(0, 5)]
                (toLowerCase_length_le aliceMetAlice)) as H.
  split; [reflexivity|].
  change (findPosition JsString.toLowerCase (js "alice") aliceMetAlice
            [(0, 5)]) with (Some (10, 15)) in H.
  cbv zeta in H. apply H.
Defined.

Lemma groupAndLocateEntities_spans_within_text_witness :
  Forall (fun e =>
            start e < end_ e /\ end_ e <= length myEmailIs /\
            length (text e) = end_ e - start e)
         (groupAndLocateEntities JsString.toLowerCase [tokA] myEmailIs).
Proof.
  apply groupAndLocateEntities_spans_within_text.
  - reflexivity.
  - exact toLowerCase_length_le.
Defined.

(** Under a label that names a member of [Object.prototype] the table
    has a truthy value: the token is grouped and located, and the type of
    the entity is that member. *)
Example groupAndLocateEntities_inherited_label :
  map (fun e => (type e, text e, start e, end_ e))
      (groupAndLocateEntities JsString.toLowerCase [constructorToken]
         (js "Hi Bob"))
  = [(js "function Object() { [native code] }", js "Bob", 3, 6)].
Proof. vm_compute. reflexivity. Qed.

(** ** Redaction Orchestrator: outcomes of [redact] *)

Lemma trimStart_nil (s : jsstring) :
  JsString.trimStart s = [] <->
  Forall (fun c => JsString.isWhiteSpace c = true) s.
Proof.
  induction s as [|c s IH]; simpl.
  - split; [constructor | reflexivity].
  - destruct (JsString.isWhiteSpace c) eqn:E.
    + rewrite IH. split; [constructor; assumption|].
      intros H. inversion H; assumption.
    + split; [discriminate|]. intros H. inversion H; congruence.
Qed.

Lemma trimStart_head (s : jsstring) (c : N) (r : jsstring) :
  JsString.trimStart s = c :: r -> JsString.isWhiteSpace c = false.
Proof.
  induction s as [|x s IH]; simpl; [discriminate|].
  destruct (JsString.isWhiteSpace x) eqn:E; [exact IH|].
  intros [= <- _]. exact E.
Qed.

(** [text.trim()] is empty exactly when [text] is made of white space. *)
Lemma trim_nil (s : jsstring) :
  JsString.trim s = [] <->
  Forall (fun c => JsString.isWhiteSpace c = true) s.
Proof.
  unfold JsString.trim, JsString.trimEnd. split.
  - intros H. apply trimStart_nil.
    destruct (JsString.trimStart s) as [|c r] eqn:E; [reflexivity|].
    exfalso. pose proof (trimStart_head _ E) as Hc.
    assert (JsString.trimStart (rev (c :: r)) = []) as T.
    { apply (f_equal (@rev N)) in H. rewrite rev_involutive in H.
      exact H. }
    apply trimStart_nil in T. rewrite Forall_forall in T.
    specialize (T c). rewrite T in Hc; [discriminate|].
    apply in_rev. rewrite rev_involutive. left; reflexivity.
  - intros H. apply trimStart_nil in H. rewrite H. reflexivity.
Qed.

Lemma isBlank_spec (s : jsstring) :
  isBlank s = true <-> Forall (fun c => JsString.isWhiteSpace c = true) s.
Proof.
  unfold isBlank. destruct s as [|c s]; [split; [constructor | reflexivity]|].
  rewrite <- trim_nil. destruct (JsString.trim (c :: s));
    split; congruence.
Qed.

(** Two lists with the same elements, both in strictly descending order,
    are the same list. *)
Lemma sorted_Permutation_eq {A : Type} (key : A -> nat) (l l' : list A) :
  StronglySorted (fun a b => key a > key b) l ->
  StronglySorted (fun a b => key a > key b) l' ->
  Permutation l l' -> l = l'.
Proof.
  revert l'; induction l as [|a l IH]; intros l' Hs Hs' HP.
  - apply Permutation_nil in HP. subst. reflexivity.
  - destruct l' as [|b l'];
      [apply Permutation_sym, Permutation_nil in HP; discriminate|].
    inversion Hs as [|? ? Hl Ha]; subst.
    inversion Hs' as [|? ? Hl' Hb]; subst.
    rewrite Forall_forall in Ha, Hb.
    assert (a = b) as ->.
    { assert (In a (b :: l')) as [E|Ia]
        by (eapply Permutation_in; [exact HP | left; reflexivity]);
        [congruence|].
      assert (In b (a :: l)) as [E|Ib]
        by (eapply Permutation_in;
            [apply Permutation_sym; exact HP | left; reflexivity]);
        [congruence|].
      specialize (Ha b Ib). specialize (Hb a Ia). lia. }
    f_equal. apply IH; [assumption | assumption |].
    eapply Permutation_cons_inv; exact HP.
Qed.

Lemma sortedEntities_strict (es : list PiiEntity) :
  Forall (fun e => start e < end_ e) es -> nonOverlapping es ->
  StronglySorted (fun a b => start a > start b) (sortedEntities es).
Proof.
  intros Hne Hno.
  pose proof (sortedEntities_Permutation es) as HP.
  pose proof (sortedEntities_descending es) as HS.
  assert (ForallOrdPairs (fun a b => ~ overlaps a b) (sortedEntities es)) as HO.
  { apply ForallOrdPairs_Permutation with (l := es);
      [| exact HP | apply nonOverlapping_ForallOrdPairs; exact Hno].
    unfold overlaps. intros a b H [H1 H2]. apply H. lia. }
  assert (Forall (fun e => start e < end_ e) (sortedEntities es)) as HN
    by (eapply Permutation_Forall; eassumption).
  revert HS HO HN. generalize (sortedEntities es). intros l.
  induction l as [|a l IH]; intros HS HO HN; [constructor|].
  inversion HS as [|? ? HS' Hge]; subst.
  inversion HO as [|? ? Hov HO']; subst.
  inversion HN as [|? ? Ha HN']; subst.
  constructor; [apply IH; assumption|].
  rewrite Forall_forall in *. intros b Hb.
  specialize (Hge b Hb). specialize (Hov b Hb). specialize (HN' b Hb).
  unfold overlaps in Hov. lia.
Qed.

Section RedactionOutcomes.

Variable toLowerCase : jsstring -> jsstring.
Variable F : FakerLib.
Variable pipeline : Pipeline.
Variable options : RedactionOptions.

(** X7: a text made of white space only (the empty text included) comes back
    unchanged, with no entity and a processing time of 0, whatever the
    classifier would do: it is not consulted, and the faker singleton is
    left alone. *)
Theorem redact_blank_text (h : Host F) (input : jsstring) :
  Forall (fun c => JsString.isWhiteSpace c = true) input ->
  redact toLowerCase pipeline options h input
  = (inr {| resultText := input; resultEntities := [];
            processingTimeMs := 0 |}, h) /\
  detect toLowerCase pipeline input
  = Fulfilled 0%Z {| inferredEntities := []; inferenceTimeMs := 0 |}.
Proof.
  intros H. apply isBlank_spec in H. unfold redact, detect.
  rewrite H. split; reflexivity.
Qed.

(** X8: everything [redact] can do: a result without entities has the input
    text and leaves the host as it was; a result with entities reports
    the entities located in the answer the classifier gave in time; an
    error leaves the host as it was and is either the timeout error, under
    fail-closed and after the classifier exceeded the timeout, or the
    rejection the classifier raised in time. *)
Theorem redact_outcomes (h : Host F) (input : jsstring) :
  match redact toLowerCase pipeline options h input with
  | (inr r, h') =>
      (resultEntities r = [] -> resultText r = input /\ h' = h) /\
      (resultEntities r <> [] ->
       exists d tokens,
         pipeline input = Fulfilled d tokens /\ (d <= timeoutMs options)%Z /\
         resultEntities r = groupAndLocateEntities toLowerCase tokens input /\
         processingTimeMs r = d /\
         (resultText r, h')
         = applyRedactions options h input (resultEntities r))
  | (inl (InferenceTimeoutError t), h') =>
      h' = h /\ t = timeoutMs options /\ failStrategy options = closed /\
      exceedsTimeout (pipeline input) (timeoutMs options)
  | (inl (CollaboratorError reason), h') =>
      h' = h /\
      exists d, pipeline input = Rejected d reason /\ (d <= timeoutMs options)%Z
  end.
Proof.
  unfold redact. destruct (isBlank input).
  { split; [auto | intros H; exfalso; apply H; reflexivity]. }
  unfold runInference.
  destruct (pipeline input) as [d tokens|d reason|]; simpl.
  - destruct (Z.leb_spec d (timeoutMs options)) as [Hd|Hd]; simpl.
    + destruct (groupAndLocateEntities toLowerCase tokens input)
        as [|e es] eqn:G.
      * split; [auto | intros H; exfalso; apply H; reflexivity].
      * destruct (applyRedactions options h input (e :: es)) as [t h'] eqn:A.
        simpl. split; [discriminate|]. intros _.
        exists d, tokens. split; [reflexivity|]. split; [assumption|].
        split; [symmetry; exact G|]. split; [reflexivity|].
        symmetry; exact A.
    + destruct (failStrategy options) eqn:S.
      * repeat split; assumption.
      * split; [auto | intros H; exfalso; apply H; reflexivity].
  - destruct (Z.leb_spec d (timeoutMs options)) as [Hd|Hd]; simpl.
    + split; [reflexivity|]. exists d. split; [reflexivity | assumption].
    + destruct (failStrategy options) eqn:S.
      * repeat split; assumption.
      * split; [auto | intros H; exfalso; apply H; reflexivity].
  - destruct (failStrategy options) eqn:S.
    + repeat split; exact I.
    + split; [auto | intros H; exfalso; apply H; reflexivity].
Qed.

(** X10: the order in which the entities are listed does not matter: two
    lists of the same pairwise disjoint, non-empty spans are replaced in
    the same order and give the same text. *)
Theorem applyRedactions_order_independent (h : Host F) (input : jsstring)
    (es es' : list PiiEntity) :
  Forall (fun e => start e < end_ e) es ->
  nonOverlapping es ->
  Permutation es es' ->
  applyRedactions options h input es' = applyRedactions options h input es.
Proof.
  intros Hne Hno HP. unfold applyRedactions. f_equal.
  apply sorted_Permutation_eq with (key := start).
  - apply sortedEntities_strict.
    + eapply Permutation_Forall; eassumption.
    + apply nonOverlapping_ForallOrdPairs.
      apply ForallOrdPairs_Permutation with (l := es);
        [| exact HP | apply nonOverlapping_ForallOrdPairs; exact Hno].
      unfold overlaps. intros a b H [H1 H2]. apply H. lia.
  - apply sortedEntities_strict; assumption.
  - rewrite <- (sortedEntities_Permutation es').
    rewrite <- (sortedEntities_Permutation es).
    apply Permutation_sym. exact HP.
Qed.

Lemma applyRedactions_splice (h : Host F) (input : jsstring)
    (es : list PiiEntity) :
  Forall (inBounds input) es ->
  ForallOrdPairs (fun a b => ~ overlaps a b) es ->
  fst (applyRedactions options h input es)
  = splice (fun e => fst (replacementOf options h e)) input 0 (length input)
           (rev (sortedEntities es)).
Proof.
  intros Hb Hn.
  pose proof (sortedEntities_Permutation es) as HP.
  pose proof (sortedEntities_descending es) as HS.
  unfold applyRedactions.
  replace h with (withFakerState h (fakerState h)) at 1
    by (destruct h; reflexivity).
  rewrite applyLoop_pure.
  rewrite <- (app_nil_r input) at 1.
  rewrite <- (firstn_all input) at 1.
  rewrite applyPure_splice; [apply app_nil_r | lia |].
  apply descChain_of_sorted with (text := input); [exact HS | |].
  - apply ForallOrdPairs_Permutation with (l := es);
      [| exact HP | exact Hn].
    unfold overlaps. intros a b H [H1 H2]. apply H. lia.
  - eapply Permutation_Forall; [exact HP|].
    revert Hb. apply Forall_impl. unfold inBounds. intros e He. lia.
Qed.

(** X11: detection and replacement fit together: when the classifier answers
    in time and lower-casing keeps the length of the text, [redact]
    returns the text in which exactly the located spans are replaced, each
    by the replacement of its entity, everything else being copied in
    order. *)
Theorem redact_replaces_located_spans (h : Host F) (input : jsstring)
    (d : Z) (tokens : list RawToken) :
  isBlank input = false ->
  pipeline input = Fulfilled d tokens ->
  (d <= timeoutMs options)%Z ->
  length (toLowerCase input) = length input ->
  (forall s, length s <= length (toLowerCase s)) ->
  let es := groupAndLocateEntities toLowerCase tokens input in
  exists h',
    redact toLowerCase pipeline options h input
    = (inr {| resultText :=
                splice (fun e => fst (replacementOf options h e)) input 0
                       (length input) (rev (sortedEntities es));
              resultEntities := es;
              processingTimeMs := d |}, h').
Proof.
  intros Hb Hp Hd Hlen Hgrow es. unfold redact, runInference.
  rewrite Hb, Hp. simpl.
  destruct (Z.leb_spec d (timeoutMs options)); [|lia]. simpl. fold es.
  destruct es as [|e es'] eqn:E.
  - exists h. simpl. unfold JsString.slice.
    rewrite Nat.sub_0_r. simpl. rewrite firstn_all. reflexivity.
  - rewrite <- E.
    pose proof (@applyRedactions_splice h input es) as S.
    destruct (applyRedactions options h input es) as [t h'].
    exists h'. simpl in S. rewrite S; [reflexivity | |].
    + destruct (@groupAndLocateEntities_inv toLowerCase
                  (fun e => start e < end_ e /\ end_ e <= length input)
                  tokens input) as [_ Hq].
      { intros g u x Fg. apply finalizeGroup_some in Fg as (? & _ & B).
        split; [assumption | apply B; assumption]. }
      fold es in Hq. rewrite E in Hq. rewrite E.
      revert Hq. apply Forall_impl. unfold inBounds. intros x Hx. lia.
    + destruct (@groupAndLocateEntities_inv toLowerCase (fun _ => True)
                  tokens input) as [Hpairs _]; [auto|].
      fold es in Hpairs. rewrite E in Hpairs. rewrite E. exact Hpairs.
Qed.

End RedactionOutcomes.

Lemma redact_blank_text_witness :
  redact JsString.toLowerCase failingPipeline closedOptions stubHost
         whiteSpaceOnly
  = (inr {| resultText := whiteSpaceOnly; resultEntities := [];
            processingTimeMs := 0 |}, stubHost) /\
  detect JsString.toLowerCase failingPipeline whiteSpaceOnly
  = Fulfilled 0%Z {| inferredEntities := []; inferenceTimeMs := 0 |}.
Proof.
  apply redact_blank_text. repeat constructor.
Defined.

Lemma applyRedactions_order_independent_witness :
  applyRedactions openOptions stubHost aliceMetBob (rev aliceAndBob)
  = applyRedactions openOptions stubHost aliceMetBob aliceAndBob.
Proof.
  apply applyRedactions_order_independent.
  - repeat constructor; simpl; lia.
  - exact aliceAndBob_nonOverlapping.
  - apply Permutation_rev.
Defined.

Lemma redact_replaces_located_spans_witness :
  exists h',
    redact JsString.toLowerCase ssnPipeline openOptions stubHost ssnText
    = (inr {| resultText :=
                splice (fun e => fst (replacementOf openOptions stubHost e))
                  ssnText 0 (length ssnText)
                  (rev (sortedEntities
                          (groupAndLocateEntities JsString.toLowerCase
                             [ssnToken] ssnText)));
              resultEntities :=
                groupAndLocateEntities JsString.toLowerCase [ssnToken] ssnText;
              processingTimeMs := 1 |}, h').
Proof.
  apply (@redact_replaces_located_spans JsString.toLowerCase stubFaker
           ssnPipeline openOptions stubHost ssnText 1%Z [ssnToken]).
  - reflexivity.
  - reflexivity.
  - simpl. lia.
  - reflexivity.
  - exact toLowerCase_length_le.
Defined.

(** The text this comes to. *)
Example redact_ssnText :
  fst (redact JsString.toLowerCase ssnPipeline openOptions stubHost ssnText)
  = inr {| resultText := js "My SSN is [SSN]";
           resultEntities :=
             groupAndLocateEntities JsString.toLowerCase [ssnToken] ssnText;
           processingTimeMs := 1 |}.
Proof. vm_compute. reflexivity. Qed.

(** ** Streaming Redaction Transformer: invariants of a stream *)

Lemma roleFrames_app (a b : list Pushed) :
  roleFrames (a ++ b) = roleFrames a ++ roleFrames b.
Proof. apply flat_map_app. Qed.

Lemma rawText_app (a b : list Pushed) :
  rawText (a ++ b) = rawText a ++ rawText b.
Proof. apply flat_map_app. Qed.

Lemma estimateTokens_covers (s : jsstring) : length s <= 4 * estimateTokens s.
Proof.
  unfold estimateTokens.
  pose proof (Nat.div_mod_eq (length s + 3) 4) as E.
  pose proof (Nat.mod_upper_bound (length s + 3) 4) as B. lia.
Qed.

Section StreamInvariants.

Variable W : Type.
Variable redact : W -> jsstring -> (RedactError + RedactionResult) * W.
Variable clock : nat -> Z.
Variable settles : nat -> list nat.
Variable JSON_parse : jsstring -> option OpenAiChatCompletionChunk.
Variable options : StreamTransformerOptions.

Lemma tidy_push_raw (st : StreamState W) (s : jsstring) :
  tidy options st -> tidy options (push st (Raw s)).
Proof.
  intros (H1 & H2 & H3). repeat split; simpl; try assumption.
  rewrite roleFrames_app. simpl. rewrite app_nil_r. exact H1.
Qed.

(** When a call of [redact] settles, the role is emitted at most once,
    and nothing changes of the buffer, its token count, the timer or the
    partial line. *)
Lemma emitRedacted_shape (st : StreamState W) (text : jsstring) :
  let st' := fst (emitRedacted redact st text) in
  (length (roleFrames (pushed st)) = (if roleEmitted st then 1 else 0) ->
   length (roleFrames (pushed st')) = (if roleEmitted st' then 1 else 0)) /\
  buffer st' = buffer st /\ tokenCount st' = tokenCount st /\
  flushTimer st' = flushTimer st /\ lineBuffer st' = lineBuffer st.
Proof.
  unfold emitRedacted. destruct (redact (world st) text) as [[e|r] w'].
  - simpl. auto.
  - unfold formatAsOpenAiSSE. simpl. split; [|auto]. intros H.
    rewrite roleFrames_app, length_app. simpl.
    destruct (metaRole (lastMeta st)) as [[|x role]|];
      simpl; rewrite H; destruct (roleEmitted st); reflexivity.
Qed.

Lemma flushSettled_shape (st : StreamState W) (position : nat) :
  let st' := fst (flushSettled redact st position) in
  (length (roleFrames (pushed st)) = (if roleEmitted st then 1 else 0) ->
   length (roleFrames (pushed st')) = (if roleEmitted st' then 1 else 0)) /\
  buffer st' = buffer st /\ tokenCount st' = tokenCount st /\
  flushTimer st' = flushTimer st /\ lineBuffer st' = lineBuffer st.
Proof.
  unfold flushSettled.
  destruct (nth_error (inFlight st) position) as [text|]; [|simpl; auto].
  match goal with
  | |- context [emitRedacted redact ?s text] =>
      exact (emitRedacted_shape s text)
  end.
Qed.

Lemma settleAll_shape (positions : list nat) :
  forall st : StreamState W,
  let st' := fst (settleAll redact st positions) in
  (length (roleFrames (pushed st)) = (if roleEmitted st then 1 else 0) ->
   length (roleFrames (pushed st')) = (if roleEmitted st' then 1 else 0)) /\
  buffer st' = buffer st /\ tokenCount st' = tokenCount st /\
  flushTimer st' = flushTimer st /\ lineBuffer st' = lineBuffer st.
Proof.
  induction positions as [|k ks IH]; intros st; cbn [settleAll].
  - simpl. auto.
  - pose proof (flushSettled_shape st k) as S.
    destruct (flushSettled redact st k) as [st1 [e|]]; cbn [fst] in *;
      [exact S|].
    specialize (IH st1). cbn zeta in IH.
    destruct S as (R & B & T & F & L).
    destruct IH as (R' & B' & T' & F' & L').
    repeat split; try congruence. auto.
Qed.

(** A flush leaves the buffer empty, however it ends, and emits the role
    at most once. *)
Lemma flushBuffer_tidy (st : StreamState W) :
  length (roleFrames (pushed st)) = (if roleEmitted st then 1 else 0) ->
  tidy options (fst (flushBuffer redact clock settles st)) /\
  buffer (fst (flushBuffer redact clock settles st)) = [] /\
  flushTimer (fst (flushBuffer redact clock settles st)) = flushTimer st.
Proof.
  intros H. unfold flushBuffer. destruct (buffer st) as [|c b] eqn:B.
  - simpl. repeat split; try assumption; rewrite B; simpl; (lia || auto).
  - pose proof (settleAll_shape (settles (tick st)) (takeBuffer clock st))
      as S.
    destruct (settleAll redact (takeBuffer clock st) (settles (tick st)))
      as [st1 [e|]]; cbn [fst] in *.
    + destruct S as (R & B1 & T1 & F1 & _). cbn [takeBuffer] in *.
      simpl in B1, T1, F1.
      repeat split; try assumption; try (rewrite B1; simpl; lia || auto).
      apply R. exact H.
    + destruct S as (R & B1 & T1 & F1 & _). simpl in B1, T1, F1.
      pose proof (emitRedacted_shape st1 (c :: b)) as S2.
      destruct (emitRedacted redact st1 (c :: b)) as [st2 [e|]];
        cbn [fst] in *; destruct S2 as (R2 & B2 & T2 & F2 & _);
        (repeat split;
         [ apply R2, R, H
         | rewrite B2, B1; simpl; lia
         | left; congruence
         | congruence
         | congruence ]).
Qed.

Lemma processLine_tidy (st : StreamState W) (rawLine : jsstring) :
  tidy options st ->
  tidy options
    (fst (processLine redact clock settles JSON_parse options st rawLine)).
Proof.
  intros H. unfold processLine.
  destruct (negb (JsString.startsWith (stripCR rawLine) (js "data:"))).
  { destruct (stripCR rawLine); apply tidy_push_raw; exact H. }
  destruct (JsString.eqb _ (js "[DONE]")).
  { destruct (flushBuffer_tidy st (proj1 H)) as (T & _).
    destruct (flushBuffer redact clock settles st) as [st' [|e|e]];
      [apply tidy_push_raw; exact T | exact T | exact T]. }
  destruct (JSON_parse _) as [data|]; [|apply tidy_push_raw; exact H].
  destruct (extractDeltaContent (lastMeta st) data) as [content meta].
  destruct content as [|c content]; [apply tidy_push_raw; exact H|].
  match goal with
  | |- context [shouldFlush clock options ?s] => set (st2 := s)
  end.
  assert (length (roleFrames (pushed st2))
          = (if roleEmitted st2 then 1 else 0)) as R2 by apply H.
  assert (length (buffer st2) <= 4 * tokenCount st2) as L2.
  { destruct H as (_ & L & _). subst st2; simpl.
    rewrite length_app.
    pose proof (estimateTokens_covers (c :: content)). lia. }
  assert (forall s : StreamState W,
            length (roleFrames (pushed s))
            = (if roleEmitted s then 1 else 0) ->
            tidy options
              (fst (match flushBuffer redact clock settles s with
                    | (st4, Returned) => (st4, None)
                    | (st4, Threw _) =>
                        (push st4 (Raw (stripCR rawLine ++ [LF])), None)
                    | (st4, StreamFailed error) => (st4, Some error)
                    end))) as Fl.
  { intros s Rs. destruct (flushBuffer_tidy s Rs) as (T & _).
    destruct (flushBuffer redact clock settles s) as [st4 [|e|e]];
      [exact T | apply tidy_push_raw; exact T | exact T]. }
  unfold shouldFlush.
  destruct (SENTENCE_BOUNDARY (buffer st2)) eqn:SB; [exact (Fl st2 R2)|].
  destruct (Nat.leb_spec (maxTokens options) (tokenCount st2)) as [M|M];
    [exact (Fl st2 R2)|].
  destruct (Z.leb _ _).
  - apply Fl. exact R2.
  - simpl. split; [exact R2|]. split; [exact L2|]. right. auto.
Qed.

Lemma processLines_tidy (lines : list jsstring) :
  forall st : StreamState W,
  tidy options st ->
  tidy options
    (fst (processLines redact clock settles JSON_parse options st lines)).
Proof.
  induction lines as [|l ls IH]; intros st H; simpl; [exact H|].
  pose proof (processLine_tidy l H) as H1.
  destruct (processLine redact clock settles JSON_parse options st l)
    as [st1 [e|]]; [exact H1 | apply IH; exact H1].
Qed.

(** An awaited flush leaves the buffer empty, however it ends. *)
Lemma flushBuffer_buffer (st : StreamState W) :
  buffer (fst (flushBuffer redact clock settles st)) = [].
Proof.
  unfold flushBuffer. destruct (buffer st) as [|c b] eqn:B; [exact B|].
  pose proof (settleAll_shape (settles (tick st)) (takeBuffer clock st)) as S.
  destruct (settleAll redact (takeBuffer clock st) (settles (tick st)))
    as [st1 [e|]]; cbn [fst] in *; destruct S as (_ & B1 & _);
    simpl in B1; [exact B1|].
  pose proof (emitRedacted_shape st1 (c :: b)) as S2.
  destruct (emitRedacted redact st1 (c :: b)) as [st2 [e|]];
    cbn [fst] in *; destruct S2 as (_ & B2 & _); congruence.
Qed.

Lemma processLines_buffer_on_error (lines : list jsstring) :
  forall (st st' : StreamState W) (e : RedactError),
  processLines redact clock settles JSON_parse options st lines
  = (st', Some e) ->
  buffer st' = [].
Proof.
  induction lines as [|l ls IH]; intros st st' e; simpl; [discriminate|].
  destruct (processLine redact clock settles JSON_parse options st l)
    as [st1 [e1|]] eqn:P; [|apply IH].
  intros [= <- <-]. revert P. unfold processLine.
  destruct (negb _); [destruct (stripCR l); discriminate|].
  destruct (JsString.eqb _ _).
  - pose proof (flushBuffer_buffer st) as Bf.
    destruct (flushBuffer redact clock settles st) as [s2 [|e2|e2]];
      [discriminate | |]; intros [= <- _]; exact Bf.
  - destruct (JSON_parse _); [|discriminate].
    destruct (extractDeltaContent _ _) as [[|c content] meta];
      [discriminate|].
    destruct (shouldFlush _ _ _) as [[|] st3]; [|discriminate].
    pose proof (flushBuffer_buffer st3) as Bf.
    destruct (flushBuffer _ _ _ _) as [st4 [|x|x]];
      [discriminate | discriminate |].
    intros [= <- _]. exact Bf.
Qed.

(** What an event keeps: the state is tidy, and text is never left in
    the buffer without a pending flush timer. *)
Lemma streamStep_tidy (st : StreamState W) (ev : StreamEvent) :
  tidy options st ->
  buffer st = [] \/ flushTimer st = true ->
  let st' := fst (streamStep redact clock settles JSON_parse options st ev) in
  tidy options st' /\ (buffer st' = [] \/ flushTimer st' = true).
Proof.
  intros H Ht. destruct ev as [chunkStr| |position]; cbn [streamStep].
  - unfold _transform.
    match goal with
    | |- context [processLines redact clock settles JSON_parse options
                    ?s ?ls] =>
        set (st1 := s); set (lines := ls)
    end.
    assert (tidy options st1) as H1 by exact H.
    pose proof (processLines_tidy lines H1) as T.
    pose proof (@processLines_buffer_on_error lines st1) as E.
    destruct (processLines redact clock settles JSON_parse options st1 lines)
      as [st2 [e|]]; cbn [fst] in *.
    + split; [exact T|]. left. eapply E. reflexivity.
    + split; [exact T|]. simpl. destruct (buffer st2); [left|right];
        reflexivity.
  - cbn [fst]. unfold timerFired. destruct (flushTimer st) eqn:Ft.
    + destruct H as (R & L & B). destruct (buffer st) eqn:Bs.
      * split; [|left; reflexivity].
        repeat split; simpl; try assumption; auto.
      * split; [|left; reflexivity].
        repeat split; simpl; try assumption; auto.
    + split; [exact H|]. destruct Ht as [B|B]; [left; exact B | discriminate].
  - pose proof (flushSettled_shape st position) as S.
    destruct (flushSettled redact st position) as [st' e]. cbn [fst] in *.
    destruct S as (R & B & T & F & _). destruct H as (H1 & H2 & H3).
    split.
    + repeat split; [apply R, H1 | rewrite B, T; exact H2 |].
      rewrite B, T. exact H3.
    + rewrite B, F. exact Ht.
Qed.

Lemma runEvents_tidy (events : list StreamEvent) :
  forall st : StreamState W,
  tidy options st ->
  buffer st = [] \/ flushTimer st = true ->
  let st' := fst (runEvents redact clock settles JSON_parse options st
                    events) in
  tidy options st' /\ (buffer st' = [] \/ flushTimer st' = true).
Proof.
  induction events as [|ev rest IH]; intros st H Ht; cbn [runEvents].
  - split; [exact H | exact Ht].
  - pose proof (streamStep_tidy ev H Ht) as S.
    destruct (streamStep redact clock settles JSON_parse options st ev)
      as [st1 [e|]]; [exact S|].
    destruct S as (T & B). apply IH; assumption.
Qed.

Lemma newStream_tidy (w : W) : tidy options (newStream clock w).
Proof. repeat split; simpl; auto. Qed.

(** X14: of the frames a stream builds itself ([formatAsOpenAiSSE]), at most
    one carries the role of the message, whatever the upstream sends, in
    whatever order flushes settle, and whether or not redaction fails.
    Lines passed on as they came are not frames of the stream's own: a
    chunk of the upstream that carries the role and no text is passed on
    with its role. *)
Theorem runStream_role_once (w : W) (events : list StreamEvent) :
  length (roleFrames
            (pushed (fst (runStream redact clock settles JSON_parse options w
                            events)))) <= 1.
Proof.
  unfold runStream.
  pose proof (@runEvents_tidy events (newStream clock w) (newStream_tidy w)
                (or_introl eq_refl)) as H.
  destruct (runEvents redact clock settles JSON_parse options
              (newStream clock w) events) as [st [e|]]; cbn [fst] in *.
  - destruct H as ((R & _) & _). rewrite R.
    destruct (roleEmitted st); lia.
  - destruct H as ((R & _) & _). unfold _flush.
    match goal with
    | |- context [flushBuffer redact clock settles ?s] => set (st1 := s)
    end.
    assert (length (roleFrames (pushed st1))
            = (if roleEmitted st1 then 1 else 0)) as R1.
    { subst st1; simpl. destruct (lineBuffer st); [exact R|].
      rewrite roleFrames_app. simpl. rewrite app_nil_r. exact R. }
    destruct (flushBuffer_tidy st1 R1) as ((R2 & _) & _).
    destruct (flushBuffer redact clock settles st1) as [st2 [|x|x]];
      cbn [fst] in *; rewrite R2; destruct (roleEmitted st2); lia.
Qed.

(** X15: between two events the buffer holds fewer than [4 * maxTokens] code
    units (none when [maxTokens] is 0) and no sentence boundary: text is
    withheld only while it is short and its sentence unfinished. *)
Theorem runEvents_buffer_bounded (w : W) (events : list StreamEvent) :
  let st := fst (runEvents redact clock settles JSON_parse options
                   (newStream clock w) events) in
  length (buffer st) <= 4 * (maxTokens options - 1) /\
  SENTENCE_BOUNDARY (buffer st) = false.
Proof.
  pose proof (@runEvents_tidy events (newStream clock w) (newStream_tidy w)
                (or_introl eq_refl)) as H.
  destruct (runEvents redact clock settles JSON_parse options
              (newStream clock w) events) as [st e].
  cbn [fst] in *. destruct H as ((_ & L & [B|(M & SB)]) & _).
  - rewrite B. simpl. split; [lia | reflexivity].
  - split; [lia | exact SB].
Qed.

(** The timer's callback leaves the buffer empty. *)
Lemma timerFired_buffer (st : StreamState W) :
  buffer st = [] \/ flushTimer st = true ->
  buffer (timerFired clock st) = [].
Proof.
  intros Ht. unfold timerFired. destruct (flushTimer st) eqn:Ft.
  - destruct (buffer st); reflexivity.
  - destruct Ht as [B|B]; [exact B | discriminate].
Qed.

(** When the flushes of the timer settle at once, an error leaves no text
    in the buffer. *)
Lemma runEvents_timely_armed (events : list StreamEvent) :
  timely events ->
  forall st : StreamState W,
  tidy options st ->
  buffer st = [] \/ flushTimer st = true ->
  let (st', err) := runEvents redact clock settles JSON_parse options st
                      events in
  buffer st' = [] \/ (err = None /\ flushTimer st' = true).
Proof.
  induction 1 as [|chunkStr rest T IH|rest T IH]; intros st H Ht.
  - cbn [runEvents]. destruct Ht as [B|F]; [left; exact B | right; auto].
  - cbn [runEvents]. pose proof (streamStep_tidy (Chunk chunkStr) H Ht) as S.
    cbn [streamStep] in *. unfold _transform in *.
    match type of S with
    | context [processLines redact clock settles JSON_parse options
                 ?s ?ls] =>
        pose proof (@processLines_buffer_on_error ls s) as E
    end.
    destruct (processLines redact clock settles JSON_parse options _ _)
      as [st2 [e|]]; cbn [fst] in *.
    + left. eapply E. reflexivity.
    + destruct S as (T2 & B2). apply IH; assumption.
  - cbn [runEvents streamStep].
    pose proof (streamStep_tidy TimerFired H Ht) as S.
    cbn [streamStep fst] in S. destruct S as (T1 & B1).
    pose proof (@timerFired_buffer st Ht) as B0.
    pose proof (streamStep_tidy (FlushSettled 0) T1 B1) as S.
    pose proof (flushSettled_shape (timerFired clock st) 0) as Sh.
    cbn [streamStep] in S.
    destruct (flushSettled redact (timerFired clock st) 0) as [st2 [e|]];
      cbn [fst] in *.
    + left. destruct Sh as (_ & B & _). rewrite B. exact B0.
    + destruct S as (T2 & B2). apply IH; assumption.
Qed.

(** X16: after every event, text is left in the buffer only with a flush
    timer pending: buffered text never waits without one.  When every
    flush the timer starts settles at once, the stream is moreover not in
    error while text is left in the buffer. *)
Theorem runEvents_timer_armed (w : W) (events : list StreamEvent) :
  let (st, err) := runEvents redact clock settles JSON_parse options
                     (newStream clock w) events in
  (buffer st = [] \/ flushTimer st = true) /\
  (timely events -> buffer st = [] \/ (err = None /\ flushTimer st = true)).
Proof.
  pose proof (@runEvents_tidy events (newStream clock w) (newStream_tidy w)
                (or_introl eq_refl)) as H.
  pose proof (fun T => @runEvents_timely_armed events T (newStream clock w)
                         (newStream_tidy w) (or_introl eq_refl)) as H'.
  destruct (runEvents redact clock settles JSON_parse options
              (newStream clock w) events) as [st e].
  split; [apply H | exact H'].
Qed.

End StreamInvariants.

(** ** Streaming Redaction Transformer: lines that carry no text *)

Lemma removelast_split_app (sep : N) (a b : jsstring) :
  removelast (JsString.split sep (a ++ b))
  = removelast (JsString.split sep a)
    ++ removelast (JsString.split sep (last (JsString.split sep a) [] ++ b)).
Proof.
  rewrite split_carry. apply removelast_app. apply split_nonempty.
Qed.

Lemma last_split_app (sep : N) (a b : jsstring) :
  last (JsString.split sep (a ++ b)) []
  = last (JsString.split sep (last (JsString.split sep a) [] ++ b)) [].
Proof.
  rewrite split_carry. apply last_app_nonempty. apply split_nonempty.
Qed.

Lemma removelast_cons_more {A : Type} (x y : A) (l : list A) :
  removelast (x :: y :: l) = x :: removelast (y :: l).
Proof. reflexivity. Qed.

Lemma last_cons_more {A : Type} (x y d : A) (l : list A) :
  last (x :: y :: l) d = last (y :: l) d.
Proof. reflexivity. Qed.

(** Joining the lines with the separator gives the string back. *)
Lemma split_join (sep : N) (s : jsstring) :
  concat (map (fun l => l ++ [sep]) (removelast (JsString.split sep s)))
  ++ last (JsString.split sep s) [] = s.
Proof.
  induction s as [|c s IH]; [reflexivity|].
  cbn [JsString.split].
  destruct (split_cons sep s) as (l & ls & E). rewrite E in *.
  destruct (N.eqb_spec c sep) as [->|Hc].
  - rewrite removelast_cons_more, last_cons_more.
    cbn [map concat app]. f_equal. exact IH.
  - destruct ls as [|l' ls'].
    + simpl in *. f_equal. exact IH.
    + rewrite removelast_cons_more, last_cons_more in *.
      cbn [map concat app] in *. f_equal. exact IH.
Qed.

Lemma split_incl (sep : N) (s l : jsstring) (c : N) :
  In l (JsString.split sep s) -> In c l -> In c s.
Proof.
  revert l; induction s as [|x s IH]; intros l; simpl.
  - intros [<-|[]] [].
  - destruct (split_cons sep s) as (l0 & ls & E). rewrite E in *.
    destruct (N.eqb x sep).
    + intros [<-|H] Hc; [destruct Hc | right; eapply IH; eassumption].
    + intros [<-|H] Hc.
      * destruct Hc as [->|Hc]; [left; reflexivity|].
        right. apply (IH l0); [left; reflexivity | exact Hc].
      * right. apply (IH l); [right; exact H | exact Hc].
Qed.

Lemma stripCR_id (l : jsstring) : ~ In CR l -> stripCR l = l.
Proof.
  intros H. unfold stripCR. destruct (rev l) as [|c r] eqn:E; [reflexivity|].
  destruct (N.eqb_spec c CR) as [->|]; [|reflexivity].
  exfalso. apply H. apply in_rev. rewrite E. left; reflexivity.
Qed.

Section QuietStreams.

Variable W : Type.
Variable redact : W -> jsstring -> (RedactError + RedactionResult) * W.
Variable clock : nat -> Z.
Variable settles : nat -> list nat.
Variable JSON_parse : jsstring -> option OpenAiChatCompletionChunk.
Variable options : StreamTransformerOptions.

(** A line without text is passed on at once when nothing is buffered:
    nothing else changes but the metadata. *)
Lemma processLine_quiet (st : StreamState W) (rawLine : jsstring) :
  buffer st = [] ->
  lineDelta JSON_parse rawLine = [] ->
  exists st',
    processLine redact clock settles JSON_parse options st rawLine
    = (st', None) /\
    pushed st' = pushed st ++ [Raw (passed rawLine)] /\
    buffer st' = [] /\ lineBuffer st' = lineBuffer st /\
    flushTimer st' = flushTimer st /\ world st' = world st /\
    inFlight st' = inFlight st.
Proof.
  intros B. unfold processLine, lineDelta, passed, isDoneLine.
  destruct (JsString.startsWith (stripCR rawLine) (js "data:")); simpl.
  2:{ intros _. destruct (stripCR rawLine); eexists;
        (split; [reflexivity|]); simpl; auto 7. }
  destruct (JsString.eqb _ (js "[DONE]")).
  { intros _. unfold flushBuffer. rewrite B.
    eexists. split; [reflexivity|]. simpl. auto 7. }
  destruct (JSON_parse _) as [data|].
  2:{ intros _. eexists. split; [reflexivity|]. simpl. auto 7. }
  rewrite (extractDeltaContent_content noMeta (lastMeta st) data).
  destruct (extractDeltaContent (lastMeta st) data) as [content meta].
  simpl. intros ->. eexists. split; [reflexivity|]. simpl. auto 7.
Qed.

Lemma processLines_quiet (lines : list jsstring) :
  forall st : StreamState W,
  buffer st = [] ->
  Forall (fun l => lineDelta JSON_parse l = []) lines ->
  exists st',
    processLines redact clock settles JSON_parse options st lines
    = (st', None) /\
    pushed st' = pushed st ++ map (fun l => Raw (passed l)) lines /\
    buffer st' = [] /\ lineBuffer st' = lineBuffer st /\
    flushTimer st' = flushTimer st /\ world st' = world st /\
    inFlight st' = inFlight st.
Proof.
  induction lines as [|l ls IH]; intros st B HF; simpl.
  - exists st. rewrite app_nil_r. repeat split; assumption.
  - inversion HF as [|? ? Hl Hls]; subst.
    destruct (processLine_quiet st l B Hl)
      as (st1 & -> & P1 & B1 & L1 & T1 & W1 & I1).
    destruct (IH st1 B1 Hls) as (st2 & -> & P2 & B2 & L2 & T2 & W2 & I2).
    exists st2. split; [reflexivity|].
    rewrite P2, P1, <- app_assoc. simpl.
    repeat split; congruence.
Qed.

Lemma runEvents_quiet (w : W) (events : list StreamEvent) :
  forall (st : StreamState W) (S : jsstring),
  quiet w st S ->
  Forall (fun l => lineDelta JSON_parse l = [])
         (removelast (JsString.split LF (S ++ received events))) ->
  exists st',
    runEvents redact clock settles JSON_parse options st events
    = (st', None) /\
    quiet w st' (S ++ received events).
Proof.
  induction events as [|ev rest IH]; intros st S Q HF; simpl.
  - exists st. rewrite app_nil_r. auto.
  - destruct ev as [chunkStr| |position]; simpl in *.
    + destruct Q as (Ql & Qb & Qt & Qw & Qp & Qi).
      rewrite app_assoc in HF.
      pose proof HF as HF'.
      rewrite removelast_split_app, Forall_app in HF'.
      destruct HF' as [HF1 _].
      rewrite removelast_split_app, Forall_app in HF1.
      destruct HF1 as [_ HF1]. rewrite <- Ql in HF1.
      unfold _transform.
      match goal with
      | |- context [processLines redact clock settles JSON_parse options
                      ?s _] =>
          set (st1 := s)
      end.
      destruct (@processLines_quiet _ st1 Qb HF1)
        as (st2 & -> & P2 & B2 & L2 & T2 & W2 & I2).
      rewrite app_assoc. apply IH; [|exact HF].
      unfold quiet, scheduleFlush; simpl. rewrite B2.
      repeat split.
      * rewrite L2. subst st1; simpl.
        rewrite (last_split_app LF S chunkStr), Ql. reflexivity.
      * rewrite W2. exact Qw.
      * rewrite P2. subst st1; simpl.
        rewrite Qp, (removelast_split_app LF S chunkStr), map_app, Ql.
        reflexivity.
      * rewrite I2. exact Qi.
    + unfold timerFired. destruct Q as (Ql & Qb & Qt & Qw & Qp & Qi).
      rewrite Qt. apply IH; [|exact HF]. repeat split; assumption.
    + unfold flushSettled. destruct Q as (Ql & Qb & Qt & Qw & Qp & Qi).
      rewrite Qi. replace (nth_error [] position) with (@None jsstring)
        by (destruct position; reflexivity).
      apply IH; [|exact HF]. repeat split; assumption.
Qed.

Lemma runStream_quiet (w : W) (events : list StreamEvent) :
  let lines := JsString.split LF (received events) in
  Forall (fun l => lineDelta JSON_parse l = []) (removelast lines) ->
  exists st,
    runStream redact clock settles JSON_parse options w events = (st, None) /\
    pushed st
    = map (fun l => Raw (passed l)) (removelast lines)
      ++ match last lines [] with
         | [] => []
         | rest => [Raw rest]
         end /\
    buffer st = [] /\ world st = w.
Proof.
  intros lines HF. unfold runStream.
  destruct (@runEvents_quiet w events (newStream clock w) [])
    as (st & -> & Ql & Qb & Qt & Qw & Qp & Qi).
  { repeat split. }
  { exact HF. }
  simpl in *. unfold _flush, flushBuffer. simpl. rewrite Qb.
  eexists. split; [reflexivity|]. simpl. rewrite Ql, Qp. fold lines.
  repeat split; try assumption.
  destruct (last lines []); [rewrite app_nil_r|]; reflexivity.
Qed.

(** X12: a stream none of whose complete lines carries a text delta is passed
    on line by line, in order: a terminator line as the terminator frame,
    any other line without its carriage return and with a line feed, and
    an unfinished last line as it is.  No frame is made up, nothing stays
    buffered and the redaction service is never called. *)
Theorem runStream_passes_textless_lines (w : W)
    (events : list StreamEvent) :
  let lines := JsString.split LF (received events) in
  Forall (fun l => lineDelta JSON_parse l = []) (removelast lines) ->
  exists st,
    runStream redact clock settles JSON_parse options w events = (st, None) /\
    pushed st
    = map (fun l => Raw (passed l)) (removelast lines)
      ++ match last lines [] with
         | [] => []
         | rest => [Raw rest]
         end /\
    buffer st = [] /\ world st = w.
Proof. exact (runStream_quiet w events). Qed.

(** X13: a stream whose chunks, each decoded on its own, hold no [data:]
    line and no carriage return is forwarded as decoded: what is pushed,
    joined, is the chunks' strings joined, wherever the chunk boundaries
    fall in the lines. *)
Theorem runStream_forwards_other_lines (w : W)
    (events : list StreamEvent) :
  Forall (fun l => JsString.startsWith l (js "data:") = false)
         (removelast (JsString.split LF (received events))) ->
  ~ In CR (received events) ->
  exists st,
    runStream redact clock settles JSON_parse options w events = (st, None) /\
    rawText (pushed st) = received events /\
    frameContents (pushed st) = [] /\ world st = w.
Proof.
  intros HD HC.
  assert (forall l, In l (JsString.split LF (received events)) ->
                    stripCR l = l) as Hstrip.
  { intros l Hl. apply stripCR_id. intros Hc. apply HC.
    eapply split_incl; eassumption. }
  assert (forall l, In l (removelast (JsString.split LF (received events))) ->
                    In l (JsString.split LF (received events))) as Hin.
  { intros l Hl.
    rewrite (app_removelast_last [] (split_nonempty LF (received events))).
    apply in_or_app. left. exact Hl. }
  destruct (runStream_quiet w events) as (st & R & P & _ & Hw).
  { rewrite Forall_forall in *. intros l Hl. unfold lineDelta.
    rewrite (Hstrip l (Hin l Hl)), (HD l Hl). reflexivity. }
  exists st. split; [exact R|]. split; [|split; [|exact Hw]].
  - rewrite P, rawText_app.
    rewrite <- (split_join LF (received events)) at 3. f_equal.
    + clear P. revert HD Hstrip Hin.
      generalize (removelast (JsString.split LF (received events))).
      intros ls HD Hstrip Hin. induction ls as [|l ls IH];
        simpl; [reflexivity|].
      inversion HD as [|? ? Hl Hls]; subst.
      unfold passed at 1, isDoneLine.
      rewrite (Hstrip l (Hin l (or_introl eq_refl))), Hl. simpl.
      f_equal. apply IH; [exact Hls|].
      intros x Hx. apply Hin. right. exact Hx.
    + destruct (last (JsString.split LF (received events)) []); simpl;
        [reflexivity | rewrite app_nil_r; reflexivity].
  - rewrite P, frameContents_app.
    assert (forall ls, frameContents (map (fun l => Raw (passed l)) ls) = [])
      as Z by (induction ls; auto).
    rewrite Z.
    destruct (last (JsString.split LF (received events)) []); reflexivity.
Qed.

End QuietStreams.

Lemma runEvents_timer_armed_witness :
  timely timedEvents /\
  let (st, err) := runEvents emailRedact frozenClock noneSettles
                     parseTwoPayloads DEFAULT_OPTIONS
                     (newStream frozenClock stubHost) timedEvents in
  buffer st = [] \/ (err = None /\ flushTimer st = true).
Proof.
  split; [exact timedEvents_timely|].
  pose proof (@runEvents_timer_armed (Host stubFaker) emailRedact frozenClock
                noneSettles parseTwoPayloads DEFAULT_OPTIONS stubHost
                timedEvents) as H.
  destruct (runEvents emailRedact frozenClock noneSettles parseTwoPayloads
              DEFAULT_OPTIONS (newStream frozenClock stubHost) timedEvents)
    as [st err].
  exact (proj2 H timedEvents_timely).
Defined.

(** The role can still reach the client twice: the first chunk of the
    upstream, which carries the role and no text, is passed on as it
    came, and the first frame the stream builds carries the role
    again. *)
Example runStream_role_passed_and_injected :
  exists f,
    pushed (fst (runStream emailRedact frozenClock noneSettles roleParse
                   DEFAULT_OPTIONS stubHost
                   [Chunk (sseLine (js "r")); Chunk (sseLine (js "t"))]))
    = [Raw (js "data: r" ++ [LF]); Raw [LF]; Frame f; Raw [LF]] /\
    frameRole f = Some (js "assistant") /\ frameContent f = js "Hi.".
Proof. eexists. vm_compute. repeat split. Qed.

Lemma textless_by_evaluation
    (JSON_parse : jsstring -> option OpenAiChatCompletionChunk)
    (lines : list jsstring) :
  forallb (fun l => match lineDelta JSON_parse l with
                    | [] => true
                    | _ :: _ => false
                    end) lines = true ->
  Forall (fun l => lineDelta JSON_parse l = []) lines.
Proof.
  intros H. apply Forall_forall. intros l Hl.
  rewrite forallb_forall in H. specialize (H l Hl).
  destruct (lineDelta JSON_parse l); [reflexivity | discriminate].
Qed.

Lemma runStream_passes_textless_lines_witness :
  exists st,
    runStream emailRedact frozenClock noneSettles parseTwoPayloads
              DEFAULT_OPTIONS stubHost textlessEvents = (st, None) /\
    pushed st
    = map (fun l => Raw (passed l))
          (removelast (JsString.split LF (received textlessEvents)))
      ++ match last (JsString.split LF (received textlessEvents)) [] with
         | [] => []
         | rest => [Raw rest]
         end /\
    buffer st = [] /\ world st = stubHost.
Proof.
  apply (@runStream_passes_textless_lines (Host stubFaker) emailRedact
           frozenClock noneSettles parseTwoPayloads DEFAULT_OPTIONS stubHost
           textlessEvents).
  apply textless_by_evaluation. vm_compute. reflexivity.
Defined.

(** What the stream of [textlessEvents] emits. *)
Example textlessEvents_pushed :
  pushed (fst (runStream emailRedact frozenClock noneSettles
                 parseTwoPayloads DEFAULT_OPTIONS stubHost textlessEvents))
  = [Raw (js ": ping" ++ [LF]); Raw (js "data: {}" ++ [LF]);
     Raw (js "data: [DONE]" ++ [LF; LF]); Raw [LF]; Raw (js "tail")].
Proof. vm_compute. reflexivity. Qed.

Lemma runStream_forwards_other_lines_witness :
  exists st,
    runStream emailRedact frozenClock noneSettles parseTwoPayloads
              DEFAULT_OPTIONS stubHost otherLinesEvents = (st, None) /\
    rawText (pushed st) = received otherLinesEvents /\
    frameContents (pushed st) = [] /\ world st = stubHost.
Proof.
  apply (@runStream_forwards_other_lines (Host stubFaker) emailRedact
           frozenClock noneSettles parseTwoPayloads DEFAULT_OPTIONS stubHost
           otherLinesEvents).
  - vm_compute. repeat constructor.
  - vm_compute. intros H.
    repeat (destruct H as [H|H]; [discriminate H|]). exact H.
Defined.

(** ** The in-memory store *)

Lemma mapDelete_length (m : JsMap) (k : jsstring) :
  length (mapDelete m k) <= length m.
Proof.
  induction m as [|[k' e] m IH]; simpl; [lia|].
  destruct (JsString.eqb k' k); simpl; lia.
Qed.

Lemma mapDelete_length_has (m : JsMap) (k : jsstring) :
  mapHas m k = true -> S (length (mapDelete m k)) <= length m.
Proof.
  unfold mapHas. induction m as [|[k' e] m IH]; simpl; [discriminate|].
  destruct (JsString.eqb k' k); simpl.
  - intros _. pose proof (mapDelete_length m k). lia.
  - intros H. specialize (IH H). lia.
Qed.

Lemma mapSet_length (m : JsMap) (k : jsstring) (e : Entry) :
  length (mapSet m k e)
  = if mapHas m k then length m else S (length m).
Proof.
  unfold mapHas. induction m as [|[k' e'] m IH]; simpl; [reflexivity|].
  destruct (JsString.eqb k' k); simpl; [reflexivity|].
  rewrite IH. destruct (mapGet m k); reflexivity.
Qed.

Lemma mapHas_mapSet (m : JsMap) (k : jsstring) (e : Entry) :
  mapHas (mapSet m k e) k = true.
Proof. unfold mapHas. rewrite mapGet_mapSet_same. reflexivity. Qed.

Lemma mapDelete_keys (m : JsMap) (k x : jsstring) :
  In x (map fst (mapDelete m k)) -> In x (map fst m).
Proof.
  induction m as [|[k' e] m IH]; simpl; [auto|].
  destruct (JsString.eqb k' k); simpl; tauto.
Qed.

Lemma mapDelete_NoDup (m : JsMap) (k : jsstring) :
  NoDup (map fst m) -> NoDup (map fst (mapDelete m k)).
Proof.
  induction m as [|[k' e] m IH]; simpl; [auto|].
  intros H. inversion H; subst.
  destruct (JsString.eqb k' k); simpl; [auto|].
  constructor; [|auto]. intros Hin. apply mapDelete_keys in Hin. auto.
Qed.

Lemma mapSet_keys (m : JsMap) (k x : jsstring) (e : Entry) :
  In x (map fst (mapSet m k e)) -> x = k \/ In x (map fst m).
Proof.
  induction m as [|[k' e'] m IH]; simpl; [intuition|].
  destruct (JsString.eqb k' k) eqn:E; simpl; [tauto|].
  intros [H|H]; [tauto|]. apply IH in H. tauto.
Qed.

Lemma mapSet_NoDup (m : JsMap) (k : jsstring) (e : Entry) :
  NoDup (map fst m) -> NoDup (map fst (mapSet m k e)).
Proof.
  induction m as [|[k' e'] m IH]; simpl.
  - intros _. constructor; [intros [] | constructor].
  - intros H. inversion H; subst.
    destruct (JsString.eqb k' k) eqn:E; simpl.
    + constructor; assumption.
    + constructor; [|auto]. intros Hin.
      apply mapSet_keys in Hin as [->|Hin]; [|auto].
      rewrite eqb_refl in E. discriminate.
Qed.

Lemma evict_bounded (m : JsMap) :
  bounded m ->
  (N.of_nat (length (evict m)) < maxSize)%N /\ NoDup (map fst (evict m)).
Proof.
  intros [Hl Hn]. unfold evict.
  destruct (N.leb_spec maxSize (N.of_nat (length m))) as [Hfull|Hroom];
    [|split; assumption].
  destruct m as [|[k0 e0] m]; [split; [reflexivity | assumption]|].
  split; [|apply mapDelete_NoDup; exact Hn].
  simpl. rewrite eqb_refl.
  pose proof (mapDelete_length m k0). simpl in Hl. lia.
Qed.

Section StoreProperties.

Variable clock : nat -> Z.

Lemma keeps_ret {A : Type} (P : JsMap -> Prop) (a : A) : keeps P (ret a).
Proof. intros s H. exact H. Qed.

Lemma keeps_bind {A B : Type} (P : JsMap -> Prop)
    (m : State InMemoryStore A) (f : A -> State InMemoryStore B) :
  keeps P m -> (forall a, keeps P (f a)) -> keeps P (bind m f).
Proof.
  intros Hm Hf s H. unfold bind. specialize (Hm s H).
  destruct (m s) as [a s1]. exact (Hf a s1 Hm).
Qed.

Lemma keeps_repeatM {A : Type} (P : JsMap -> Prop)
    (m : State InMemoryStore A) (n : nat) :
  keeps P m -> keeps P (repeatM n m).
Proof.
  intros Hm. induction n as [|n IH]; simpl.
  - apply keeps_ret.
  - apply keeps_bind; [exact Hm | intros _; exact IH].
Qed.

Lemma keeps_getStore (P : JsMap -> Prop) : keeps P getStore.
Proof. intros s H. exact H. Qed.

Lemma keeps_Date_now (P : JsMap -> Prop) : keeps P (Date_now clock).
Proof. intros s H. exact H. Qed.

(** [get] leaves the map as it is, or drops the entry it found
    expired. *)
Lemma mem_get_store (key : jsstring) (s : InMemoryStore) :
  store (snd (mem_get clock key s)) = store s \/
  (mapHas (store s) key = true /\
   store (snd (mem_get clock key s)) = mapDelete (store s) key).
Proof.
  unfold mem_get, mapHas, bind, ret, getStore, putStore, Date_now. simpl.
  destruct (mapGet (store s) key) as [entry|]; simpl; [|auto].
  destruct (truthy (expiresAt entry)); simpl; [|auto].
  destruct (match expiresAt entry with Some e => _ | None => false end);
    simpl; auto.
Qed.

Lemma mem_expire_store (key : jsstring) (ttl : Z) (s : InMemoryStore) :
  store (snd (mem_expire clock key ttl s)) = store s \/
  (mapHas (store s) key = true /\
   exists e, store (snd (mem_expire clock key ttl s))
             = mapSet (store s) key e).
Proof.
  unfold mem_expire, mapHas, bind, ret, getStore, putStore, Date_now.
  destruct (mapGet (store s) key) as [entry|]; simpl; [|auto].
  right. split; [reflexivity|]. eexists. reflexivity.
Qed.

(** *** The size of the store *)

Lemma mem_get_bounded (key : jsstring) : keeps bounded (mem_get clock key).
Proof.
  intros s [Hl Hn].
  destruct (mem_get_store key s) as [-> | [_ ->]]; [split; assumption|].
  split; [|apply mapDelete_NoDup; exact Hn].
  pose proof (mapDelete_length (store s) key). lia.
Qed.

Lemma mem_set_bounded (key v : jsstring) (ttl : option Z) :
  keeps bounded (mem_set clock key v ttl).
Proof.
  intros s H. rewrite mem_set_eq. cbn [snd store].
  destruct (evict_bounded H) as [Hl Hn].
  split; [|apply mapSet_NoDup; exact Hn].
  rewrite mapSet_length. destruct (mapHas (evict (store s)) key); lia.
Qed.

Lemma mem_incr_bounded (key : jsstring) : keeps bounded (mem_incr clock key).
Proof.
  unfold mem_incr.
  apply keeps_bind; [apply mem_get_bounded | intros current].
  apply keeps_bind; [apply keeps_getStore | intros m].
  apply keeps_bind.
  - destruct (mapGet m key) as [entry|]; [|apply keeps_ret].
    destruct (truthy (expiresAt entry)); [|apply keeps_ret].
    apply keeps_bind; [apply keeps_Date_now|].
    intros now. apply keeps_ret.
  - intros ttl. apply keeps_bind; [apply mem_set_bounded|].
    intros _. apply keeps_ret.
Qed.

Lemma mem_expire_bounded (key : jsstring) (ttl : Z) :
  keeps bounded (mem_expire clock key ttl).
Proof.
  intros s [Hl Hn].
  destruct (mem_expire_store key ttl s) as [-> | (Hh & e & ->)];
    [split; assumption|].
  split; [|apply mapSet_NoDup; exact Hn].
  rewrite mapSet_length, Hh. exact Hl.
Qed.

Lemma mem_hincrby_bounded (key field : jsstring) (amount : Z) :
  keeps bounded (mem_hincrby clock key field amount).
Proof.
  unfold mem_hincrby.
  apply keeps_bind; [apply mem_get_bounded | intros current].
  apply keeps_bind; [apply mem_set_bounded|].
  intros _. apply keeps_ret.
Qed.

Lemma mem_del_bounded (key : jsstring) : keeps bounded (mem_del key).
Proof.
  intros s [Hl Hn]. unfold mem_del, bind, ret, getStore, putStore.
  cbn [snd store]. split; [|apply mapDelete_NoDup; exact Hn].
  pose proof (mapDelete_length (store s) key). lia.
Qed.

(** X19: whatever calls are made on a new in-memory store, in whatever order
    and at whatever times, it never holds more than [maxSize] (10000)
    entries, nor two entries for one key. *)
Theorem runStoreCalls_bounded (calls : list StoreCall) :
  let s := runStoreCalls clock calls {| store := []; reads := 0 |} in
  (N.of_nat (length (store s)) <= 10000)%N /\ NoDup (map fst (store s)).
Proof.
  assert (forall s, bounded (store s) ->
                    bounded (store (runStoreCalls clock calls s))) as H.
  { induction calls as [|c cs IH]; intros s Hs; simpl; [exact Hs|].
    apply IH. destruct c; simpl.
    - apply mem_get_bounded; exact Hs.
    - apply mem_set_bounded; exact Hs.
    - apply mem_incr_bounded; exact Hs.
    - apply mem_expire_bounded; exact Hs.
    - apply mem_hincrby_bounded; exact Hs.
    - apply mem_get_bounded; exact Hs.
    - apply mem_del_bounded; exact Hs.
    - split; [vm_compute; discriminate | constructor]. }
  apply (H {| store := []; reads := 0 |}).
  split; [vm_compute; discriminate | constructor].
Qed.

(** *** Reading back what was written *)

(** X20: [set] followed by [get]: the value comes back unless a time to live
    was given and has run out at the time of the [get].  A time to live
    of 0, like none at all, never expires; so does one that makes the
    expiry time 0. *)
Theorem mem_set_get (key v : jsstring) (ttl : option Z) (s : InMemoryStore) :
  fst (mem_get clock key (snd (mem_set clock key v ttl s)))
  = match ttl with
    | None => Some v
    | Some t =>
        let expiry := (clock (reads s) + t * 1000)%Z in
        if (t =? 0)%Z || (expiry =? 0)%Z then Some v
        else if (expiry <? clock (S (reads s)))%Z then None
        else Some v
    end.
Proof.
  rewrite mem_set_eq.
  unfold mem_get, bind, ret, getStore, putStore, Date_now.
  cbn [fst snd store reads]. rewrite mapGet_mapSet_same.
  destruct ttl as [t|]; cbn [truthy expiresAt value]; [|reflexivity].
  destruct (t =? 0)%Z; cbn [negb orb expiresAt value truthy];
    [reflexivity|].
  destruct (clock (reads s) + t * 1000 =? 0)%Z; cbn [negb]; [reflexivity|].
  cbn [reads].
  destruct (clock (reads s) + t * 1000 <? clock (S (reads s)))%Z;
    reflexivity.
Qed.

(** [del] removes the entry and says whether there was one; a second
    [del] finds nothing, a [get] returns null, and no other key is
    touched. *)
Lemma mem_del_idempotent (key : jsstring) (s : InMemoryStore) :
  let s1 := snd (mem_del key s) in
  fst (mem_del key s) = (if mapHas (store s) key then 1 else 0)%Z /\
  fst (mem_del key s1) = 0%Z /\
  fst (mem_get clock key s1) = None /\
  forall k, k <> key -> mapGet (store s1) k = mapGet (store s) k.
Proof.
  unfold mem_del, mem_get, mapHas, bind, ret, getStore, putStore.
  cbn [fst snd store]. rewrite mapGet_mapDelete_same.
  repeat split. intros k Hk. apply mapGet_mapDelete_other. congruence.
Qed.

(** X21: [incr] keeps whole seconds of the remaining life of a key only: a
    key that has less than a second left when [incr] computes its time to
    live is written back without expiry, and is there for good. *)
Theorem mem_incr_drops_expiry (key v : jsstring) (E : Z)
    (s : InMemoryStore) :
  mapGet (store s) key = Some {| value := v; expiresAt := Some E |} ->
  E <> 0%Z ->
  (clock (reads s) <= E)%Z ->
  (E - clock (S (reads s)) < 1000)%Z ->
  let s1 := snd (mem_incr clock key s) in
  exists entry,
    mapGet (store s1) key = Some entry /\
    expiresAt entry = None /\
    forall n, fst (mem_get clock key {| store := store s1; reads := n |})
              = Some (value entry).
Proof.
  intros Hg HE Halive Hleft s1.
  assert (exists val,
            store s1
            = mapSet (evict (store s)) key
                {| value := val; expiresAt := None |}) as [val Hs].
  { subst s1. unfold mem_incr, bind, ret.
    rewrite (mem_get_live_eq clock key s Hg HE Halive).
    unfold getStore, Date_now. cbn [fst snd store reads]. rewrite Hg.
    cbn [expiresAt truthy].
    destruct (Z.eqb_spec E 0) as [|_]; [contradiction|].
    cbn [negb fst snd store reads].
    assert (Z.max 0 ((E - clock (S (reads s))) / 1000) = 0)%Z as ->.
    { assert ((E - clock (S (reads s))) / 1000 <= 0)%Z; [|lia].
      apply Z.lt_succ_r. apply Z.div_lt_upper_bound; lia. }
    rewrite mem_set_eq. cbn [snd store truthy Z.eqb negb].
    eexists. reflexivity. }
  rewrite Hs. eexists. split; [apply mapGet_mapSet_same|].
  split; [reflexivity|].
  intros n. unfold mem_get, bind, ret, getStore. cbn [fst snd store].
  rewrite mapGet_mapSet_same. reflexivity.
Qed.

End StoreProperties.

(** ** Session Store and Risk Engine *)

Lemma app_longer {A : Type} (l r : list A) : r <> [] -> l <> l ++ r.
Proof.
  intros Hr E. apply (f_equal (@length A)) in E. rewrite length_app in E.
  destruct r; [congruence | simpl in E; lia].
Qed.

Lemma liveAt_same (m m' : JsMap) (k : jsstring) (t : Z) :
  mapGet m' k = mapGet m k -> liveAt m' k t = liveAt m k t.
Proof. unfold liveAt. intros ->. reflexivity. Qed.

(** X26: whatever the store, the points [assessRisk] reports as added are
    a number between 2 and 30 for each entity, none for an empty list
    only, unless the type of an entity names a member of
    [Object.prototype]: then, and only then, they are a string. *)
Theorem assessRisk_points_bounds (S : Type) (client : StoreClient S)
    (config : RiskConfig) (sessionId : jsstring) (entities : list PiiEntity)
    (s : S) :
  match pointsAdded (fst (assessRisk client config sessionId entities s))
  with
  | PNumber added =>
      Forall (fun e => inherited (type e) = false) entities /\
      (2 * Z.of_nat (length entities) <= added
       <= 30 * Z.of_nat (length entities))%Z
  | PString _ => Exists (fun e => inherited (type e) = true) entities
  end.
Proof.
  destruct entities as [|e es].
  - simpl. unfold bind, ret. destruct (getRiskScore client sessionId s).
    simpl. split; [constructor | lia].
  - cbn [assessRisk]. unfold bind, ret.
    destruct (incrementRisk client sessionId _ _ s). cbn [fst pointsAdded].
    pose proof (pointsToAdd_cases (e :: es)) as C.
    destruct (pointsToAdd (e :: es)) as [n|text]; [|exact C].
    destruct C as [HF ->]. split; [exact HF|].
    apply sumOfWeights_bounds.
Qed.

Section SessionMore.

Variable clock : nat -> Z.

Let client := inMemoryClient clock.

(** X22: for an amount, a number held by the field (0 for a field that
    holds none) and a sum that are safe integers, [increment] adds the
    amount to the number the field holds, and [get] then returns the
    decimal form of the sum, at whatever time: a session counter never
    expires. *)
Theorem sessionIncrement_sessionGet (sessionId field : jsstring)
    (amount : Z) (s : InMemoryStore) :
  safeInteger amount ->
  (forall p,
     scoreOf (fst (sessionGet client sessionId field s)) = Some p ->
     safeInteger p /\ safeInteger (p + amount)) ->
  let n := fst (sessionIncrement client sessionId field amount s) in
  let s1 := snd (sessionIncrement client sessionId field amount s) in
  n = numAdd (scoreOf (fst (sessionGet client sessionId field s))) amount /\
  forall t,
    fst (sessionGet client sessionId field
           {| store := store s1; reads := t |})
    = Some (numberToString n).
Proof.
  intros _ _.
  unfold sessionIncrement, sessionGet, client.
  cbn [hincrby hget inMemoryClient]. unfold mem_hincrby, mem_hget, bind, ret.
  destruct (mem_get clock (hashKey (keyPrefix ++ sessionId) field) s)
    as [current s0].
  rewrite mem_set_eq. cbn [fst snd store truthy]. split.
  - destruct current as [[|c r]|]; reflexivity.
  - intros t. unfold mem_get, bind, ret, getStore. cbn [fst snd store].
    rewrite mapGet_mapSet_same. reflexivity.
Qed.

(** X23: with the in-memory client, [clearSession] resets the risk score but
    leaves every counter of the session as it was: the counters are kept
    under keys of their own, which [del] of the session key does not
    remove. *)
Theorem clearSession_keeps_counters (sessionId field : jsstring)
    (s : InMemoryStore) :
  let s1 := snd (clearSession client sessionId s) in
  fst (sessionGet client sessionId field s1)
  = fst (sessionGet client sessionId field s) /\
  fst (getRiskScore client sessionId s1) = Some 0%Z.
Proof.
  intros s1.
  assert (store s1
          = mapDelete (mapDelete (store s) (keyPrefix ++ sessionId))
                      (riskPrefix ++ sessionId) /\ reads s1 = reads s)
    as [Hs Hr] by (split; reflexivity).
  split.
  - unfold sessionGet, client. cbn [hget inMemoryClient]. unfold mem_hget.
    destruct (mem_get_spec clock (hashKey (keyPrefix ++ sessionId) field) s1)
      as [-> _].
    destruct (mem_get_spec clock (hashKey (keyPrefix ++ sessionId) field) s)
      as [-> _].
    rewrite Hr. f_equal. apply liveAt_same. rewrite Hs.
    rewrite mapGet_mapDelete_other
      by (apply not_eq_sym; apply sessionKey_not_riskKey).
    apply mapGet_mapDelete_other.
    unfold hashKey. apply app_longer. discriminate.
  - unfold client. rewrite getRiskScore_eq.
    destruct (mem_get_spec clock (riskPrefix ++ sessionId) s1) as [E _].
    cbn [fst]. rewrite E. unfold liveAt. rewrite Hs.
    rewrite mapGet_mapDelete_same. reflexivity.
Qed.

(** X24: [incrementRisk] with a number of points of 1 or less, 0 and negative
    numbers included, adds exactly one point. *)
Theorem incrementRisk_small_points (sessionId : jsstring)
    (points windowMs : Z) (s : InMemoryStore) :
  (points <= 1)%Z ->
  fst (incrementRisk client sessionId points windowMs s)
  = numAdd (fst (getRiskScore client sessionId s)) 1.
Proof.
  intros Hp. unfold client. rewrite getRiskScore_eq. cbn [fst].
  unfold incrementRisk, bind, ret.
  cbn [incr expire inMemoryClient].
  pose proof (mem_incr_result clock (riskPrefix ++ sessionId) s) as HI.
  destruct (mem_incr clock (riskPrefix ++ sessionId) s) as [newScore s1].
  cbn [fst] in HI.
  destruct (Z.ltb_spec 1 points); [lia|].
  repeat break_let. cbn [fst]. exact HI.
Qed.

(** *** One session does not touch another *)

Lemma mem_get_apart (k key : jsstring) (m0 : JsMap) :
  key <> k -> keeps (apartFrom k key m0) (mem_get clock key).
Proof.
  intros Hk s [Hg [Hl Hr]].
  destruct (mem_get_store clock key s) as [-> | [Hh ->]];
    [repeat split; assumption|].
  pose proof (mapDelete_length_has (store s) key Hh) as L.
  repeat split.
  - rewrite mapGet_mapDelete_other by exact Hk. exact Hg.
  - lia.
  - intros _. lia.
Qed.

Lemma evict_room (key : jsstring) (m : JsMap) :
  roomFor key m -> evict m = m.
Proof.
  intros [Hl _]. unfold evict.
  destruct (N.leb_spec maxSize (N.of_nat (length m))); [lia | reflexivity].
Qed.

Lemma mem_set_apart (k key v : jsstring) (ttl : option Z) (m0 : JsMap) :
  key <> k -> keeps (apartFrom k key m0) (mem_set clock key v ttl).
Proof.
  intros Hk s [Hg Hroom]. rewrite mem_set_eq. cbn [snd store].
  rewrite (evict_room Hroom). destruct Hroom as [Hl Hr].
  repeat split.
  - rewrite mapGet_mapSet_other by exact Hk. exact Hg.
  - rewrite mapSet_length. destruct (mapHas (store s) key); [exact Hl|].
    specialize (Hr eq_refl). lia.
  - rewrite mapHas_mapSet. discriminate.
Qed.

Lemma mem_expire_apart (k key : jsstring) (ttl : Z) (m0 : JsMap) :
  key <> k -> keeps (apartFrom k key m0) (mem_expire clock key ttl).
Proof.
  intros Hk s [Hg [Hl Hr]].
  destruct (mem_expire_store clock key ttl s) as [-> | (Hh & e & ->)];
    [repeat split; assumption|].
  repeat split.
  - rewrite mapGet_mapSet_other by exact Hk. exact Hg.
  - rewrite mapSet_length, Hh. exact Hl.
  - rewrite mapHas_mapSet. discriminate.
Qed.

Lemma mem_incr_apart (k key : jsstring) (m0 : JsMap) :
  key <> k -> keeps (apartFrom k key m0) (mem_incr clock key).
Proof.
  intros Hk. unfold mem_incr.
  apply keeps_bind; [apply mem_get_apart; exact Hk | intros current].
  apply keeps_bind; [apply keeps_getStore | intros m].
  apply keeps_bind.
  - destruct (mapGet m key) as [entry|]; [|apply keeps_ret].
    destruct (truthy (expiresAt entry)); [|apply keeps_ret].
    apply keeps_bind; [apply keeps_Date_now|].
    intros now. apply keeps_ret.
  - intros ttl. apply keeps_bind; [apply mem_set_apart; exact Hk|].
    intros _. apply keeps_ret.
Qed.

(** X25: while the store has room, assessing the risk of one session leaves
    the risk record of every other session exactly as it was. *)
Theorem assessRisk_other_session (config : RiskConfig)
    (sessionId other : jsstring) (entities : list PiiEntity)
    (s : InMemoryStore) :
  other <> sessionId ->
  (N.of_nat (length (store s)) + 1 < maxSize)%N ->
  mapGet (store (snd (assessRisk client config sessionId entities s)))
         (riskPrefix ++ other)
  = mapGet (store s) (riskPrefix ++ other).
Proof.
  intros Hid Hroom.
  assert (riskPrefix ++ sessionId <> riskPrefix ++ other) as Hk
    by (apply riskKey_inj; congruence).
  assert (keeps (apartFrom (riskPrefix ++ other) (riskPrefix ++ sessionId)
                   (store s))
                (assessRisk client config sessionId entities)) as K.
  { destruct entities as [|e es]; cbn [assessRisk].
    - apply keeps_bind; [|intros v; apply keeps_ret].
      unfold getRiskScore, client. cbn [get inMemoryClient].
      apply keeps_bind; [apply mem_get_apart; exact Hk|].
      intros v. apply keeps_ret.
    - apply keeps_bind; [|intros v; apply keeps_ret].
      unfold incrementRisk, client. cbn [incr expire inMemoryClient].
      apply keeps_bind; [apply mem_incr_apart; exact Hk|].
      intros newScore. apply keeps_bind.
      + destruct newScore as [[|[p|p|]|p]|]; try apply keeps_ret.
        apply keeps_bind; [apply mem_expire_apart; exact Hk|].
        intros _. apply keeps_ret.
      + intros _. destruct (pointsToAdd (e :: es)) as [n|text];
          [|apply keeps_ret].
        destruct (1 <? n)%Z; [|apply keeps_ret].
        apply keeps_bind;
          [apply keeps_repeatM; apply mem_incr_apart; exact Hk|].
        intros _. apply keeps_ret. }
  apply K. split; [reflexivity|]. split; [lia|]. intros _. exact Hroom.
Qed.

End SessionMore.

Lemma mem_incr_drops_expiry_witness :
  exists entry,
    mapGet (store (snd (mem_incr clockAt500 (js "risk:x") lastSecondStore)))
           (js "risk:x") = Some entry /\
    expiresAt entry = None /\
    forall n,
      fst (mem_get clockAt500 (js "risk:x")
             {| store := store (snd (mem_incr clockAt500 (js "risk:x")
                                       lastSecondStore));
                reads := n |})
      = Some (value entry).
Proof.
  apply (@mem_incr_drops_expiry clockAt500 (js "risk:x") (js "5") 1000%Z
           lastSecondStore).
  - reflexivity.
  - discriminate.
  - unfold clockAt500. lia.
  - unfold clockAt500. lia.
Defined.

(** The record it leaves: the score 6, without expiry. *)
Example lastSecondStore_incr :
  store (snd (mem_incr clockAt500 (js "risk:x") lastSecondStore))
  = [(js "risk:x", {| value := js "6"; expiresAt := None |})].
Proof. vm_compute. reflexivity. Qed.

(** The first request of a session, counted on a new store. *)
Lemma sessionIncrement_sessionGet_witness :
  fst (sessionIncrement (inMemoryClient msClock) (js "session-1")
         (js "requests") 1 newStore) = Some 1%Z /\
  forall t,
    fst (sessionGet (inMemoryClient msClock) (js "session-1")
           (js "requests")
           {| store :=
                store (snd (sessionIncrement (inMemoryClient msClock)
                              (js "session-1") (js "requests") 1 newStore));
              reads := t |})
    = Some (js "1").
Proof.
  assert (safeInteger 1) as Ha by (unfold safeInteger; lia).
  assert (forall p,
            scoreOf (fst (sessionGet (inMemoryClient msClock)
                            (js "session-1") (js "requests") newStore))
            = Some p ->
            safeInteger p /\ safeInteger (p + 1)) as Hp
    by (intros p [= <-]; unfold safeInteger; lia).
  destruct (@sessionIncrement_sessionGet msClock (js "session-1")
              (js "requests") 1 newStore Ha Hp) as [H1 H2].
  split; [exact H1 | exact H2].
Defined.

Lemma incrementRisk_small_points_witness :
  fst (incrementRisk (inMemoryClient msClock) (js "session-1") 0 3600000
         newStore)
  = numAdd (fst (getRiskScore (inMemoryClient msClock) (js "session-1")
                   newStore)) 1.
Proof.
  apply incrementRisk_small_points. lia.
Defined.

Example incrementRisk_zero_points :
  fst (incrementRisk (inMemoryClient msClock) (js "session-1") 0 3600000
         newStore) = Some 1%Z.
Proof. vm_compute. reflexivity. Qed.

Lemma assessRisk_other_session_witness :
  mapGet (store (snd (assessRisk (inMemoryClient msClock) config40
                        (js "session-2") [ssnEntity] oneSessionStore)))
         (riskPrefix ++ js "session-1")
  = mapGet (store oneSessionStore) (riskPrefix ++ js "session-1").
Proof.
  apply assessRisk_other_session.
  - vm_compute. discriminate.
  - vm_compute. reflexivity.
Defined.

(** ** Session identifiers *)

(** The encodings on known values: "Man", "Ma" and "M", and the
    characters U+00E9, U+20AC and U+1F600. *)
Example base64_known :
  base64 (utf8 (js "Man")) = js "TWFu" /\
  base64 (utf8 (js "Ma")) = js "TWE=" /\
  base64 (utf8 (js "M")) = js "TQ==" /\
  utf8 [233; 8364; 55357; 56832]%N
  = [195; 169; 226; 130; 172; 240; 159; 152; 128]%N.
Proof. vm_compute. repeat split. Qed.

(** The first [4 * k] characters of a base64 string are those of the
    first [3 * k] bytes. *)
Lemma base64_firstn (k : nat) :
  forall bytes,
  firstn (4 * k) (base64 bytes)
  = firstn (4 * k) (base64 (firstn (3 * k) bytes)).
Proof.
  induction k as [|k IH]; intros bytes; [reflexivity|].
  replace (4 * S k) with (S (S (S (S (4 * k))))) by lia.
  replace (3 * S k) with (S (S (S (3 * k)))) by lia.
  destruct bytes as [|a [|b [|c rest]]]; try reflexivity.
  cbn [base64 firstn]. rewrite IH. reflexivity.
Qed.

Lemma authSessionId_prefix (a b : jsstring) :
  firstn 24 (utf8 a) = firstn 24 (utf8 b) ->
  authSessionId a = authSessionId b.
Proof.
  intros H. unfold authSessionId, JsString.slice. f_equal.
  change (skipn 0 ?l) with l. change (32 - 0) with (4 * 8).
  rewrite (base64_firstn 8 (utf8 a)), (base64_firstn 8 (utf8 b)).
  change (3 * 8) with 24. rewrite H. reflexivity.
Qed.

(** X27: a non-empty [x-api-key] is the session identifier as it stands,
    without a prefix of its own: a request that sends the key "ip:" plus
    an address is given the session of the anonymous client at that
    address, whatever its own address and its other headers. *)
Theorem extractSessionId_api_key_verbatim (headers : Headers)
    (ip victim : jsstring) :
  lookup headers (js "x-api-key") = Some (HeaderString (js "ip:" ++ victim)) ->
  extractSessionId headers ip = js "ip:" ++ victim /\
  extractSessionId headers ip = extractSessionId [] victim.
Proof.
  intros H. unfold extractSessionId. rewrite H. split; reflexivity.
Qed.

(** X28: without [x-api-key], the session identifier made of an
    [Authorization] header depends on the first 24 bytes of the header
    only: two headers that agree on them share one session. *)
Theorem extractSessionId_auth_prefix (headers headers' : Headers)
    (ip ip' a b : jsstring) :
  lookup headers (js "x-api-key") = None ->
  lookup headers' (js "x-api-key") = None ->
  lookup headers (js "authorization") = Some (HeaderString a) ->
  lookup headers' (js "authorization") = Some (HeaderString b) ->
  a <> [] -> b <> [] ->
  firstn 24 (utf8 a) = firstn 24 (utf8 b) ->
  extractSessionId headers ip = extractSessionId headers' ip'.
Proof.
  intros Hk Hk' Ha Hb Na Nb H. unfold extractSessionId.
  rewrite Hk, Hk', Ha, Hb.
  destruct a as [|x a]; [congruence|]. destruct b as [|y b]; [congruence|].
  apply authSessionId_prefix. exact H.
Qed.

Lemma extractSessionId_api_key_verbatim_witness :
  extractSessionId spoofedKey (js "198.51.100.1") = js "ip:203.0.113.7" /\
  extractSessionId spoofedKey (js "198.51.100.1")
  = extractSessionId [] (js "203.0.113.7").
Proof.
  apply (@extractSessionId_api_key_verbatim spoofedKey (js "198.51.100.1")
           (js "203.0.113.7")).
  reflexivity.
Defined.

Lemma extractSessionId_auth_prefix_witness :
  extractSessionId bearerA (js "198.51.100.1")
  = extractSessionId bearerB (js "198.51.100.2").
Proof.
  apply (@extractSessionId_auth_prefix bearerA bearerB (js "198.51.100.1")
           (js "198.51.100.2") (js "Bearer sk-proj-0123456789-alice")
           (js "Bearer sk-proj-0123456789-bob")).
  - reflexivity.
  - reflexivity.
  - reflexivity.
  - reflexivity.
  - discriminate.
  - discriminate.
  - vm_compute. reflexivity.
Defined.

(** The identifier the two requests share. *)
Example extractSessionId_bearer :
  extractSessionId bearerA (js "198.51.100.1")
  = js "auth:QmVhcmVyIHNrLXByb2otMDEyMzQ1Njc4".
Proof. vm_compute. reflexivity. Qed.

(** ** Gemini contents *)

Lemma extractTextFromParts_app (ps qs : list GeminiPart) :
  extractTextFromParts (ps ++ qs)
  = extractTextFromParts ps ++ extractTextFromParts qs.
Proof.
  unfold extractTextFromParts. rewrite filter_app, map_app, concat_app.
  reflexivity.
Qed.

(** X29: [extractTextFromParts] gives back the texts that [createTextContent]
    wrapped, joined in order, whatever the roles; parts without text,
    wherever they stand among the others, add nothing. *)
Theorem extractTextFromParts_createTextContent
    (texts : list (jsstring * option GeminiRole))
    (images : list (option InlineData)) :
  extractTextFromParts
    (flat_map (fun t => parts (createTextContent (fst t) (snd t))) texts)
  = concat (map fst texts) /\
  forall ps qs,
    extractTextFromParts
      (ps ++ map (fun d => {| partText := None; inlineData := d |}) images
          ++ qs)
    = extractTextFromParts ps ++ extractTextFromParts qs.
Proof.
  split.
  - induction texts as [|[t r] texts IH]; [reflexivity|].
    cbn [flat_map map fst snd concat].
    rewrite extractTextFromParts_app, IH.
    unfold extractTextFromParts at 1. simpl. rewrite app_nil_r. reflexivity.
  - intros ps qs. rewrite !extractTextFromParts_app. f_equal.
    assert (extractTextFromParts
              (map (fun d => {| partText := None; inlineData := d |}) images)
            = []) as ->; [|reflexivity].
    induction images as [|d ds IH]; [reflexivity|]. exact IH.
Qed.

(** ** Model loader *)

Section ModelLoaderProperties.

Variable P : Type.
Variable createPipeline : jsstring -> bool -> jsstring + P.
Variable clock : nat -> Z.

(** X30: the pipeline is a singleton: once [loadModel] has returned one, every
    later [loadModel] returns that same pipeline, whatever model and
    options it is asked for, without calling the factory again, and
    [getModelPipeline] returns it too.  A load that fails leaves no
    pipeline behind when there was none. *)
Theorem loadModel_singleton (st : LoaderState P) (modelId : jsstring)
    (quantized : option bool) :
  match loadModel createPipeline clock modelId quantized st with
  | (inr p, st1) =>
      getModelPipeline st1 = inr p /\
      forall modelId' quantized',
        exists st2,
          loadModel createPipeline clock modelId' quantized' st1
          = (inr p, st2) /\
          factoryCalls st2 = factoryCalls st1 /\
          pipelineInstance st2 = Some p
  | (inl reason, st1) =>
      pipelineInstance st = None /\
      getModelPipeline st1
      = inl (js "Model not loaded. Call loadModel() first.") /\
      createPipeline modelId
        (match quantized with Some q => q | None => true end) = inl reason
  end.
Proof.
  unfold loadModel, getModelPipeline.
  destruct (pipelineInstance st) as [p|] eqn:I; cbn [pipelineInstance log].
  - rewrite I. split; [reflexivity|]. intros modelId' quantized'.
    eexists. split; [reflexivity|]. split; [reflexivity | exact I].
  - destruct (createPipeline modelId _) as [reason|p] eqn:C;
      cbn [pipelineInstance log].
    + auto.
    + split; [reflexivity|]. intros modelId' quantized'.
      eexists. split; [reflexivity|]. split; reflexivity.
Qed.

End ModelLoaderProperties.

(** Two loads on a new module: the second is asked for another model and
    gets the first. *)
Example loadModel_twice :
  let (first, st1) :=
    loadModel namedPipeline msClock (js "model-a") None newLoader in
  let (second, st2) :=
    loadModel namedPipeline msClock (js "model-b") (Some false) st1 in
  first = inr (js "model-a") /\ second = inr (js "model-a") /\
  factoryCalls st2 = [(js "model-a", true)] /\
  console st2
  = [js "[INFO] Loading PII detection model: model-a...";
     js "[INFO] Quantized model: true";
     js "   (First run will download and cache the model)";
     js "[OK] Model loaded in 1ms";
     js "[WARN] Model already loaded"].
Proof. vm_compute. repeat split. Qed.
(** ** Streaming Redaction Transformer: when redaction fails, or cannot *)

Section StreamErrors.

Variable W : Type.
Variable redact : W -> jsstring -> (RedactError + RedactionResult) * W.
Variable clock : nat -> Z.
Variable settles : nat -> list nat.
Variable JSON_parse : jsstring -> option OpenAiChatCompletionChunk.
Variable options : StreamTransformerOptions.

Section RedactReturns.

Hypothesis redact_returns :
  forall w t, exists r w', redact w t = (inr r, w').









End RedactReturns.

(** X17: when [redact] throws during a flush that a text delta has
    triggered, by whichever of the three triggers, no flush being in
    flight, the stream does not fail: the text that was buffered is
    discarded, and the line that triggered the flush is passed on as it
    was received. *)
Theorem processLine_swallows_flush_error (st : StreamState W)
    (rawLine : jsstring) (e : RedactError) (w' : W) :
  lineDelta JSON_parse rawLine <> [] ->
  inFlight st = [] ->
  SENTENCE_BOUNDARY (buffer st ++ lineDelta JSON_parse rawLine) = true \/
  maxTokens options
  <= tokenCount st + estimateTokens (lineDelta JSON_parse rawLine) \/
  (maxDelayMs options <= clock (tick st) - lastFlushTime st)%Z ->
  redact (world st) (buffer st ++ lineDelta JSON_parse rawLine)
  = (inl e, w') ->
  exists st',
    processLine redact clock settles JSON_parse options st rawLine
    = (st', None) /\
    pushed st' = pushed st ++ [Raw (stripCR rawLine ++ [LF])] /\
    buffer st' = [] /\ world st' = w'.
Proof.
  unfold lineDelta, processLine.
  destruct (negb (JsString.startsWith (stripCR rawLine) (js "data:")));
    [congruence|].
  destruct (JsString.eqb _ (js "[DONE]")); [congruence|].
  destruct (JSON_parse _) as [data|]; [|congruence].
  rewrite (extractDeltaContent_content noMeta (lastMeta st) data).
  destruct (extractDeltaContent (lastMeta st) data) as [content meta].
  cbn [fst]. destruct content as [|c content]; [congruence|].
  intros _ Hf Trigger R.
  destruct (buffer st ++ c :: content) as [|x b] eqn:B.
  { apply app_eq_nil in B as [_ B]. discriminate. }
  assert (forall s : StreamState W,
            buffer s = x :: b -> inFlight s = [] -> world s = world st ->
            pushed s = pushed st ->
            exists st',
              match flushBuffer redact clock settles s with
              | (st4, Returned) => (st4, None)
              | (st4, Threw _) =>
                  (push st4 (Raw (stripCR rawLine ++ [LF])), None)
              | (st4, StreamFailed error) => (st4, Some error)
              end = (st', @None RedactError) /\
              pushed st' = pushed st ++ [Raw (stripCR rawLine ++ [LF])] /\
              buffer st' = [] /\ world st' = w') as Fl.
  { intros s Bs Is Ws Ps.
    rewrite (flushBuffer_idle redact clock settles s Bs Is).
    unfold emitRedacted. cbn [world takeBuffer]. rewrite Ws, R.
    eexists. split; [reflexivity|].
    cbn [pushed push buffer world takeBuffer]. rewrite Ps. auto. }
  unfold shouldFlush. cbn [buffer tokenCount lastFlushTime tick].
  rewrite B.
  destruct (SENTENCE_BOUNDARY (x :: b)) eqn:SB.
  { apply Fl; try reflexivity; assumption. }
  destruct (Nat.leb_spec (maxTokens options)
              (tokenCount st + estimateTokens (c :: content))) as [M|M].
  { apply Fl; try reflexivity; assumption. }
  destruct (Z.leb_spec (maxDelayMs options)
              (clock (tick st) - lastFlushTime st)) as [D|D].
  { apply Fl; try reflexivity; assumption. }
  destruct Trigger as [T|[T|T]]; [discriminate T | lia | lia].
Qed.

End StreamErrors.

Section FailOpenStreams.

Variable toLowerCase : jsstring -> jsstring.
Variable F : FakerLib.
Variable pipeline : Pipeline.
Variable options : RedactionOptions.



End FailOpenStreams.

Lemma processLine_swallows_flush_error_witness :
  exists st',
    processLine closedRedact frozenClock noneSettles parseTwoPayloads
                DEFAULT_OPTIONS (newStream frozenClock stubHost) mailLine
    = (st', None) /\
    pushed st'
    = pushed (newStream frozenClock stubHost)
      ++ [Raw (stripCR mailLine ++ [LF])] /\
    buffer st' = [] /\ world st' = stubHost.
Proof.
  apply (@processLine_swallows_flush_error (Host stubFaker) closedRedact
           frozenClock noneSettles parseTwoPayloads DEFAULT_OPTIONS
           (newStream frozenClock stubHost) mailLine
           (InferenceTimeoutError 500) stubHost).
  - vm_compute. discriminate.
  - reflexivity.
  - left. vm_compute. reflexivity.
  - reflexivity.
Defined.


(** A flush in flight that fails ends the stream whatever the buffer
    holds: here the text of a second delta, with its timer pending. *)
Example runEvents_flush_in_flight_fails :
  let (st, err) :=
    runEvents closedRedact frozenClock noneSettles parseTwoPayloads
      DEFAULT_OPTIONS (newStream frozenClock stubHost)
      [Chunk (sseLine payloadBCD); TimerFired; Chunk (sseLine payloadBCD);
       FlushSettled 0] in
  err = Some (InferenceTimeoutError 500) /\
  buffer st = js "b@c.d" /\ flushTimer st = true /\ inFlight st = [].
Proof. vm_compute. repeat split. Qed.
